(** * Scene collections (blenkernel/intern/collection.c)

    A shallow embedding of the scene-collection kernel: the tree of
    [SceneCollection] nodes owned by a scene or a group, the object links
    they hold, the structural edits (remove, move above / below / into,
    conversion into a group) and the two iterators.

    Memory is a store from addresses to [SceneCollection] structs; a
    pointer is an address, pointer equality is address equality, and two
    pointers to the same struct see each other's writes.  The intrusive
    [ListBase] of the C code is kept as the ordered sequence of the
    addresses (or, for [LinkData], of the [data] pointers) it links.
    Recursive walks over the tree take a [fuel] bound on their depth;
    running out of fuel, reading a dangling pointer and a failed
    [BLI_assert] all give no result. *)

From Stdlib Require Import ZArith String List Lia.
From stdpp Require Import base option list gmap strings pretty.

Set Warnings "-register-all,-clear-no-such-hyp".

Open Scope Z_scope.
Open Scope nat_scope.

(* ===================================================================== *)
(** ** Data model *)
(* ===================================================================== *)

Abbreviation ptr := nat.

(** DNA_layer_types.h: the [type] of a collection. *)
Inductive collection_type :=
  | COLLECTION_TYPE_NONE
  | COLLECTION_TYPE_GROUP
  | COLLECTION_TYPE_GROUP_INTERNAL.

#[global] Instance collection_type_eq_dec : EqDecision collection_type.
Proof. solve_decision. Defined.

(** [struct SceneCollection]; [objects] and [filter_objects] hold the
    [data] pointer of each [LinkData], [scene_collections] the addresses
    of the nested collections, in list order. *)
Record SceneCollection := mkSceneCollection {
  name : string;
  type : collection_type;
  objects : list ptr;
  filter_objects : list ptr;
  scene_collections : list ptr;
  group : option ptr
}.

(** [struct LayerCollection]: owned by its list, so kept by value.
    Modelled from the spec: [overrides], the collection-specific
    override properties a LayerCollection carries, one value per
    Object; this file never reads or writes them. *)
Inductive LayerCollection := mkLayerCollection {
  scene_collection : ptr;
  flag : Z;
  flag_evaluated : Z;
  overrides : list (ptr * Z);
  layer_collections : list LayerCollection
}.

Record SceneLayer := mkSceneLayer {
  sl_layer_collections : list LayerCollection;
  active_collection : Z
}.

Record Scene := mkScene {
  collection : ptr;
  render_layers : list SceneLayer
}.

Record Group := mkGroup {
  gr_name : string;
  gr_collection : ptr;
  scene_layer : SceneLayer
}.

(** An [ID *] that owns collections: [GS(id->name)] is the constructor. *)
Inductive ID :=
  | ID_SCE (scene : ptr)
  | ID_GR (group : ptr)
  | ID_OB (object : ptr).

(** Calls into the layer subsystem and the library manager, which this
    kernel only triggers: they are recorded in the order they are made. *)
Inductive event :=
  | layer_sync_new_scene_collection (id : ID) (sc_parent sc : ptr)
  | layer_sync_object_link (id : ID) (sc ob : ptr)
  | layer_sync_object_unlink (id : ID) (sc ob : ptr)
  | layer_collection_resync (scene sc : ptr)
  | layer_collection_free (sc : ptr)
  | layer_collection_convert (sc : ptr) (ty : collection_type)
  | collection_link (sc : ptr)
  | collection_unlink (sc : ptr)
  | libblock_free (ob : ptr).

Record World := mkWorld {
  colls : gmap nat SceneCollection;  (* SceneCollection structs by address *)
  scenes : gmap nat Scene;
  groups : gmap nat Group;
  users : gmap nat Z;                (* [id.us] of each Object *)
  events : list event;               (* collaborator calls, oldest first *)
  brk : nat                          (* next address MEM_callocN hands out *)
}.

(** Field writes. *)
Definition set_name (s : string) (sc : SceneCollection) : SceneCollection :=
  mkSceneCollection s (type sc) (objects sc) (filter_objects sc) (scene_collections sc) (group sc).
Definition set_type (t : collection_type) (sc : SceneCollection) : SceneCollection :=
  mkSceneCollection (name sc) t (objects sc) (filter_objects sc) (scene_collections sc) (group sc).
Definition set_objects (l : list ptr) (sc : SceneCollection) : SceneCollection :=
  mkSceneCollection (name sc) (type sc) l (filter_objects sc) (scene_collections sc) (group sc).
Definition set_filter_objects (l : list ptr) (sc : SceneCollection) : SceneCollection :=
  mkSceneCollection (name sc) (type sc) (objects sc) l (scene_collections sc) (group sc).
Definition set_scene_collections (l : list ptr) (sc : SceneCollection) : SceneCollection :=
  mkSceneCollection (name sc) (type sc) (objects sc) (filter_objects sc) l (group sc).
Definition set_group (g : option ptr) (sc : SceneCollection) : SceneCollection :=
  mkSceneCollection (name sc) (type sc) (objects sc) (filter_objects sc) (scene_collections sc) g.

Definition with_colls (h : gmap nat SceneCollection) (w : World) : World :=
  mkWorld h (scenes w) (groups w) (users w) (events w) (brk w).
Definition with_scenes (s : gmap nat Scene) (w : World) : World :=
  mkWorld (colls w) s (groups w) (users w) (events w) (brk w).
Definition with_groups (g : gmap nat Group) (w : World) : World :=
  mkWorld (colls w) (scenes w) g (users w) (events w) (brk w).
Definition with_users (u : gmap nat Z) (w : World) : World :=
  mkWorld (colls w) (scenes w) (groups w) u (events w) (brk w).
Definition with_events (e : list event) (w : World) : World :=
  mkWorld (colls w) (scenes w) (groups w) (users w) e (brk w).
Definition with_brk (b : nat) (w : World) : World :=
  mkWorld (colls w) (scenes w) (groups w) (users w) (events w) b.

(* ===================================================================== *)
(** ** The state-and-failure monad *)
(* ===================================================================== *)

Definition M (A : Type) : Type := World → option (A * World).

Definition ret {A} (a : A) : M A := λ w, Some (a, w).
Definition bind {A B} (m : M A) (k : A → M B) : M B :=
  λ w, match m w with Some (a, w') => k a w' | None => None end.
Definition fault {A} : M A := λ _, None.

Notation "'do' x <- m ; k" := (bind m (λ x, k))
  (at level 10, x name, m at level 100, k at level 200).
Notation "m ;; k" := (bind m (λ _, k))
  (at level 100, k at level 200, right associativity).

Definition lift {A} (o : option A) : M A := λ w, match o with Some a => Some (a, w) | None => None end.
Definition gets {A} (f : World → A) : M A := λ w, Some (f w, w).
Definition modify (f : World → World) : M unit := λ w, Some (tt, f w).

(** [BLI_assert(b)]: a violated assertion is a programming error after
    which the program is not expected to continue. *)
Definition BLI_assert (b : bool) : M unit := if b then ret tt else fault.

(** [*sc] as an r-value, and a write through [sc]. *)
Definition load (sc : ptr) : M SceneCollection := λ w, (λ v, (v, w)) <$> colls w !! sc.
Definition store (sc : ptr) (f : SceneCollection → SceneCollection) : M unit :=
  λ w, (λ v, (tt, with_colls (<[sc := f v]> (colls w)) w)) <$> colls w !! sc.
Definition load_scene (scene : ptr) : M Scene := λ w, (λ v, (v, w)) <$> scenes w !! scene.
Definition load_group (g : ptr) : M Group := λ w, (λ v, (v, w)) <$> groups w !! g.

(** A new SceneCollection struct with the given bytes, at the next free
    address; [MEM_callocN] zeroes it, [MEM_dupallocN] copies another. *)
Definition zeroed : SceneCollection :=
  mkSceneCollection EmptyString COLLECTION_TYPE_NONE [] [] [] None.
Definition alloc (init : SceneCollection) : M ptr :=
  λ w, Some (brk w, with_brk (S (brk w)) (with_colls (<[brk w := init]> (colls w)) w)).
Definition MEM_callocN : M ptr := alloc zeroed.
Definition MEM_dupallocN (sc : ptr) : M ptr := do c <- load sc; alloc c.
(** [MEM_freeN(sc)]. *)
Definition MEM_freeN (sc : ptr) : M unit :=
  λ w, Some (tt, with_colls (delete sc (colls w)) w).

Definition emit (e : event) : M unit := modify (λ w, with_events (events w ++ [e]) w).

(** Loop over a list, threading the state. *)
Fixpoint for_each {A} (l : list A) (body : A → M unit) : M unit :=
  match l with
  | [] => ret tt
  | x :: rest => body x ;; for_each rest body
  end.

(* ===================================================================== *)
(** ** Collaborators outside this file *)
(* ===================================================================== *)

(** What the file takes from DNA and from BLI_string_utils without
    defining it: the size of the [name] buffer of a SceneCollection, and
    the numbered variant of a name that [BLI_uniquename_cb] proposes on
    its [n]-th try. *)
Class Externals := {
  sizeof_name : nat;
  uniquename_numbered : string → nat → string
}.

(** Modelled from the spec: the low-level intrusive list primitives
    (BLI_listbase), as owned ordered sequences with append, insert-before,
    insert-after and remove-by-identity, ordering kept exactly. *)
Definition BLI_addtail (lb : list ptr) (link : ptr) : list ptr := lb ++ [link].

(** Modelled from the spec: remove-by-identity of BLI_listbase; the link
    is taken out of the sequence where it first occurs. *)
Fixpoint BLI_remlink (lb : list ptr) (link : ptr) : list ptr :=
  match lb with
  | [] => []
  | x :: rest => if decide (x = link) then rest else x :: BLI_remlink rest link
  end.

(** Modelled from the spec: insert-before of BLI_listbase.  An empty
    list receives the new link; otherwise the anchor has to be in the
    sequence, there being no sequence for what the pointer splice does
    when it is not. *)
Fixpoint insert_before (lb : list ptr) (nextlink newlink : ptr) : option (list ptr) :=
  match lb with
  | [] => None
  | x :: rest =>
      if decide (x = nextlink) then Some (newlink :: x :: rest)
      else (λ r, x :: r) <$> insert_before rest nextlink newlink
  end.
Definition BLI_insertlinkbefore (lb : list ptr) (nextlink newlink : ptr) : option (list ptr) :=
  match lb with [] => Some [newlink] | _ => insert_before lb nextlink newlink end.

(** Modelled from the spec: insert-after of BLI_listbase, as above. *)
Fixpoint insert_after (lb : list ptr) (prevlink newlink : ptr) : option (list ptr) :=
  match lb with
  | [] => None
  | x :: rest =>
      if decide (x = prevlink) then Some (x :: newlink :: rest)
      else (λ r, x :: r) <$> insert_after rest prevlink newlink
  end.
Definition BLI_insertlinkafter (lb : list ptr) (prevlink newlink : ptr) : option (list ptr) :=
  match lb with [] => Some [newlink] | _ => insert_after lb prevlink newlink end.

(** Modelled from the spec: BLI_findptr over a list of LinkData, is
    there a link whose [data] is [ob]. *)
Definition BLI_findptr (lb : list ptr) (ob : ptr) : bool := bool_decide (ob ∈ lb).

(** The [prev] and [next] pointers of a link, read off the sequence
    that holds it; NULL at the ends and for a link in no sequence. *)
Fixpoint link_prev (lb : list ptr) (link : ptr) : option ptr :=
  match lb with
  | x :: (y :: _) as rest => if decide (y = link) then Some x else link_prev rest link
  | _ => None
  end.
Fixpoint link_next (lb : list ptr) (link : ptr) : option ptr :=
  match lb with
  | x :: rest => if decide (x = link) then head rest else link_next rest link
  | [] => None
  end.

(** Modelled from the spec: the reference count of a shared Object,
    increment(entity) and decrement(entity) of BKE_library. *)
Definition us_of (w : World) (ob : ptr) : Z := default 0%Z (users w !! ob).
Definition id_us_plus (ob : ptr) : M unit :=
  modify (λ w, with_users (<[ob := (us_of w ob + 1)%Z]> (users w)) w).
Definition id_us_min (ob : ptr) : M unit :=
  modify (λ w, with_users (<[ob := (us_of w ob - 1)%Z]> (users w)) w).

(** Modelled from the spec: release-if-unreferenced(mainRegistry, entity)
    of BKE_library, one decrement, and the release once no user is left. *)
Definition BKE_libblock_free_us (ob : ptr) : M unit :=
  id_us_min ob ;;
  do w <- gets (λ w, w);
  if decide (us_of w ob = 0%Z) then emit (libblock_free ob) else ret tt.

(* ===================================================================== *)
(** ** Master collection of an owner *)
(* ===================================================================== *)

Definition BKE_collection_master (scene : ptr) : M ptr :=
  do s <- load_scene scene; ret (collection s).

Definition BKE_collection_group_master (g : ptr) : M ptr :=
  do gr <- load_group g; ret (gr_collection gr).

Definition collection_master_from_id (id : ID) : M ptr :=
  match id with
  | ID_SCE scene => do s <- load_scene scene; ret (collection s)
  | ID_GR g => do gr <- load_group g; ret (gr_collection gr)
  | _ => BLI_assert false ;; fault
  end.

Definition master_collection_from_id (id : ID) : M ptr :=
  match id with
  | ID_SCE scene => BKE_collection_master scene
  | ID_GR g => BKE_collection_group_master g
  | _ => BLI_assert false ;; fault
  end.

(* ===================================================================== *)
(** ** Parent search and the cycle guard *)
(* ===================================================================== *)

(** The loop of [find_collection_parent] over the nested collections of
    [sc_parent], given the recursive call. *)
Fixpoint find_nested (rec : ptr → option (option ptr)) (sc_child sc_parent : ptr)
    (nested : list ptr) : option (option ptr) :=
  match nested with
  | [] => Some None
  | sc_nested :: rest =>
      if decide (sc_nested = sc_child) then Some (Some sc_parent)
      else
        match rec sc_nested with
        | None => None
        | Some (Some found) => Some (Some found)
        | Some None => find_nested rec sc_child sc_parent rest
        end
  end.

Fixpoint find_collection_parent (fuel : nat) (h : gmap nat SceneCollection)
    (sc_child sc_parent : ptr) : option (option ptr) :=
  match fuel with
  | 0 => None
  | S fuel =>
      match h !! sc_parent with
      | None => None
      | Some parent =>
          find_nested (find_collection_parent fuel h sc_child) sc_child sc_parent
            (scene_collections parent)
      end
  end.

Definition is_collection_in_tree (fuel : nat) (h : gmap nat SceneCollection)
    (sc_reference sc_parent : ptr) : option bool :=
  (λ found, bool_decide (found ≠ None)) <$> find_collection_parent fuel h sc_reference sc_parent.

(* ===================================================================== *)
(** ** Freeing and removing collections *)
(* ===================================================================== *)

(** [collection_free]: drop the users of the linked objects, free the
    three lists, after freeing the items of every nested collection. *)
Fixpoint collection_free (fuel : nat) (sc : ptr) (do_id_user : bool) : M unit :=
  match fuel with
  | 0 => fault
  | S fuel =>
      do c <- load sc;
      (if do_id_user then
         for_each (objects c) id_us_min ;;
         for_each (filter_objects c) id_us_min
       else ret tt) ;;
      store sc (set_objects []) ;;
      store sc (set_filter_objects []) ;;
      for_each (scene_collections c) (λ nsc, collection_free fuel nsc do_id_user) ;;
      for_each (scene_collections c) MEM_freeN ;;
      store sc (set_scene_collections [])
  end.

(** The loop of [collection_remlink] over the nested collections of
    [sc_parent], given the recursive call. *)
Fixpoint remlink_nested (rec : ptr → M bool) (sc_parent sc_gone : ptr)
    (nested : list ptr) : M bool :=
  match nested with
  | [] => ret false
  | sc :: rest =>
      if decide (sc = sc_gone) then
        store sc_parent (λ p, set_scene_collections (BLI_remlink (scene_collections p) sc_gone) p) ;;
        ret true
      else
        do gone <- rec sc;
        if gone then ret true else remlink_nested rec sc_parent sc_gone rest
  end.

Fixpoint collection_remlink (fuel : nat) (sc_parent sc_gone : ptr) : M bool :=
  match fuel with
  | 0 => fault
  | S fuel =>
      do p <- load sc_parent;
      remlink_nested (λ sc, collection_remlink fuel sc sc_gone) sc_parent sc_gone
        (scene_collections p)
  end.

(** [layer_collection_remove] on the list nested in one LayerCollection
    ([lb != &sl->layer_collections]): the walk stops at the first
    instance it frees. *)
Fixpoint layer_collection_remove_nested (sc : ptr) (lc : LayerCollection)
    : LayerCollection * list event :=
  let walk :=
    fix walk (lb : list LayerCollection) : list LayerCollection * list event :=
      match lb with
      | [] => ([], [])
      | c :: rest =>
          if decide (scene_collection c = sc) then (rest, [layer_collection_free sc])
          else
            let '(c', e1) := layer_collection_remove_nested sc c in
            let '(rest', e2) := walk rest in
            (c' :: rest', e1 ++ e2)
      end in
  let '(lb', e) := walk (layer_collections lc) in
  (mkLayerCollection (scene_collection lc) (flag lc) (flag_evaluated lc) (overrides lc) lb', e).

(** [layer_collection_remove] on the top-level list of a layer: every
    top-level instance is freed. *)
Fixpoint layer_collection_remove (sc : ptr) (lb : list LayerCollection)
    : list LayerCollection * list event :=
  match lb with
  | [] => ([], [])
  | lc :: rest =>
      if decide (scene_collection lc = sc) then
        let '(rest', e) := layer_collection_remove sc rest in
        (rest', layer_collection_free sc :: e)
      else
        let '(lc', e1) := layer_collection_remove_nested sc lc in
        let '(rest', e2) := layer_collection_remove sc rest in
        (lc' :: rest', e1 ++ e2)
  end.

(** The loop of [BKE_collection_remove] over the render layers. *)
Fixpoint remove_from_layers (sc : ptr) (sls : list SceneLayer) : list SceneLayer * list event :=
  match sls with
  | [] => ([], [])
  | sl :: rest =>
      let '(lb', e1) := layer_collection_remove sc (sl_layer_collections sl) in
      let '(rest', e2) := remove_from_layers sc rest in
      (mkSceneLayer lb' 0%Z :: rest', e1 ++ e2)
  end.

Definition BKE_collection_remove (fuel : nat) (scene sc : ptr) : M bool :=
  do sc_master <- BKE_collection_master scene;
  if decide (sc = sc_master) then ret false
  else
    do unlinked <- collection_remlink fuel sc_master sc;
    (if negb unlinked then BLI_assert false else ret tt) ;;
    collection_free fuel sc true ;;
    do s <- load_scene scene;
    let '(sls, e) := remove_from_layers sc (render_layers s) in
    modify (λ w, with_events (events w ++ e)
                   (with_scenes (<[scene := mkScene (collection s) sls]> (scenes w)) w)) ;;
    MEM_freeN sc ;;
    ret true.

(* ===================================================================== *)
(** ** Outliner drag and drop: move above, below, into *)
(* ===================================================================== *)

(** [sc->prev] and [sc->next] of a collection: those of its link in the
    list of the collection that nests it under [sc_master]. *)
Definition sc_prev (fuel : nat) (h : gmap nat SceneCollection) (sc_master sc : ptr)
    : option (option ptr) :=
  match find_collection_parent fuel h sc sc_master with
  | None => None
  | Some None => Some None
  | Some (Some p) => (λ c, link_prev (scene_collections c) sc) <$> h !! p
  end.
Definition sc_next (fuel : nat) (h : gmap nat SceneCollection) (sc_master sc : ptr)
    : option (option ptr) :=
  match find_collection_parent fuel h sc sc_master with
  | None => None
  | Some None => Some None
  | Some (Some p) => (λ c, link_next (scene_collections c) sc) <$> h !! p
  end.

(** [BLI_assert(p)] for a pointer, and the dereference that follows. *)
Definition assert_ptr (p : option ptr) : M ptr :=
  match p with Some a => ret a | None => BLI_assert false ;; fault end.

Definition BKE_layer_collection_resync (scene sc : ptr) : M unit :=
  emit (layer_collection_resync scene sc).

Definition BKE_collection_move_above (fuel : nat) (scene sc_dst sc_src : ptr) : M bool :=
  do sc_master <- BKE_collection_master scene;
  if bool_decide (sc_master = sc_src ∨ sc_master = sc_dst) then ret false
  else
    do prev <- gets (λ w, sc_prev fuel (colls w) sc_master sc_dst);
    do prev <- lift prev;
    if decide (prev = Some sc_src) then ret false
    else
      do nested <- gets (λ w, is_collection_in_tree fuel (colls w) sc_dst sc_src);
      do nested <- lift nested;
      if nested then ret false
      else
        do sc_src_parent <- gets (λ w, find_collection_parent fuel (colls w) sc_src sc_master);
        do sc_src_parent <- lift sc_src_parent;
        do sc_dst_parent <- gets (λ w, find_collection_parent fuel (colls w) sc_dst sc_master);
        do sc_dst_parent <- lift sc_dst_parent;
        do sc_src_parent <- assert_ptr sc_src_parent;
        do sc_dst_parent <- assert_ptr sc_dst_parent;
        store sc_src_parent (λ p, set_scene_collections (BLI_remlink (scene_collections p) sc_src) p) ;;
        do p <- load sc_dst_parent;
        do lb <- lift (BLI_insertlinkbefore (scene_collections p) sc_dst sc_src);
        store sc_dst_parent (set_scene_collections lb) ;;
        BKE_layer_collection_resync scene sc_src_parent ;;
        BKE_layer_collection_resync scene sc_dst_parent ;;
        ret true.

Definition BKE_collection_move_below (fuel : nat) (scene sc_dst sc_src : ptr) : M bool :=
  do sc_master <- BKE_collection_master scene;
  if bool_decide (sc_master = sc_src ∨ sc_master = sc_dst) then ret false
  else
    do next <- gets (λ w, sc_next fuel (colls w) sc_master sc_dst);
    do next <- lift next;
    if decide (next = Some sc_src) then ret false
    else
      do nested <- gets (λ w, is_collection_in_tree fuel (colls w) sc_dst sc_src);
      do nested <- lift nested;
      if nested then ret false
      else
        do sc_src_parent <- gets (λ w, find_collection_parent fuel (colls w) sc_src sc_master);
        do sc_src_parent <- lift sc_src_parent;
        do sc_dst_parent <- gets (λ w, find_collection_parent fuel (colls w) sc_dst sc_master);
        do sc_dst_parent <- lift sc_dst_parent;
        do sc_src_parent <- assert_ptr sc_src_parent;
        do sc_dst_parent <- assert_ptr sc_dst_parent;
        store sc_src_parent (λ p, set_scene_collections (BLI_remlink (scene_collections p) sc_src) p) ;;
        do p <- load sc_dst_parent;
        do lb <- lift (BLI_insertlinkafter (scene_collections p) sc_dst sc_src);
        store sc_dst_parent (set_scene_collections lb) ;;
        BKE_layer_collection_resync scene sc_src_parent ;;
        BKE_layer_collection_resync scene sc_dst_parent ;;
        ret true.

Definition BKE_collection_move_into (fuel : nat) (scene sc_dst sc_src : ptr) : M bool :=
  do sc_master <- BKE_collection_master scene;
  if decide (sc_src = sc_master) then ret false
  else
    do nested <- gets (λ w, is_collection_in_tree fuel (colls w) sc_dst sc_src);
    do nested <- lift nested;
    if nested then ret false
    else
      do sc_src_parent <- gets (λ w, find_collection_parent fuel (colls w) sc_src sc_master);
      do sc_src_parent <- lift sc_src_parent;
      do sc_src_parent <- assert_ptr sc_src_parent;
      do d <- load sc_dst;
      if decide (last (scene_collections d) = Some sc_src) then ret false
      else
        store sc_src_parent (λ p, set_scene_collections (BLI_remlink (scene_collections p) sc_src) p) ;;
        store sc_dst (λ p, set_scene_collections (BLI_addtail (scene_collections p) sc_src) p) ;;
        BKE_layer_collection_resync scene sc_src_parent ;;
        BKE_layer_collection_resync scene sc_dst ;;
        ret true.

(* ===================================================================== *)
(** ** Iterator over the scene collections of an owner *)
(* ===================================================================== *)

(** [struct BLI_Iterator], with the type of [data] made explicit. *)
Record BLI_Iterator (D : Type) := mkIterator {
  current : option ptr;
  data : D;
  valid : bool
}.
Arguments mkIterator {D} _ _ _.
Arguments current {D} _.
Arguments data {D} _.
Arguments valid {D} _.

Record SceneCollectionsIteratorData := mkSceneCollectionsIteratorData {
  it_id : ID;
  array : list ptr;
  tot : nat;
  cur : nat
}.

(** The loop of [scene_collection_callback] over the nested collections. *)
Fixpoint callback_nested {D} (rec : ptr → D → option D) (nested : list ptr) (d : D) : option D :=
  match nested with
  | [] => Some d
  | nsc :: rest =>
      match rec nsc d with
      | None => None
      | Some d' => callback_nested rec rest d'
      end
  end.

Fixpoint scene_collection_callback {D} (fuel : nat) (h : gmap nat SceneCollection)
    (sc : ptr) (callback : ptr → D → D) (d : D) : option D :=
  match fuel with
  | 0 => None
  | S fuel =>
      match h !! sc with
      | None => None
      | Some c =>
          callback_nested (λ nsc, scene_collection_callback fuel h nsc callback)
            (scene_collections c) (callback sc d)
      end
  end.

Definition scene_collections_count (sc : ptr) (tot : nat) : nat := S tot.

(** [data] is the write cursor into the array being filled. *)
Definition scene_collections_build_array (sc : ptr) (d : list ptr * nat) : list ptr * nat :=
  (<[d.2 := sc]> (d.1), S d.2).

(** [scene_collections_array], for a non-NULL [id] whose master is
    [sc]: count, allocate, fill. *)
Definition scene_collections_array (fuel : nat) (h : gmap nat SceneCollection) (sc : ptr)
    : option (list ptr * nat) :=
  match scene_collection_callback fuel h sc scene_collections_count 0 with
  | None => None
  | Some 0 => Some ([], 0)
  | Some n =>
      match scene_collection_callback fuel h sc scene_collections_build_array (replicate n 0, 0) with
      | None => None
      | Some (arr, _) => Some (arr, n)
      end
  end.

Definition BKE_scene_collections_iterator_begin (fuel : nat) (id : ID)
    : M (BLI_Iterator SceneCollectionsIteratorData) :=
  do sc <- master_collection_from_id id;
  do r <- gets (λ w, scene_collections_array fuel (colls w) sc);
  do r <- lift r;
  do first <- lift (r.1 !! 0);
  ret (mkIterator (Some first) (mkSceneCollectionsIteratorData id r.1 r.2 0) true).

Definition BKE_scene_collections_iterator_next (iter : BLI_Iterator SceneCollectionsIteratorData)
    : BLI_Iterator SceneCollectionsIteratorData :=
  let d := data iter in
  let d' := mkSceneCollectionsIteratorData (it_id d) (array d) (tot d) (S (cur d)) in
  if decide (S (cur d) < tot d) then mkIterator (array d !! S (cur d)) d' (valid iter)
  else mkIterator (current iter) d' false.

(** [ITER_BEGIN ... ITER_END] of BLI_iterator.h around the collections
    iterator: [n] bounds the number of rounds. *)
Fixpoint scene_collections_rounds (n : nat) (iter : BLI_Iterator SceneCollectionsIteratorData)
    (body : ptr → M unit) : M unit :=
  if valid iter then
    match n with
    | 0 => fault
    | S n =>
        do sc <- lift (current iter);
        body sc ;;
        scene_collections_rounds n (BKE_scene_collections_iterator_next iter) body
    end
  else ret tt.

Definition FOREACH_SCENE_COLLECTION (fuel : nat) (id : ID) (body : ptr → M unit) : M unit :=
  do iter <- BKE_scene_collections_iterator_begin fuel id;
  scene_collections_rounds (tot (data iter)) iter body.

(** What a [FOREACH_SCENE_COLLECTION] loop sees, in order. *)
Fixpoint scene_collections_yield (n : nat) (iter : BLI_Iterator SceneCollectionsIteratorData)
    : option (list ptr) :=
  if valid iter then
    match n with
    | 0 => None
    | S n =>
        match current iter with
        | None => None
        | Some sc => (λ l, sc :: l) <$> scene_collections_yield n (BKE_scene_collections_iterator_next iter)
        end
    end
  else Some [].

(* ===================================================================== *)
(** ** Iterator over the objects of a scene *)
(* ===================================================================== *)

(** A [LinkData *] is kept as the list from that link on; NULL is the
    empty list. *)
Record SceneObjectsIteratorData := mkSceneObjectsIteratorData {
  visited : gset nat;
  link_next_ : list ptr;
  scene_collection_iter : BLI_Iterator SceneCollectionsIteratorData
}.

(** [object_base_unique]: the first link whose object is not yet in
    the set, which is added to it. *)
Fixpoint object_base_unique (gs : gset nat) (link : list ptr) : gset nat * list ptr :=
  match link with
  | [] => (gs, [])
  | ob :: next =>
      if decide (ob ∈ gs) then object_base_unique gs next
      else ({[ob]} ∪ gs, link)
  end.

(** The [do ... while] of [BKE_scene_objects_iterator_next]; [n] bounds
    the number of rounds.  It gives the new [current] and [data] when it
    returns from inside the loop, and only the new [data] when it runs
    to the end. *)
Fixpoint objects_next_collection (n : nat) (h : gmap nat SceneCollection)
    (gs : gset nat) (ln : list ptr) (sci : BLI_Iterator SceneCollectionsIteratorData)
    : option (option ptr * SceneObjectsIteratorData) :=
  match n with
  | 0 => None
  | S n =>
      match current sci with
      | None => None
      | Some sc =>
          match h !! sc with
          | None => None
          | Some c =>
              match object_base_unique gs (objects c) with
              | (gs', ob :: next) => Some (Some ob, mkSceneObjectsIteratorData gs' next sci)
              | (gs', []) =>
                  let sci' := BKE_scene_collections_iterator_next sci in
                  if valid sci' then objects_next_collection n h gs' ln sci'
                  else Some (None, mkSceneObjectsIteratorData gs' ln sci')
              end
          end
      end
  end.

Definition BKE_scene_objects_iterator_next (h : gmap nat SceneCollection)
    (iter : BLI_Iterator SceneObjectsIteratorData) : option (BLI_Iterator SceneObjectsIteratorData) :=
  let d := data iter in
  let '(gs, link) :=
    match link_next_ d with
    | [] => (visited d, [])
    | _ => object_base_unique (visited d) (link_next_ d)
    end in
  match link with
  | ob :: next =>
      Some (mkIterator (Some ob) (mkSceneObjectsIteratorData gs next (scene_collection_iter d)) (valid iter))
  | [] =>
      let sci := BKE_scene_collections_iterator_next (scene_collection_iter d) in
      match objects_next_collection (S (tot (data sci))) h gs (link_next_ d) sci with
      | None => None
      | Some (Some ob, d') => Some (mkIterator (Some ob) d' (valid iter))
      | Some (None, d') => Some (mkIterator (current iter) d' false)
      end
  end.

Definition BKE_scene_objects_iterator_begin (fuel : nat) (scene : ptr)
    : M (BLI_Iterator SceneObjectsIteratorData) :=
  do sci <- BKE_scene_collections_iterator_begin fuel (ID_SCE scene);
  do sc <- lift (current sci);
  do c <- load sc;
  let iter := mkIterator (head (objects c)) (mkSceneObjectsIteratorData ∅ [] sci) true in
  match current iter with
  | None => do h <- gets colls; lift (BKE_scene_objects_iterator_next h iter)
  | Some _ => ret iter
  end.

(** What a [FOREACH_SCENE_OBJECT] loop sees, in order; [n] bounds the
    number of rounds. *)
Fixpoint scene_objects_yield (n : nat) (h : gmap nat SceneCollection)
    (iter : BLI_Iterator SceneObjectsIteratorData) : option (list (option ptr)) :=
  if valid iter then
    match n with
    | 0 => None
    | S n =>
        match BKE_scene_objects_iterator_next h iter with
        | None => None
        | Some iter' => (λ l, current iter :: l) <$> scene_objects_yield n h iter'
        end
    end
  else Some [].

Definition scene_objects (fuel n : nat) (scene : ptr) : M (list (option ptr)) :=
  do iter <- BKE_scene_objects_iterator_begin fuel scene;
  do h <- gets colls;
  lift (scene_objects_yield n h iter).

(* ===================================================================== *)
(** ** Object membership *)
(* ===================================================================== *)

Definition collection_object_add (id : ID) (sc ob : ptr) : M unit :=
  store sc (λ c, set_objects (BLI_addtail (objects c) ob) c) ;;
  match id with
  | ID_SCE _ => id_us_plus ob
  | ID_GR _ => ret tt
  | _ => BLI_assert false
  end ;;
  emit (layer_sync_object_link id sc ob).

Definition BKE_collection_object_add (id : ID) (sc ob : ptr) : M bool :=
  do c <- load sc;
  if BLI_findptr (objects c) ob then ret false
  else collection_object_add id sc ob ;; ret true.

Definition BKE_collection_object_remove (id : ID) (sc ob : ptr) (free_us : bool) : M bool :=
  do c <- load sc;
  if negb (BLI_findptr (objects c) ob) then ret false
  else
    store sc (λ c, set_objects (BLI_remlink (objects c) ob) c) ;;
    emit (layer_sync_object_unlink id sc ob) ;;
    (if free_us then BKE_libblock_free_us ob
     else
       match id with
       | ID_SCE _ => id_us_min ob
       | ID_GR _ => ret tt
       | _ => BLI_assert false
       end) ;;
    ret true.

Definition BKE_collection_object_move (scene sc_dst sc_src ob : ptr) : M unit :=
  BKE_collection_object_add (ID_SCE scene) sc_dst ob ;;
  BKE_collection_object_remove (ID_SCE scene) sc_src ob false ;;
  ret tt.

(** Number of links of [sc->objects] whose [data] is [ob]. *)
Definition membership (w : World) (sc ob : ptr) : nat :=
  match colls w !! sc with
  | Some c => length (filter (λ x, x = ob) (objects c))
  | None => 0
  end.

(* ===================================================================== *)
(** ** Names *)
(* ===================================================================== *)

(** Modelled from the spec: BLI_strncpy of BLI_string, a copy into a
    buffer of [maxncpy] bytes, the terminator included. *)
Definition BLI_strncpy (src : string) (maxncpy : nat) : string :=
  substring 0 (maxncpy - 1) src.

(** The loop of [collection_unique_name_check] over one list, given the
    recursive call on the list nested in an element. *)
Fixpoint name_check_list (rec : list ptr → option bool) (h : gmap nat SceneCollection)
    (lookup_sc : ptr) (nm : string) (lb : list ptr) : option bool :=
  match lb with
  | [] => Some false
  | sc :: rest =>
      match h !! sc with
      | None => None
      | Some c =>
          if bool_decide (sc ≠ lookup_sc) && bool_decide (name c = nm) then Some true
          else
            match rec (scene_collections c) with
            | None => None
            | Some true => Some true
            | Some false => name_check_list rec h lookup_sc nm rest
            end
      end
  end.

Fixpoint collection_unique_name_check (fuel : nat) (h : gmap nat SceneCollection)
    (lb : list ptr) (lookup_sc : ptr) (nm : string) : option bool :=
  match fuel with
  | 0 => None
  | S fuel =>
      name_check_list (λ child_lb, collection_unique_name_check fuel h child_lb lookup_sc nm)
        h lookup_sc nm lb
  end.

Section WithExternals.
Context `{Externals}.

(** The [do ... while] of BLI_uniquename_cb: numbered variants of the
    name, until one is free; [n] bounds the number of tries. *)
Fixpoint uniquename_tries (n : nat) (unique_check : string → option bool)
    (nm : string) (number : nat) : option string :=
  match n with
  | 0 => None
  | S n =>
      let tempname := uniquename_numbered nm number in
      match unique_check tempname with
      | None => None
      | Some true => uniquename_tries n unique_check nm (S number)
      | Some false => Some tempname
      end
  end.

(** Modelled from the spec: generate-unique-name(candidate, separator,
    existingNamesPredicate) of BLI_string_utils.  An empty candidate is
    replaced by [defname]; a candidate the predicate does not know is
    kept as it is; otherwise the first free numbered variant is taken. *)
Definition BLI_uniquename_cb (n : nat) (unique_check : string → option bool)
    (defname nm : string) (name_len : nat) : option string :=
  let nm := if decide (nm = EmptyString) then BLI_strncpy defname name_len else nm in
  match unique_check nm with
  | None => None
  | Some false => Some nm
  | Some true =>
      (λ t, BLI_strncpy t name_len) <$> uniquename_tries n unique_check nm 1
  end.

Definition collection_rename (fuel : nat) (id : ID) (sc : ptr) (nm : string) : M unit :=
  do sc_master <- collection_master_from_id id;
  store sc (set_name (BLI_strncpy nm sizeof_name)) ;;
  do c <- load sc;
  do unique <- gets (λ w,
    match colls w !! sc_master with
    | None => None
    | Some m =>
        BLI_uniquename_cb fuel
          (collection_unique_name_check fuel (colls w) (scene_collections m) sc)
          "Collection" (name c) sizeof_name
    end);
  do unique <- lift unique;
  store sc (set_name unique).

Definition BKE_collection_rename (fuel : nat) (scene sc : ptr) (nm : string) : M unit :=
  collection_rename fuel (ID_SCE scene) sc nm.

(* ===================================================================== *)
(** ** Adding and copying collections *)
(* ===================================================================== *)

(** [BKE_collection_add]; the cast [(Scene * )id] of the call to
    [BKE_collection_rename] and the [&scene->id] inside it cancel. *)
Definition BKE_collection_add (fuel : nat) (id : ID) (sc_parent : option ptr)
    (ty : collection_type) (nm : option string) : M ptr :=
  do sc_master <- collection_master_from_id id;
  do sc <- MEM_callocN;
  store sc (set_type ty) ;;
  let nm := default "New Collection"%string nm in
  let sc_parent := default sc_master sc_parent in
  collection_rename fuel id sc nm ;;
  store sc_parent (λ p, set_scene_collections (BLI_addtail (scene_collections p) sc) p) ;;
  emit (layer_sync_new_scene_collection id sc_parent sc) ;;
  ret sc.

(** Modelled from the spec: BLI_duplicatelist of BLI_listbase on a list
    of SceneCollection, a new struct per link with the bytes of the
    original. *)
Fixpoint BLI_duplicatelist (src : list ptr) : M (list ptr) :=
  match src with
  | [] => ret []
  | link :: rest =>
      do dup <- MEM_dupallocN link;
      do rest' <- BLI_duplicatelist rest;
      ret (dup :: rest')
  end.

(** The last loop of [BKE_collection_copy_data], over both lists at once. *)
Fixpoint copy_nested (rec : ptr → ptr → M unit) (nsc_src nsc_dst : list ptr) : M unit :=
  match nsc_src, nsc_dst with
  | s :: srcs, d :: dsts => rec d s ;; copy_nested rec srcs dsts
  | [], _ => ret tt
  | _ :: _, [] => fault
  end.

(** [no_user_refcount] is [(flag & LIB_ID_CREATE_NO_USER_REFCOUNT) != 0]. *)
Fixpoint BKE_collection_copy_data (fuel : nat) (sc_dst sc_src : ptr)
    (no_user_refcount : bool) : M unit :=
  match fuel with
  | 0 => fault
  | S fuel =>
      do src <- load sc_src;
      store sc_dst (set_objects (objects src)) ;;
      (if no_user_refcount then ret tt
       else do dst <- load sc_dst; for_each (objects dst) id_us_plus) ;;
      do src <- load sc_src;
      store sc_dst (set_filter_objects (filter_objects src)) ;;
      (if no_user_refcount then ret tt
       else do dst <- load sc_dst; for_each (filter_objects dst) id_us_plus) ;;
      do src <- load sc_src;
      do dups <- BLI_duplicatelist (scene_collections src);
      store sc_dst (set_scene_collections dups) ;;
      do src <- load sc_src;
      do dst <- load sc_dst;
      copy_nested (λ d s, BKE_collection_copy_data fuel d s no_user_refcount)
        (scene_collections src) (scene_collections dst)
  end.

(* ===================================================================== *)
(** ** Conversion of a collection into a group *)
(* ===================================================================== *)

Definition BKE_collection_group_set (sc : ptr) (g : option ptr) : M unit :=
  do c <- load sc;
  BLI_assert (bool_decide (type c = COLLECTION_TYPE_GROUP)) ;;
  store sc (set_group g).

Fixpoint collection_group_convert_layer_collections (sc : ptr) (lc : LayerCollection)
    : list event :=
  if decide (scene_collection lc = sc) then [layer_collection_convert sc COLLECTION_TYPE_GROUP]
  else flat_map (collection_group_convert_layer_collections sc) (layer_collections lc).

Fixpoint layer_collection_sync (lc_dst lc_src : LayerCollection) : LayerCollection :=
  match lc_dst with
  | mkLayerCollection sc _ _ dst_overrides dst_nested =>
      mkLayerCollection sc (flag lc_src) (flag_evaluated lc_src) dst_overrides
        ((fix nested (ds ss : list LayerCollection) : list LayerCollection :=
            match ds, ss with
            | d :: ds', s :: ss' => layer_collection_sync d s :: nested ds' ss'
            | _, _ => ds
            end) dst_nested (layer_collections lc_src))
  end.

(** Modelled from the spec: BKE_group_add of BKE_group, a new Group
    with its own master SceneCollection and exactly one SceneLayer. *)
Definition BKE_group_add (nm : string) : M ptr :=
  do master <- MEM_callocN;
  store master (set_name "Master Collection") ;;
  λ w, Some (brk w, with_brk (S (brk w))
                      (with_groups (<[brk w := mkGroup nm master (mkSceneLayer [] 0%Z)]> (groups w)) w)).

Definition store_group_layer (g : ptr) (f : list LayerCollection → list LayerCollection) : M unit :=
  do gr <- load_group g;
  modify (λ w, with_groups
    (<[g := mkGroup (gr_name gr) (gr_collection gr)
              (mkSceneLayer (f (sl_layer_collections (scene_layer gr)))
                            (active_collection (scene_layer gr)))]> (groups w)) w).

(** Modelled from the spec: BKE_collection_unlink of BKE_layer, the
    LayerCollection leaves the top-level list of its layer. *)
Definition BKE_collection_unlink (g : ptr) (lc : LayerCollection) : M unit :=
  emit (collection_unlink (scene_collection lc)) ;;
  store_group_layer g (λ lb, removelast lb).

(** [collection_group_cleanup]: unlink the last LayerCollection until
    none is left, then free the items of the master. *)
Fixpoint unlink_last (n : nat) (g : ptr) : M unit :=
  do gr <- load_group g;
  match last (sl_layer_collections (scene_layer gr)), n with
  | None, _ => ret tt
  | Some _, 0 => fault
  | Some lc, S n => BKE_collection_unlink g lc ;; unlink_last n g
  end.

Definition collection_group_cleanup (fuel : nat) (g : ptr) : M unit :=
  do gr <- load_group g;
  unlink_last (length (sl_layer_collections (scene_layer gr))) g ;;
  do gr <- load_group g;
  collection_free fuel (gr_collection gr) false.

(** Modelled from the spec: BKE_collection_link of BKE_layer, a new
    LayerCollection for [sc], with nested ones mirroring its tree, at the
    end of the top-level list of the layer. *)
Fixpoint layer_collection_mirror (fuel : nat) (h : gmap nat SceneCollection) (sc : ptr)
    : option LayerCollection :=
  match fuel with
  | 0 => None
  | S fuel =>
      match h !! sc with
      | None => None
      | Some c =>
          mkLayerCollection sc 0%Z 0%Z [] <$>
            mapM (layer_collection_mirror fuel h) (scene_collections c)
      end
  end.

Definition BKE_collection_link (fuel : nat) (g sc : ptr) : M LayerCollection :=
  do lc <- gets (λ w, layer_collection_mirror fuel (colls w) sc);
  do lc <- lift lc;
  store_group_layer g (λ lb, lb ++ [lc]) ;;
  emit (collection_link sc) ;;
  ret lc.

(** The guard of [BKE_collection_group_create] over the top-level
    LayerCollections of one layer, then over the layers. *)
Fixpoint linked_in_layer (fuel : nat) (h : gmap nat SceneCollection) (sc_src : ptr)
    (lb : list LayerCollection) : option bool :=
  match lb with
  | [] => Some false
  | lc_child :: rest =>
      match is_collection_in_tree fuel h (scene_collection lc_child) sc_src with
      | None => None
      | Some true => Some true
      | Some false => linked_in_layer fuel h sc_src rest
      end
  end.

Fixpoint linked_in_layers (fuel : nat) (h : gmap nat SceneCollection) (sc_src : ptr)
    (sls : list SceneLayer) : option bool :=
  match sls with
  | [] => Some false
  | sl :: rest =>
      match linked_in_layer fuel h sc_src (sl_layer_collections sl) with
      | None => None
      | Some true => Some true
      | Some false => linked_in_layers fuel h sc_src rest
      end
  end.

Definition BKE_collection_group_create (fuel : nat) (scene : ptr) (lc_src : LayerCollection)
    : M (option ptr) :=
  let sc_src := scene_collection lc_src in
  do src <- load sc_src;
  if decide (type src = COLLECTION_TYPE_GROUP) then ret None
  else
    do sc_master <- BKE_collection_master scene;
    if decide (sc_src = sc_master) then ret None
    else
      do s <- load_scene scene;
      do linked <- gets (λ w, linked_in_layers fuel (colls w) sc_src (render_layers s));
      do linked <- lift linked;
      if linked then ret None
      else
        do g <- BKE_group_add (name src);
        collection_group_cleanup fuel g ;;
        do sc_dst <- BKE_collection_add fuel (ID_GR g) None COLLECTION_TYPE_GROUP_INTERNAL
                       (Some (name src));
        BKE_collection_copy_data fuel sc_dst sc_src true ;;
        FOREACH_SCENE_COLLECTION fuel (ID_GR g)
          (λ sc_group, store sc_group (set_type COLLECTION_TYPE_GROUP_INTERNAL)) ;;
        do lc_dst <- BKE_collection_link fuel g sc_dst;
        store_group_layer g (λ lb, removelast lb ++ [layer_collection_sync lc_dst lc_src]) ;;
        for_each (render_layers s) (λ sl,
          for_each (sl_layer_collections sl) (λ lc,
            modify (λ w, with_events
              (events w ++ collection_group_convert_layer_collections sc_src lc) w))) ;;
        store sc_src (set_type COLLECTION_TYPE_GROUP) ;;
        BKE_collection_group_set sc_src (Some g) ;;
        collection_free fuel sc_src true ;;
        ret (Some g).

End WithExternals.

(* ===================================================================== *)
(** ** Trees, as the specification speaks of them *)
(* ===================================================================== *)

(** A collection tree as a mathematical object: a root address and the
    trees nested in it, in order. *)
Inductive tree := Node (sc : ptr) (nested : list tree).

Definition root (t : tree) : ptr := match t with Node sc _ => sc end.
Definition subtrees (t : tree) : list tree := match t with Node _ ts => ts end.

(** Depth-first order, each parent before the trees nested in it. *)
Fixpoint preorder (t : tree) : list ptr :=
  match t with
  | Node sc ts => sc :: flat_map preorder ts
  end.

(** The collections strictly below the root. *)
Definition descendants (t : tree) : list ptr := flat_map preorder (subtrees t).

(** Number of collections of a tree, the root included. *)
Fixpoint tree_size (t : tree) : nat :=
  match t with
  | Node _ ts => S (foldr Nat.add 0 (map tree_size ts))
  end.

Fixpoint height (t : tree) : nat :=
  match t with
  | Node _ ts => S (foldr Nat.max 0 (map height ts))
  end.

(** The store holds the tree [t] at the address of its root: every node
    is allocated, and its [scene_collections] are the roots of the
    trees nested in it. *)
Fixpoint represents (h : gmap nat SceneCollection) (t : tree) : Prop :=
  match t with
  | Node sc ts =>
      (∃ c, h !! sc = Some c ∧ scene_collections c = map root ts) ∧
      (fix all (l : list tree) : Prop :=
         match l with
         | [] => True
         | t' :: l' => represents h t' ∧ all l'
         end) ts
  end.

(** [q] nests [x] directly, somewhere in the tree. *)
Fixpoint is_parent (t : tree) (q x : ptr) : Prop :=
  match t with
  | Node sc ts =>
      (q = sc ∧ x ∈ map root ts) ∨
      (fix any (l : list tree) : Prop :=
         match l with
         | [] => False
         | t' :: l' => is_parent t' q x ∨ any l'
         end) ts
  end.

(** [x] is reached from [p] along one or more [scene_collections] links
    of the store. *)
Inductive reaches (h : gmap nat SceneCollection) : ptr → ptr → Prop :=
  | reaches_child p c x :
      h !! p = Some c → x ∈ scene_collections c → reaches h p x
  | reaches_step p c y x :
      h !! p = Some c → y ∈ scene_collections c → reaches h y x → reaches h p x.

(** Every struct of the store, and every collection one of them nests,
    lies below the next free address. *)
Definition closed (w : World) : Prop :=
  ∀ p c, colls w !! p = Some c → p < brk w ∧ ∀ x, x ∈ scene_collections c → x < brk w.

(** The objects a scene holds, in the order a depth-first walk of its
    collections meets them first. *)
Fixpoint first_occurrences (seen : list ptr) (l : list ptr) : list ptr :=
  match l with
  | [] => []
  | x :: rest =>
      if decide (x ∈ seen) then first_occurrences seen rest
      else x :: first_occurrences (x :: seen) rest
  end.

(* ===================================================================== *)
(** ** States reached by the membership operations *)
(* ===================================================================== *)

(** The state after an object has been linked at the end of [sc]. *)
Definition linked (id : ID) (sc ob : ptr) (c : SceneCollection) (w : World) : World :=
  let w1 := with_colls (<[sc := set_objects (objects c ++ [ob]) c]> (colls w)) w in
  let w2 := match id with
            | ID_SCE _ => with_users (<[ob := (us_of w1 ob + 1)%Z]> (users w1)) w1
            | _ => w1
            end in
  with_events (events w2 ++ [layer_sync_object_link id sc ob]) w2.

(** The state after the first link to [ob] has left [sc], for a scene. *)
Definition unlinked (scene sc ob : ptr) (c : SceneCollection) (w : World) : World :=
  let w1 := with_colls (<[sc := set_objects (BLI_remlink (objects c) ob) c]> (colls w)) w in
  let w2 := with_events (events w1 ++ [layer_sync_object_unlink (ID_SCE scene) sc ob]) w1 in
  with_users (<[ob := (us_of w2 ob - 1)%Z]> (users w2)) w2.

(** [s] is [t] or lies inside one of the trees nested in [t]. *)
Fixpoint subtree (s t : tree) : Prop :=
  s = t ∨
  match t with
  | Node _ ts =>
      (fix any (l : list tree) : Prop :=
         match l with
         | [] => False
         | t' :: l' => subtree s t' ∨ any l'
         end) ts
  end.

(* ===================================================================== *)
(** ** Example scenes *)
(* ===================================================================== *)

(** The name buffer of DNA ([MAX_NAME] bytes) and the [".%03d"] suffix
    of BLI_uniquename_cb. *)
Definition blender_externals : Externals := {|
  sizeof_name := 64;
  uniquename_numbered nm n :=
    (nm +:+ "." +:+ (if decide (n < 10) then "00" else if decide (n < 100) then "0" else "")
        +:+ pretty n)%string
|}.

Definition plain (nm : string) (obs nested : list ptr) : SceneCollection :=
  mkSceneCollection nm COLLECTION_TYPE_NONE obs [] nested None.

(** Scene 0 with master A at 1, which nests B at 2, which nests C at 3. *)
Definition world_abc : World :=
  mkWorld (<[1 := plain "A" [] [2]]> (<[2 := plain "B" [] [3]]> (<[3 := plain "C" [] []]> ∅)))
          (<[0 := mkScene 1 []]> ∅) ∅ ∅ [] 4.

Definition tree_abc : tree := Node 1 [Node 2 [Node 3 []]].

(** Scene 0 whose master, at 1, links the objects 10 and 11 itself and
    nests nothing. *)
Definition world_master_objects : World :=
  mkWorld (<[1 := plain "Master Collection" [10; 11] []]> ∅)
          (<[0 := mkScene 1 []]> ∅) ∅ (<[10 := 1%Z]> (<[11 := 1%Z]> ∅)) [] 2.

(** The same master, nesting a collection at 2 that links object 12. *)
Definition world_master_objects_nested : World :=
  mkWorld (<[1 := plain "Master Collection" [10; 11] [2]]> (<[2 := plain "Collection 1" [12] []]> ∅))
          (<[0 := mkScene 1 []]> ∅) ∅ (<[10 := 1%Z]> (<[11 := 1%Z]> (<[12 := 1%Z]> ∅))) [] 3.

(** Scene 0: the master at 1 nests the collections at 2 and 3; object 10
    is linked in both, object 11 in the second only. *)
Definition world_shared_object : World :=
  mkWorld (<[1 := plain "Master Collection" [] [2; 3]]>
            (<[2 := plain "Collection 1" [10] []]> (<[3 := plain "Collection 2" [10; 11] []]> ∅)))
          (<[0 := mkScene 1 []]> ∅) ∅ (<[10 := 2%Z]> (<[11 := 1%Z]> ∅)) [] 4.

Definition tree_shared_object : tree := Node 1 [Node 2 []; Node 3 []].

(** A name of seventy bytes. *)
Definition long_name : string :=
  "0123456789012345678901234567890123456789012345678901234567890123456789".

(* ===================================================================== *)
(** ** Frames for the conversion into a group *)
(* ===================================================================== *)

(** No struct of [h'] nests anything it did not nest in [h]. *)
Definition shrinks (h h' : gmap nat SceneCollection) : Prop :=
  ∀ p c', h' !! p = Some c' →
          ∃ c, h !! p = Some c ∧ ∀ x, x ∈ scene_collections c' → x ∈ scene_collections c.

(** A collection whose items have been freed. *)
Definition cleared (c : SceneCollection) : SceneCollection :=
  set_scene_collections [] (set_filter_objects [] (set_objects [] c)).

(** What one call of [collection_free] does to the store: it only takes
    away, it leaves alone what the collection does not reach, and it
    clears the collection itself when that does not reach itself. *)
Definition frees (do_id_user : bool) (fuel : nat) : Prop :=
  ∀ sc w u w', collection_free fuel sc do_id_user w = Some (u, w') →
    shrinks (colls w) (colls w') ∧
    (∀ p, p ≠ sc → ¬ reaches (colls w) sc p → colls w' !! p = colls w !! p) ∧
    (¬ reaches (colls w) sc sc →
     ∃ c, colls w !! sc = Some c ∧ colls w' !! sc = Some (cleared c)).

(** The structs below address [n0] are still there and nest what they
    nested. *)
Definition keeps (n0 : nat) (w w' : World) : Prop :=
  ∀ p c, p < n0 → colls w !! p = Some c →
         ∃ c', colls w' !! p = Some c' ∧ scene_collections c' = scene_collections c.

(** The group made at address [S n0], with its master at [n0]. *)
Definition new_group (n0 : nat) (w : World) : Prop :=
  n0 ≤ brk w ∧ ∃ gr, groups w !! S n0 = Some gr ∧ gr_collection gr = n0.

(** A step that only writes at or above [n0], or leaves the nested
    lists alone, and whose result satisfies [Q]. *)
Definition safe (n0 : nat) {A} (m : M A) (Q : A → Prop) : Prop :=
  ∀ w a w', new_group n0 w → m w = Some (a, w') →
            new_group n0 w' ∧ keeps n0 w w' ∧ Q a.

(** The scene A > B > C with one render layer, whose only top-level
    LayerCollection refers to B and nests one that refers to C. *)
Definition layer_collection_b : LayerCollection :=
  mkLayerCollection 2 1%Z 1%Z [] [mkLayerCollection 3 1%Z 1%Z [] []].

Definition world_b_linked : World :=
  mkWorld (colls world_abc) (<[0 := mkScene 1 [mkSceneLayer [layer_collection_b] 0%Z]]> ∅)
          ∅ ∅ [] 4.

(** The same scene with a second top-level LayerCollection, for C. *)
Definition world_c_linked : World :=
  mkWorld (colls world_abc)
          (<[0 := mkScene 1 [mkSceneLayer [layer_collection_b; mkLayerCollection 3 1%Z 1%Z [] []] 0%Z]]> ∅)
          ∅ ∅ [] 4.

Definition tree_bc : tree := Node 2 [Node 3 []].

(* ===================================================================== *)
(** ** The objects of a scene, as the specification speaks of them *)
(* ===================================================================== *)

(** What [sc->objects] links, by address of the collection. *)
Definition objects_of (h : gmap nat SceneCollection) (sc : ptr) : list ptr :=
  match h !! sc with
  | Some c => objects c
  | None => []
  end.

(** [first_occurrences], with the objects already met kept as a set. *)
Fixpoint first_new (gs : gset nat) (l : list ptr) : list ptr :=
  match l with
  | [] => []
  | x :: rest =>
      if decide (x ∈ gs) then first_new gs rest
      else x :: first_new ({[x]} ∪ gs) rest
  end.

(** The collections iterator over the array [arr], standing at index [k]. *)
Definition at_index (id : ID) (arr : list ptr) (k : nat)
    : BLI_Iterator SceneCollectionsIteratorData :=
  mkIterator (arr !! k) (mkSceneCollectionsIteratorData id arr (length arr) k) true.

(** The objects iterator stands inside the collection at index [k] of
    [arr]: the links before [ln] in its list are all met already. *)
Definition inside (h : gmap nat SceneCollection) (id : ID) (arr : list ptr)
    (d : SceneObjectsIteratorData) (k : nat) : Prop :=
  k < length arr ∧
  scene_collection_iter d = at_index id arr k ∧
  ∃ sc pre, arr !! k = Some sc ∧ objects_of h sc = pre ++ link_next_ d ∧
            Forall (λ x, x ∈ visited d) pre.

(** What is still to come from there: the new objects among the links
    left in this collection and in the collections after it. *)
Definition to_come (h : gmap nat SceneCollection) (arr : list ptr)
    (d : SceneObjectsIteratorData) (k : nat) : list ptr :=
  first_new (visited d) (link_next_ d ++ flat_map (objects_of h) (drop (S k) arr)).

(* ===================================================================== *)
(** ** Layer collections, as trees of references *)
(* ===================================================================== *)

(** The SceneCollection each LayerCollection refers to, with the nesting
    of the LayerCollections kept. *)
Fixpoint lc_shape (lc : LayerCollection) : tree :=
  match lc with
  | mkLayerCollection sc _ _ _ nested => Node sc (map lc_shape nested)
  end.


(** The loop of [layer_collection_sync] over both nested lists, by name. *)
Fixpoint sync_nested (ds ss : list LayerCollection) : list LayerCollection :=
  match ds, ss with
  | d :: ds', s :: ss' => layer_collection_sync d s :: sync_nested ds' ss'
  | _, _ => ds
  end.

(* ===================================================================== *)
(** ** Freeing the collections of an owner *)
(* ===================================================================== *)

Definition BKE_collection_master_free (fuel : nat) (scene : ptr) (do_id_user : bool) : M unit :=
  do master <- BKE_collection_master scene;
  collection_free fuel master do_id_user.

Definition BKE_collection_master_group_free (fuel : nat) (g : ptr) : M unit :=
  do master <- BKE_collection_group_master g;
  collection_free fuel master false.

(** The links of a collection that hold a user of an object: those of
    [objects], then those of [filter_objects]. *)
Definition links_of (h : gmap nat SceneCollection) (sc : ptr) : list ptr :=
  match h !! sc with
  | Some c => objects c ++ filter_objects c
  | None => []
  end.

(** How many of the links [l] are to [ob]. *)
Definition count_links (ob : ptr) (l : list ptr) : Z :=
  Z.of_nat (length (filter (λ x, x = ob) l)).

(** Scenes, groups, the log of collaborator calls and the allocator are
    as they were. *)
Definition same_rest (w w' : World) : Prop :=
  scenes w' = scenes w ∧ groups w' = groups w ∧ events w' = events w ∧ brk w' = brk w.

(** The items of the tree [t] have been freed: its root is cleared,
    everything below the root is deallocated, the structs outside the
    tree are untouched, and every object has lost one user per link the
    tree held to it when users are released. *)
Definition freed (t : tree) (do_id_user : bool) (w w' : World) : Prop :=
  colls w' !! root t = cleared <$> colls w !! root t ∧
  (∀ p, p ∈ descendants t → colls w' !! p = None) ∧
  (∀ p, p ∉ preorder t → colls w' !! p = colls w !! p) ∧
  same_rest w w' ∧
  ∀ ob, us_of w' ob
        = (us_of w ob - (if do_id_user
                         then count_links ob (flat_map (links_of (colls w)) (preorder t))
                         else 0))%Z.

(** The state after [sc_gone] has left the list of [q], whose struct was [cq]. *)
Definition unnested (q sc_gone : ptr) (cq : SceneCollection) (w : World) : World :=
  with_colls (<[q := set_scene_collections (BLI_remlink (scene_collections cq) sc_gone) cq]>
                (colls w)) w.

(** A world with a group at 7 whose master, at 5, nests the collection
    at 6, which links object 10. *)
Definition world_group : World :=
  mkWorld (<[5 := plain "Master Collection" [] [6]]> (<[6 := plain "Collection" [10] []]> ∅))
          ∅ (<[7 := mkGroup "Group" 5 (mkSceneLayer [] 0%Z)]> ∅) (<[10 := 1%Z]> ∅) [] 8.

Definition tree_group : tree := Node 5 [Node 6 []].

(* ===================================================================== *)
(** ** Names in use *)
(* ===================================================================== *)

(** The collection at [x] is not the one being renamed and is named [nm]. *)
Definition holds_name (h : gmap nat SceneCollection) (lookup_sc : ptr) (nm : string)
    (x : ptr) : Prop :=
  x ≠ lookup_sc ∧ name <$> h !! x = Some nm.

#[global] Instance holds_name_dec h lookup_sc nm x : Decision (holds_name h lookup_sc nm x).
Proof. unfold holds_name. apply _. Defined.

(** Some collection below the root of [t], other than [lookup_sc], is
    named [nm]. *)
Definition name_in_use (h : gmap nat SceneCollection) (t : tree) (lookup_sc : ptr)
    (nm : string) : Prop :=
  Exists (holds_name h lookup_sc nm) (descendants t).

#[global] Instance name_in_use_dec h t lookup_sc nm : Decision (name_in_use h t lookup_sc nm).
Proof. unfold name_in_use. apply _. Defined.

(* ===================================================================== *)
(** ** Removing an object from every collection of an owner *)
(* ===================================================================== *)

Section RigidBody.

(** Modelled from the spec: remove-object(scene, object) of the
    rigid-body simulation, an external collaborator called before an
    object is removed from a scene; what it does lies outside this
    file, so it is a parameter here. *)
Variable BKE_scene_remove_rigidbody_object : ptr → ptr → M unit.

(** The [FOREACH_SCENE_COLLECTION] loop of
    [BKE_collections_object_remove], with the local [removed] threaded
    through the rounds; [n] bounds their number. *)
Fixpoint collections_object_remove_rounds (n : nat)
    (iter : BLI_Iterator SceneCollectionsIteratorData) (id : ID) (ob : ptr) (free_us : bool)
    (removed : bool) : M bool :=
  if valid iter then
    match n with
    | 0 => fault
    | S n =>
        do sc <- lift (current iter);
        do r <- BKE_collection_object_remove id sc ob free_us;
        collections_object_remove_rounds n (BKE_scene_collections_iterator_next iter)
          id ob free_us (removed || r)
    end
  else ret removed.

Definition BKE_collections_object_remove (fuel : nat) (id : ID) (ob : ptr) (free_us : bool)
    : M bool :=
  match id with
  | ID_SCE scene => BKE_scene_remove_rigidbody_object scene ob
  | ID_GR _ => ret tt
  | _ => BLI_assert false
  end ;;
  do iter <- BKE_scene_collections_iterator_begin fuel id;
  collections_object_remove_rounds (tot (data iter)) iter id ob free_us false.

End RigidBody.

(** One removal per collection of a list, in order, with [removed]
    threaded as in the loop. *)
Fixpoint object_remove_each (id : ID) (ob : ptr) (free_us : bool) (l : list ptr)
    (removed : bool) : M bool :=
  match l with
  | [] => ret removed
  | sc :: rest =>
      do r <- BKE_collection_object_remove id sc ob free_us;
      object_remove_each id ob free_us rest (removed || r)
  end.

(** A rigid-body collaborator that has nothing to detach. *)
Definition no_rigidbody (scene ob : ptr) : M unit := ret tt.

(* ===================================================================== *)
(** ** A copied tree of collections *)
(* ===================================================================== *)

(** No struct lies at or above the next address the allocator hands out. *)
Definition fresh (w : World) : Prop := ∀ p, brk w ≤ p → colls w !! p = None.

(** The struct at [d] is the struct at [s] but for what it nests. *)
Definition twin (h : gmap nat SceneCollection) (d s : ptr) : Prop :=
  ∃ cd cs, h !! d = Some cd ∧ h !! s = Some cs ∧
           cd = set_scene_collections (scene_collections cd) cs.

(** [tD] copies [tS] below the root: the nesting is the same, and every
    collection below the root of [tD] is a twin of the collection at
    the same place of [tS]. *)
Fixpoint copy_of (h : gmap nat SceneCollection) (tD tS : tree) : Prop :=
  match tD, tS with
  | Node _ ds, Node _ ss =>
      (fix all (ds ss : list tree) : Prop :=
         match ds, ss with
         | [], [] => True
         | d :: ds', s :: ss' => twin h (root d) (root s) ∧ copy_of h d s ∧ all ds' ss'
         | _, _ => False
         end) ds ss
  end.

(** What [BKE_collection_copy_data] leaves behind when it has copied
    the tree [tS], whose root struct is [cs], into the struct [cd] at
    the root of [tD]: the destination keeps its name, type and group
    and has the objects and filter objects of the source; below it
    hangs a copy of what the source nests, made of newly allocated
    structs, none of them twice; the structs that were there, the
    source tree among them, are as they were; and every object has
    gained one user per link of the source tree, unless user counting
    is off. *)
Definition copied (tD tS : tree) (no_user_refcount : bool) (cd cs : SceneCollection)
    (w w' : World) : Prop :=
  colls w' !! root tD
  = Some (set_scene_collections (map root (subtrees tD))
            (set_filter_objects (filter_objects cs) (set_objects (objects cs) cd))) ∧
  represents (colls w') tD ∧
  copy_of (colls w') tD tS ∧
  NoDup (descendants tD) ∧
  (∀ p, p ∈ descendants tD → brk w ≤ p < brk w') ∧
  (∀ p, p < brk w → p ≠ root tD → colls w' !! p = colls w !! p) ∧
  fresh w' ∧
  brk w ≤ brk w' ∧
  (scenes w' = scenes w ∧ groups w' = groups w ∧ events w' = events w) ∧
  ∀ ob, us_of w' ob
        = (us_of w ob + (if no_user_refcount then 0
                         else count_links ob (flat_map (links_of (colls w)) (preorder tS))))%Z.

(* ===================================================================== *)
(** ** A tree after a collection has moved *)
(* ===================================================================== *)

(** The tree [t] without the subtrees headed by [x]. *)
Fixpoint prune (x : ptr) (t : tree) : tree :=
  match t with
  | Node r ts =>
      Node r ((fix go (l : list tree) : list tree :=
                 match l with
                 | [] => []
                 | t' :: l' => if decide (root t' = x) then go l' else prune x t' :: go l'
                 end) ts)
  end.

(** The tree [t] with [ins] applied to the trees nested in [q]. *)
Fixpoint graft (q : ptr) (ins : list tree → list tree) (t : tree) : tree :=
  match t with
  | Node r ts =>
      let ts' := (fix go (l : list tree) : list tree :=
                    match l with
                    | [] => []
                    | t' :: l' => graft q ins t' :: go l'
                    end) ts in
      Node r (if decide (r = q) then ins ts' else ts')
  end.

(** [tS] put just before, or just after, the tree headed by [dst]. *)
Fixpoint tree_insert_before (dst : ptr) (tS : tree) (l : list tree) : list tree :=
  match l with
  | [] => []
  | x :: rest =>
      if decide (root x = dst) then tS :: x :: rest
      else x :: tree_insert_before dst tS rest
  end.
Fixpoint tree_insert_after (dst : ptr) (tS : tree) (l : list tree) : list tree :=
  match l with
  | [] => []
  | x :: rest =>
      if decide (root x = dst) then x :: tS :: rest
      else x :: tree_insert_after dst tS rest
  end.

(** The tree of the scene after the subtree [tS] has moved into [dst],
    above [dst] or below [dst], where [Q] nests [dst]. *)
Definition moved_into (dst : ptr) (tS t : tree) : tree :=
  graft dst (λ l, l ++ [tS]) (prune (root tS) t).
Definition moved_above (Q dst : ptr) (tS t : tree) : tree :=
  graft Q (tree_insert_before dst tS) (prune (root tS) t).
Definition moved_below (Q dst : ptr) (tS t : tree) : tree :=
  graft Q (tree_insert_after dst tS) (prune (root tS) t).

(** The tree [t] with the new collection [b], which nests nothing, put
    last under [parent]. *)
Definition added (parent b : ptr) (t : tree) : tree :=
  graft parent (λ l, l ++ [Node b []]) t.

(* ===================================================================== *)
(** * Properties *)
(* ===================================================================== *)

(** ** The monad on a known state *)

Lemma bind_some {A B} (m : M A) (k : A → M B) w a w' :
  m w = Some (a, w') → bind m k w = k a w'.
Proof. intros E. unfold bind. by rewrite E. Qed.

Lemma bind_inv {A B} (m : M A) (k : A → M B) w r :
  bind m k w = Some r → ∃ a w', m w = Some (a, w') ∧ k a w' = Some r.
Proof.
  unfold bind. destruct (m w) as [[a w']|] eqn:E; [|done].
  intros Hk. by exists a, w'.
Qed.

Lemma load_some w sc c : colls w !! sc = Some c → load sc w = Some (c, w).
Proof. intros E. unfold load. by rewrite E. Qed.

Lemma load_inv w sc c w' : load sc w = Some (c, w') → colls w !! sc = Some c ∧ w' = w.
Proof.
  unfold load. destruct (colls w !! sc) eqn:E; simpl; [|done].
  intros [= <- <-]. done.
Qed.

Lemma store_some w sc f c :
  colls w !! sc = Some c → store sc f w = Some (tt, with_colls (<[sc := f c]> (colls w)) w).
Proof. intros E. unfold store. by rewrite E. Qed.

Lemma store_inv w sc f u w' :
  store sc f w = Some (u, w') →
  ∃ c, colls w !! sc = Some c ∧ w' = with_colls (<[sc := f c]> (colls w)) w.
Proof.
  unfold store. destruct (colls w !! sc) as [c|] eqn:E; simpl; [|done].
  intros [= <- <-]. by exists c.
Qed.

Lemma load_scene_some w scene s : scenes w !! scene = Some s → load_scene scene w = Some (s, w).
Proof. intros E. unfold load_scene. by rewrite E. Qed.

Lemma master_some w scene s :
  scenes w !! scene = Some s → BKE_collection_master scene w = Some (collection s, w).
Proof. intros E. unfold BKE_collection_master. by rewrite (bind_some _ _ _ _ _ (load_scene_some _ _ _ E)). Qed.

(** ** The master collection *)

Section Master.
Context `{Externals}.
Variables (fuel : nat) (scene : ptr) (w : World) (s : Scene).
Hypothesis Hscene : scenes w !! scene = Some s.

Lemma remove_master : BKE_collection_remove fuel scene (collection s) w = Some (false, w).
Proof.
  unfold BKE_collection_remove. rewrite (bind_some _ _ _ _ _ (master_some _ _ _ Hscene)).
  by rewrite decide_True.
Qed.

Lemma move_above_master sc_dst sc_src :
  sc_dst = collection s ∨ sc_src = collection s →
  BKE_collection_move_above fuel scene sc_dst sc_src w = Some (false, w).
Proof.
  intros Hm. unfold BKE_collection_move_above.
  rewrite (bind_some _ _ _ _ _ (master_some _ _ _ Hscene)).
  rewrite bool_decide_eq_true_2; [done|]. destruct Hm as [->| ->]; auto.
Qed.

Lemma move_below_master sc_dst sc_src :
  sc_dst = collection s ∨ sc_src = collection s →
  BKE_collection_move_below fuel scene sc_dst sc_src w = Some (false, w).
Proof.
  intros Hm. unfold BKE_collection_move_below.
  rewrite (bind_some _ _ _ _ _ (master_some _ _ _ Hscene)).
  rewrite bool_decide_eq_true_2; [done|]. destruct Hm as [->| ->]; auto.
Qed.

Lemma move_into_master sc_dst :
  BKE_collection_move_into fuel scene sc_dst (collection s) w = Some (false, w).
Proof.
  unfold BKE_collection_move_into. rewrite (bind_some _ _ _ _ _ (master_some _ _ _ Hscene)).
  by rewrite decide_True.
Qed.

Lemma group_create_master lc_src c :
  scene_collection lc_src = collection s →
  colls w !! collection s = Some c →
  BKE_collection_group_create fuel scene lc_src w = Some (None, w).
Proof.
  intros Hlc Hc. unfold BKE_collection_group_create. rewrite Hlc.
  rewrite (bind_some _ _ _ _ _ (load_some _ _ _ Hc)).
  destruct (decide (type c = COLLECTION_TYPE_GROUP)); [done|].
  rewrite (bind_some _ _ _ _ _ (master_some _ _ _ Hscene)).
  by rewrite decide_True.
Qed.

End Master.

(** ** Object membership *)

Lemma filter_eq_nil (ob : ptr) (l : list ptr) :
  ob ∉ l → filter (λ x, x = ob) l = [].
Proof.
  induction l as [|x l IH]; [done|].
  intros Hn. rewrite not_elem_of_cons in Hn. destruct Hn as [Hx Hl].
  rewrite filter_cons_False by congruence. auto.
Qed.

Lemma filter_eq_remlink (ob : ptr) (l : list ptr) :
  ob ∈ l →
  S (length (filter (λ x, x = ob) (BLI_remlink l ob))) = length (filter (λ x, x = ob) l).
Proof.
  induction l as [|x l IH]; [by intros ?%elem_of_nil|].
  intros Hin. simpl. destruct (decide (x = ob)) as [->|Hne].
  - by rewrite filter_cons_True.
  - rewrite !filter_cons_False by done. apply IH.
    apply elem_of_cons in Hin as [?|?]; [congruence|done].
Qed.

Lemma filter_eq_not_elem (ob : ptr) (l : list ptr) :
  length (filter (λ x, x = ob) l) = 0 → ob ∉ l.
Proof.
  induction l as [|x l IH]; [intros _; apply not_elem_of_nil|].
  destruct (decide (x = ob)) as [->|Hne].
  - by rewrite filter_cons_True.
  - rewrite filter_cons_False by done. intros Hl. apply not_elem_of_cons. auto.
Qed.

Lemma object_add_member id sc ob w c :
  colls w !! sc = Some c → ob ∈ objects c →
  BKE_collection_object_add id sc ob w = Some (false, w).
Proof.
  intros Hc Hin. unfold BKE_collection_object_add.
  rewrite (bind_some _ _ _ _ _ (load_some _ _ _ Hc)).
  unfold BLI_findptr. by rewrite bool_decide_eq_true_2.
Qed.

Lemma object_add_fresh id sc ob w c :
  colls w !! sc = Some c → ob ∉ objects c → (∀ o, id ≠ ID_OB o) →
  BKE_collection_object_add id sc ob w = Some (true, linked id sc ob c w).
Proof.
  intros Hc Hin Hid. unfold BKE_collection_object_add.
  rewrite (bind_some _ _ _ _ _ (load_some _ _ _ Hc)).
  unfold BLI_findptr. rewrite bool_decide_eq_false_2 by done.
  unfold collection_object_add, bind. rewrite (store_some _ _ _ _ Hc).
  destruct id as [sce|g|o]; [done|done|]. by destruct (Hid o).
Qed.

Lemma object_remove_member scene sc ob w c :
  colls w !! sc = Some c → ob ∈ objects c →
  BKE_collection_object_remove (ID_SCE scene) sc ob false w = Some (true, unlinked scene sc ob c w).
Proof.
  intros Hc Hin. unfold BKE_collection_object_remove.
  rewrite (bind_some _ _ _ _ _ (load_some _ _ _ Hc)).
  unfold BLI_findptr. rewrite bool_decide_eq_true_2 by done. simpl.
  unfold bind. by rewrite (store_some _ _ _ _ Hc).
Qed.

(** C8.  Removing an object from a collection it is not a direct member
    of returns false and leaves the whole state as it was: no list, no
    reference count and no layer notification changes. *)
Theorem object_remove_non_member (id : ID) (sc ob : ptr) (free_us : bool)
    (w : World) (c : SceneCollection) :
  colls w !! sc = Some c →
  ob ∉ objects c →
  BKE_collection_object_remove id sc ob free_us w = Some (false, w).
Proof.
  intros Hc Hin. unfold BKE_collection_object_remove.
  rewrite (bind_some _ _ _ _ _ (load_some _ _ _ Hc)).
  unfold BLI_findptr. by rewrite bool_decide_eq_false_2.
Qed.

(** C7, as the code has it.  For a scene or a group as owner and an
    object linked at most once in the collection, adding the object is
    idempotent: the first call goes through, a second call with the
    same collection and object returns false and changes nothing (no
    reference count, no layer notification), and the object is then
    linked exactly once. *)
Theorem object_add_idempotent (id : ID) (sc ob : ptr) (w : World) (c : SceneCollection) :
  colls w !! sc = Some c →
  (∀ o, id ≠ ID_OB o) →
  membership w sc ob ≤ 1 →
  ∃ r w1,
    BKE_collection_object_add id sc ob w = Some (r, w1) ∧
    BKE_collection_object_add id sc ob w1 = Some (false, w1) ∧
    membership w1 sc ob = 1.
Proof.
  intros Hc Hid Hm. unfold membership in Hm. rewrite Hc in Hm.
  destruct (decide (ob ∈ objects c)) as [Hin|Hn].
  - exists false, w. rewrite (object_add_member _ _ _ _ _ Hc Hin).
    split_and!; [done..|]. unfold membership. rewrite Hc.
    apply filter_eq_remlink in Hin. lia.
  - exists true, (linked id sc ob c w). rewrite (object_add_fresh _ _ _ _ _ Hc Hn Hid).
    assert (Hl : colls (linked id sc ob c w) !! sc = Some (set_objects (objects c ++ [ob]) c)).
    { unfold linked. destruct id; simpl; apply lookup_insert_eq. }
    split_and!; [done| |].
    + apply (object_add_member _ _ _ _ _ Hl). simpl. set_solver.
    + unfold membership. rewrite Hl. simpl.
      rewrite filter_app, (filter_eq_nil _ _ Hn), filter_cons_True by done. done.
Qed.

(** C6, as the code has it.  When [sc_dst] and [sc_src] differ, the
    object is not yet a direct member of [sc_dst] and is linked once in
    [sc_src], a move leaves it a direct member of [sc_dst] and of
    [sc_src] no more, with its user count as before: one increment for
    the link, one decrement for the unlink, made in this order. *)
Theorem object_move_fresh (scene sc_dst sc_src ob : ptr) (w : World) :
  sc_dst ≠ sc_src →
  is_Some (colls w !! sc_dst) →
  membership w sc_dst ob = 0 →
  membership w sc_src ob = 1 →
  ∃ w',
    BKE_collection_object_move scene sc_dst sc_src ob w = Some (tt, w') ∧
    membership w' sc_dst ob = 1 ∧
    membership w' sc_src ob = 0 ∧
    us_of w' ob = us_of w ob ∧
    events w' = events w ++ [layer_sync_object_link (ID_SCE scene) sc_dst ob;
                             layer_sync_object_unlink (ID_SCE scene) sc_src ob].
Proof.
  intros Hne [cd Hd] Hmd Hms. unfold membership in Hmd, Hms. rewrite Hd in Hmd.
  destruct (colls w !! sc_src) as [cs|] eqn:Hs; [|done].
  apply filter_eq_not_elem in Hmd.
  assert (Hin : ob ∈ objects cs).
  { destruct (decide (ob ∈ objects cs)) as [|Hn]; [done|].
    rewrite (filter_eq_nil _ _ Hn) in Hms. done. }
  set (w1 := linked (ID_SCE scene) sc_dst ob cd w).
  assert (Hs1 : colls w1 !! sc_src = Some cs).
  { unfold w1, linked. simpl. by rewrite lookup_insert_ne. }
  exists (unlinked scene sc_src ob cs w1).
  unfold BKE_collection_object_move.
  rewrite (bind_some _ _ _ _ _ (object_add_fresh (ID_SCE scene) _ _ _ _ Hd Hmd ltac:(done))).
  fold w1. rewrite (bind_some _ _ _ _ _ (object_remove_member _ _ _ _ _ Hs1 Hin)).
  split_and!; [done| | | |].
  - unfold membership, unlinked, w1, linked. simpl.
    rewrite lookup_insert_ne, lookup_insert_eq by done. simpl.
    rewrite filter_app, (filter_eq_nil _ _ Hmd), filter_cons_True by done. done.
  - unfold membership, unlinked. simpl. rewrite lookup_insert_eq. simpl.
    pose proof (filter_eq_remlink _ _ Hin). lia.
  - unfold us_of, unlinked, w1, linked. simpl. rewrite lookup_insert_eq. simpl.
    unfold us_of. simpl. rewrite lookup_insert_eq. simpl. lia.
  - unfold unlinked, w1, linked. simpl. by rewrite <- app_assoc.
Qed.

(** ** Trees held by the store *)

Lemma tree_ind_all (P : tree → Prop) :
  (∀ sc ts, Forall P ts → P (Node sc ts)) → ∀ t, P t.
Proof.
  intros Hnode. fix IH 1. intros [sc ts]. apply Hnode.
  induction ts as [|t ts IHts]; constructor; [apply IH | apply IHts].
Qed.

Lemma represents_node h sc ts :
  represents h (Node sc ts) ↔
  (∃ c, h !! sc = Some c ∧ scene_collections c = map root ts) ∧ Forall (represents h) ts.
Proof.
  simpl. apply and_iff_compat_l.
  induction ts as [|t ts IH]; [by split; [constructor|]|].
  rewrite Forall_cons, IH. done.
Qed.

Lemma is_parent_node sc ts q x :
  is_parent (Node sc ts) q x ↔
  (q = sc ∧ x ∈ map root ts) ∨ Exists (λ t, is_parent t q x) ts.
Proof.
  simpl. apply or_iff_compat_l.
  induction ts as [|t ts IH]; [by rewrite Exists_nil|].
  rewrite Exists_cons, IH. done.
Qed.

Lemma height_node sc ts n :
  height (Node sc ts) ≤ S n ↔ Forall (λ t, height t ≤ n) ts.
Proof.
  simpl. induction ts as [|t ts IH]; simpl.
  - split; [constructor | lia].
  - rewrite Forall_cons, <- IH. lia.
Qed.

Lemma height_pos t : 0 < height t.
Proof. destruct t; simpl; lia. Qed.

Lemma preorder_root t : preorder t = root t :: descendants t.
Proof. by destruct t. Qed.

Lemma elem_of_flat_map_preorder x ts :
  x ∈ flat_map preorder ts ↔ Exists (λ t, x ∈ preorder t) ts.
Proof.
  induction ts as [|t ts IH]; simpl.
  - rewrite Exists_nil. apply elem_of_nil.
  - rewrite elem_of_app, Exists_cons, IH. done.
Qed.

Lemma root_in_preorder ts : map root ts ⊆ flat_map preorder ts.
Proof.
  induction ts as [|t ts IH]; [done|]. simpl. rewrite (preorder_root t).
  intros y Hy. apply elem_of_cons in Hy as [->|Hy].
  - apply elem_of_app. left. apply elem_of_cons. by left.
  - apply elem_of_app. right. by apply IH.
Qed.

Lemma is_parent_descendant t q x : is_parent t q x → x ∈ descendants t.
Proof.
  revert t. apply (tree_ind_all (λ t, is_parent t q x → x ∈ descendants t)).
  intros sc ts IH. rewrite is_parent_node. unfold descendants. simpl.
  intros [[_ Hx]|Hex]; [by apply root_in_preorder|].
  apply elem_of_flat_map_preorder.
  rewrite Forall_forall in IH. rewrite Exists_exists in *.
  destruct Hex as (t & Ht & Hp). exists t. split; [done|].
  rewrite preorder_root. apply elem_of_cons. right. by apply IH.
Qed.

Lemma is_parent_allocated h t q x :
  represents h t → is_parent t q x → ∃ c, h !! q = Some c ∧ x ∈ scene_collections c.
Proof.
  revert t. apply (tree_ind_all (λ t, represents h t → is_parent t q x → _)).
  intros sc ts IH. rewrite represents_node, is_parent_node.
  intros [(c & Hc & Hch) Hts] [[-> Hx]|Hex].
  - exists c. by rewrite Hch.
  - rewrite Forall_forall in IH, Hts. rewrite Exists_exists in Hex.
    destruct Hex as (t & Ht & Hp). apply (IH t); auto.
Qed.

(** The store matters to [represents] through the nested lists only. *)
Lemma represents_ext h h' t :
  (∀ p, p ∈ preorder t → scene_collections <$> h' !! p = scene_collections <$> h !! p) →
  represents h t → represents h' t.
Proof.
  revert t. apply (tree_ind_all (λ t, (∀ p, p ∈ preorder t → _) → represents h t → represents h' t)).
  intros sc ts IH Hext. rewrite !represents_node. intros [(c & Hc & Hch) Hts]. split.
  - specialize (Hext sc ltac:(simpl; set_solver)). rewrite Hc in Hext.
    destruct (h' !! sc) as [c'|]; [|done]. injection Hext as Hext.
    exists c'. split; [done | congruence].
  - rewrite Forall_forall in *. intros t Ht. apply IH; [done| |by apply Hts].
    intros p Hp. apply Hext. simpl. apply elem_of_cons. right.
    apply elem_of_flat_map_preorder, Exists_exists. exists t. split; [done|done].
Qed.

(** ** The parent search *)

Section ParentSearch.
Variables (h : gmap nat SceneCollection) (x : ptr).

Lemma find_nested_spec (rec : ptr → option (option ptr)) (p : ptr) (ts : list tree) :
  Forall (λ t, ∃ r, rec (root t) = Some r ∧
                    (x ∈ descendants t → is_Some r) ∧
                    (∀ q, r = Some q → is_parent t q x)) ts →
  ∃ r, find_nested rec x p (map root ts) = Some r ∧
       (x ∈ flat_map preorder ts → is_Some r) ∧
       (∀ q, r = Some q → (q = p ∧ x ∈ map root ts) ∨ Exists (λ t, is_parent t q x) ts).
Proof.
  induction ts as [|t ts IH]; intros Hall.
  - exists None. simpl. split_and!; [done| |done]. by intros ?%elem_of_nil.
  - apply Forall_cons in Hall as [(r1 & Hr1 & Hd1 & Hp1) Hall].
    destruct (IH Hall) as (r & Hr & Hd & Hp). simpl.
    destruct (decide (root t = x)) as [Heq|Hne].
    + exists (Some p). split_and!; [done|done|]. intros q [= <-]. left. set_solver.
    + rewrite Hr1. destruct r1 as [q1|].
      * exists (Some q1). split_and!; [done|done|]. intros q [= <-]. right.
        apply Exists_cons. left. by apply Hp1.
      * exists r. split_and!; [done| |].
        -- rewrite elem_of_app, preorder_root, elem_of_cons.
           intros [[?|Hx]|Hx]; [congruence| |by apply Hd].
           by destruct (Hd1 Hx).
        -- intros q Hq. destruct (Hp q Hq) as [[-> Hx]|Hex]; [left; set_solver|].
           right. apply Exists_cons. by right.
Qed.

Lemma find_collection_parent_spec t :
  represents h t → ∀ fuel, height t ≤ fuel →
  ∃ r, find_collection_parent fuel h x (root t) = Some r ∧
       (x ∈ descendants t → is_Some r) ∧
       (∀ q, r = Some q → is_parent t q x).
Proof.
  revert t. apply (tree_ind_all (λ t, represents h t → ∀ fuel, height t ≤ fuel → _)).
  intros sc ts IH. rewrite represents_node. intros [(c & Hc & Hch) Hts] fuel Hfuel.
  destruct fuel as [|fuel]; [simpl in Hfuel; lia|].
  apply height_node in Hfuel. simpl. rewrite Hc, Hch.
  destruct (find_nested_spec (find_collection_parent fuel h x) sc ts) as (r & Hr & Hd & Hp).
  { rewrite Forall_forall in *. intros t Ht. apply IH; auto. }
  exists r. split_and!; [done|done|]. intros q Hq. apply is_parent_node. by apply Hp.
Qed.

End ParentSearch.

Lemma is_collection_in_tree_spec h t x fuel :
  represents h t → height t ≤ fuel →
  is_collection_in_tree fuel h x (root t) = Some (bool_decide (x ∈ descendants t)).
Proof.
  intros Hrep Hfuel. unfold is_collection_in_tree.
  destruct (find_collection_parent_spec h x t Hrep fuel Hfuel) as (r & -> & Hd & Hp).
  simpl. f_equal. destruct r as [q|].
  - rewrite bool_decide_eq_true_2 by done. symmetry. apply bool_decide_eq_true_2.
    by apply (is_parent_descendant _ q), Hp.
  - rewrite bool_decide_eq_false_2 by (by intros []). symmetry. apply bool_decide_eq_false_2.
    intros Hx. by destruct (Hd Hx).
Qed.

(** ** The iterator over scene collections *)

Section Callback.
Context {D : Type}.
Variables (h : gmap nat SceneCollection) (callback : ptr → D → D).

Lemma callback_nested_spec (rec : ptr → D → option D) (ts : list tree) :
  Forall (λ t, ∀ d, rec (root t) d = Some (foldl (λ d sc, callback sc d) d (preorder t))) ts →
  ∀ d, callback_nested rec (map root ts) d
       = Some (foldl (λ d sc, callback sc d) d (flat_map preorder ts)).
Proof.
  induction ts as [|t ts IH]; intros Hall d; [done|].
  apply Forall_cons in Hall as [Ht Hall]. simpl.
  rewrite Ht, foldl_app. by apply IH.
Qed.

Lemma scene_collection_callback_spec t :
  represents h t → ∀ fuel, height t ≤ fuel → ∀ d,
  scene_collection_callback fuel h (root t) callback d
  = Some (foldl (λ d sc, callback sc d) d (preorder t)).
Proof.
  revert t. apply (tree_ind_all (λ t, represents h t → ∀ fuel, height t ≤ fuel → ∀ d, _)).
  intros sc ts IH. rewrite represents_node. intros [(c & Hc & Hch) Hts] fuel Hfuel d.
  destruct fuel as [|fuel]; [simpl in Hfuel; lia|].
  apply height_node in Hfuel. simpl. rewrite Hc, Hch.
  apply callback_nested_spec. rewrite Forall_forall in *. intros t Ht. apply IH; auto.
Qed.

End Callback.

Lemma count_spec (l : list ptr) n :
  foldl (λ d sc, scene_collections_count sc d) n l = n + length l.
Proof.
  revert n. induction l as [|x l IH]; intros n; simpl; [lia|].
  rewrite IH. unfold scene_collections_count. lia.
Qed.

Lemma build_array_spec (l : list ptr) : ∀ (arr : list ptr) i,
  i + length l ≤ length arr →
  foldl (λ d sc, scene_collections_build_array sc d) (arr, i) l
  = (take i arr ++ l ++ drop (i + length l) arr, i + length l).
Proof.
  induction l as [|x l IH]; intros arr i Hlen; simpl.
  - rewrite Nat.add_0_r, take_drop. done.
  - simpl in Hlen. unfold scene_collections_build_array at 2. simpl.
    rewrite IH by (rewrite length_insert; lia). f_equal; [|lia].
    rewrite (take_S_r _ _ x) by (apply list_lookup_insert_eq; lia).
    rewrite take_insert_ge by lia.
    rewrite drop_insert_lt by lia.
    rewrite <- app_assoc. simpl. do 3 f_equal. f_equal. lia.
Qed.

Lemma preorder_length t : length (preorder t) = tree_size t.
Proof.
  revert t. apply (tree_ind_all (λ t, length (preorder t) = tree_size t)).
  intros sc ts IH. simpl. f_equal.
  induction IH as [|t ts Ht _ IHts]; [done|].
  simpl. rewrite length_app. lia.
Qed.

Lemma scene_collections_array_spec h t fuel :
  represents h t → height t ≤ fuel →
  scene_collections_array fuel h (root t) = Some (preorder t, tree_size t).
Proof.
  intros Hrep Hfuel. unfold scene_collections_array.
  rewrite (scene_collection_callback_spec h _ t Hrep fuel Hfuel).
  rewrite count_spec. simpl. rewrite preorder_length.
  destruct (tree_size t) as [|n] eqn:Hn; [destruct t; simpl in Hn; lia|].
  rewrite (scene_collection_callback_spec h _ t Hrep fuel Hfuel).
  pose proof (build_array_spec (preorder t) (replicate (S n) 0) 0) as Hb.
  rewrite length_replicate, preorder_length, Hn in Hb. rewrite Hb by lia.
  simpl. rewrite drop_ge by (rewrite length_replicate; lia).
  by rewrite app_nil_r.
Qed.

Lemma scene_collections_yield_spec id (l : list ptr) : ∀ n k,
  k < length l → length l ≤ k + n →
  scene_collections_yield n
    (mkIterator (l !! k) (mkSceneCollectionsIteratorData id l (length l) k) true)
  = Some (drop k l).
Proof.
  induction n as [|n IH]; intros k Hk Hn; [lia|].
  simpl. destruct (l !! k) as [x|] eqn:Hx; [|apply lookup_ge_None in Hx; lia].
  rewrite (drop_S _ _ _ Hx). unfold BKE_scene_collections_iterator_next. simpl.
  destruct (decide (S k < length l)) as [Hlt|Hge].
  - rewrite IH by lia. done.
  - destruct n; simpl; rewrite drop_ge by lia; done.
Qed.

Lemma parent_before_child t p c :
  is_parent t p c → ∃ l1 l2 l3, preorder t = l1 ++ p :: l2 ++ c :: l3.
Proof.
  revert t. apply (tree_ind_all (λ t, is_parent t p c → _)).
  intros sc ts IH. rewrite is_parent_node. simpl. intros [[-> Hc]|Hex].
  - apply root_in_preorder, list_elem_of_split in Hc as (l2 & l3 & ->).
    by exists [], l2, l3.
  - rewrite Forall_forall in IH. apply Exists_exists in Hex as (t & Ht & Hp).
    destruct (IH t Ht Hp) as (l1 & l2 & l3 & Hpre).
    apply list_elem_of_split in Ht as (ts1 & ts2 & ->).
    rewrite flat_map_app. simpl. rewrite Hpre.
    exists (sc :: flat_map preorder ts1 ++ l1), l2, (l3 ++ flat_map preorder ts2).
    simpl. rewrite <- !app_assoc. simpl. rewrite <- !app_assoc. done.
Qed.

(** C9.  When the store holds the tree [t] at the master collection of
    the owner, the iterator steps through exactly the [tree_size t]
    collections of [t], in depth-first order, and every collection comes
    before each collection it nests. *)
Theorem scene_collections_iterator_depth_first (fuel : nat) (id : ID) (w : World) (t : tree) :
  master_collection_from_id id w = Some (root t, w) →
  represents (colls w) t →
  height t ≤ fuel →
  ∃ iter,
    BKE_scene_collections_iterator_begin fuel id w = Some (iter, w) ∧
    scene_collections_yield (tree_size t) iter = Some (preorder t) ∧
    length (preorder t) = tree_size t ∧
    ∀ p c, is_parent t p c → ∃ l1 l2 l3, preorder t = l1 ++ p :: l2 ++ c :: l3.
Proof.
  intros Hm Hrep Hfuel.
  exists (mkIterator (Some (root t)) (mkSceneCollectionsIteratorData id (preorder t) (tree_size t) 0) true).
  split_and!.
  - unfold BKE_scene_collections_iterator_begin.
    rewrite (bind_some _ _ _ _ _ Hm). unfold bind, gets, lift. simpl.
    rewrite (scene_collections_array_spec _ _ _ Hrep Hfuel). simpl.
    by rewrite (preorder_root t).
  - pose proof (scene_collections_yield_spec id (preorder t) (tree_size t) 0) as Hy.
    rewrite preorder_length in Hy. rewrite (preorder_root t) in Hy at 1. simpl in Hy.
    rewrite Hy; [done| |lia]. destruct t; simpl; lia.
  - apply preorder_length.
  - intros p c. apply parent_before_child.
Qed.

(** ** Names *)

Lemma substring_all (s : string) : ∀ n, String.length s ≤ n → substring 0 n s = s.
Proof.
  induction s as [|a s IH]; intros n Hn; [by destruct n|].
  destruct n as [|n]; simpl in *; [lia|]. rewrite IH; [done | lia].
Qed.

Lemma set_name_id c : set_name (name c) c = c.
Proof. by destruct c. Qed.

Lemma with_colls_id w : with_colls (colls w) w = w.
Proof. by destruct w. Qed.

Section NameCheck.
Variables (h : gmap nat SceneCollection) (lookup_sc : ptr) (nm : string).

Lemma name_check_list_free (rec : list ptr → option bool) (ts : list tree) :
  Forall (represents h) ts →
  Forall (λ t, rec (map root (subtrees t)) = Some false) ts →
  (∀ x cx, x ∈ map root ts → x ≠ lookup_sc → h !! x = Some cx → name cx ≠ nm) →
  name_check_list rec h lookup_sc nm (map root ts) = Some false.
Proof.
  induction ts as [|t ts IH]; intros Hrep Hrec Hfree; [done|].
  apply Forall_cons in Hrep as [Ht Hrep]. apply Forall_cons in Hrec as [Hr Hrec].
  destruct t as [p ts']. apply represents_node in Ht as [(c & Hc & Hch) _].
  simpl in *. rewrite Hc, Hch, Hr.
  assert (bool_decide (p ≠ lookup_sc) && bool_decide (name c = nm) = false) as ->.
  { apply andb_false_iff. destruct (decide (p = lookup_sc)) as [->|Hne].
    - left. apply bool_decide_eq_false_2. auto.
    - right. apply bool_decide_eq_false_2. apply (Hfree p); [|done..].
      apply elem_of_cons. by left. }
  apply IH; [done..|]. intros x cx Hx. apply Hfree. apply elem_of_cons. by right.
Qed.

Lemma collection_unique_name_check_free t :
  represents h t → ∀ fuel, height t ≤ fuel →
  (∀ x cx, x ∈ descendants t → x ≠ lookup_sc → h !! x = Some cx → name cx ≠ nm) →
  collection_unique_name_check fuel h (map root (subtrees t)) lookup_sc nm = Some false.
Proof.
  revert t. apply (tree_ind_all (λ t, represents h t → ∀ fuel, height t ≤ fuel → _ → _)).
  intros sc ts IH Hrep fuel Hfuel Hfree.
  apply represents_node in Hrep as [_ Hts].
  destruct fuel as [|fuel]; [simpl in Hfuel; lia|].
  apply height_node in Hfuel. simpl.
  apply name_check_list_free; [done| |].
  - rewrite Forall_forall in *. intros t Ht. apply IH; auto.
    intros x cx Hx. apply Hfree. unfold descendants. simpl.
    apply elem_of_flat_map_preorder, Exists_exists. exists t. split; [done|].
    rewrite preorder_root. apply elem_of_cons. by right.
  - intros x cx Hx. apply Hfree. by apply root_in_preorder.
Qed.

End NameCheck.

(** C10, as the code has it.  Renaming a collection to a non-empty name
    that fits the name buffer and that no other collection below the
    master of the owner holds stores that name as it is, with no
    numbered suffix; the collection being renamed is left out of the
    scan, so renaming it to the name it has changes nothing. *)
Theorem rename_to_free_name `{Externals} (fuel : nat) (id : ID) (sc : ptr) (nm : string)
    (w : World) (tm : tree) (c : SceneCollection) :
  collection_master_from_id id w = Some (root tm, w) →
  represents (colls w) tm →
  height tm ≤ fuel →
  colls w !! sc = Some c →
  nm ≠ EmptyString →
  String.length nm < sizeof_name →
  (∀ x cx, x ∈ descendants tm → x ≠ sc → colls w !! x = Some cx → name cx ≠ nm) →
  collection_rename fuel id sc nm w
    = Some (tt, with_colls (<[sc := set_name nm c]> (colls w)) w) ∧
  (name c = nm → collection_rename fuel id sc nm w = Some (tt, w)).
Proof.
  intros Hm Hrep Hfuel Hc Hne Hlen Hfree.
  assert (Hgo : collection_rename fuel id sc nm w
                = Some (tt, with_colls (<[sc := set_name nm c]> (colls w)) w)).
  { unfold collection_rename. rewrite (bind_some _ _ _ _ _ Hm).
    unfold BLI_strncpy. rewrite substring_all by lia.
    rewrite (bind_some _ _ _ _ _ (store_some _ _ _ _ Hc)).
    set (w1 := with_colls (<[sc := set_name nm c]> (colls w)) w).
    assert (Hc1 : colls w1 !! sc = Some (set_name nm c)) by apply lookup_insert_eq.
    rewrite (bind_some _ _ _ _ _ (load_some _ _ _ Hc1)).
    assert (Hrep1 : represents (colls w1) tm).
    { apply (represents_ext (colls w)); [|done]. intros p _. simpl.
      destruct (decide (sc = p)) as [<-|Hp].
      - by rewrite lookup_insert_eq, Hc.
      - by rewrite lookup_insert_ne. }
    destruct tm as [m ts]. pose proof Hrep1 as Hrep1'.
    apply represents_node in Hrep1' as [(cm & Hcm & Hch) _].
    simpl root in *. unfold bind, gets, lift. rewrite Hcm, Hch.
    unfold BLI_uniquename_cb. simpl name. rewrite decide_False by done.
    pose proof (collection_unique_name_check_free (colls w1) sc nm (Node m ts) Hrep1 fuel Hfuel)
      as Hfree1. simpl subtrees in Hfree1. rewrite Hfree1.
    - rewrite (store_some _ _ _ _ Hc1). simpl.
      unfold w1. simpl. by rewrite insert_insert_eq.
    - intros x cx Hx Hxsc. simpl. rewrite lookup_insert_ne by done. by apply Hfree. }
  split; [done|]. intros Hsame. rewrite Hgo. subst nm.
  by rewrite set_name_id, insert_id, with_colls_id.
Qed.

(** ** Subtrees, and trees without repeated collections *)

Lemma subtree_node s sc ts :
  subtree s (Node sc ts) ↔ s = Node sc ts ∨ Exists (subtree s) ts.
Proof.
  simpl. apply or_iff_compat_l.
  induction ts as [|t ts IH]; [by rewrite Exists_nil|].
  rewrite Exists_cons, IH. done.
Qed.

Lemma subtree_refl t : subtree t t.
Proof. destruct t. apply subtree_node. by left. Qed.

Lemma elem_of_map_root x ts : x ∈ map root ts ↔ ∃ t, t ∈ ts ∧ root t = x.
Proof.
  induction ts as [|t ts IH]; simpl.
  - split; [by intros ?%elem_of_nil | by intros (? & ?%elem_of_nil & _)].
  - rewrite elem_of_cons, IH. split.
    + intros [->|(t' & Ht' & <-)]; [exists t | exists t']; split; try done.
      * apply elem_of_cons. by left.
      * apply elem_of_cons. by right.
    + intros (t' & [->|Ht']%elem_of_cons & <-); [by left|]. right. by exists t'.
Qed.

Lemma subtree_represents h s t : subtree s t → represents h t → represents h s.
Proof.
  revert t. apply (tree_ind_all (λ t, subtree s t → represents h t → represents h s)).
  intros sc ts IH. rewrite subtree_node. intros [->|Hex] Hrep; [done|].
  apply represents_node in Hrep as [_ Hts].
  rewrite Forall_forall in IH, Hts. apply Exists_exists in Hex as (t & Ht & Hs).
  by apply (IH t); auto.
Qed.

Lemma subtree_height s t : subtree s t → height s ≤ height t.
Proof.
  revert t. apply (tree_ind_all (λ t, subtree s t → height s ≤ height t)).
  intros sc ts IH. rewrite subtree_node. intros [->|Hex]; [done|].
  rewrite Forall_forall in IH. apply Exists_exists in Hex as (t & Ht & Hs).
  specialize (IH t Ht Hs).
  assert (Hh : height (Node sc ts) ≤ S (foldr Nat.max 0 (map height ts))) by done.
  apply height_node in Hh. rewrite Forall_forall in Hh. specialize (Hh t Ht).
  simpl. lia.
Qed.

Lemma subtree_preorder s t :
  subtree s t → ∃ l1 l2, preorder t = l1 ++ preorder s ++ l2 ∧ (s ≠ t → l1 ≠ []).
Proof.
  revert t. apply (tree_ind_all (λ t, subtree s t → _)).
  intros sc ts IH. rewrite subtree_node. intros [->|Hex].
  - exists [], []. by rewrite app_nil_r.
  - rewrite Forall_forall in IH. apply Exists_exists in Hex as (t & Ht & Hs).
    destruct (IH t Ht Hs) as (l1 & l2 & Hpre & _).
    apply list_elem_of_split in Ht as (ts1 & ts2 & ->).
    exists (sc :: flat_map preorder ts1 ++ l1), (l2 ++ flat_map preorder ts2).
    split; [|done]. simpl. rewrite flat_map_app. simpl. rewrite Hpre.
    by rewrite <- !app_assoc.
Qed.

Lemma subtree_NoDup s t : subtree s t → NoDup (preorder t) → NoDup (preorder s).
Proof.
  intros (l1 & l2 & -> & _)%subtree_preorder Hnd.
  apply NoDup_app in Hnd as (_ & _ & Hnd). by apply NoDup_app in Hnd as (Hnd & _).
Qed.

Lemma subtree_strict s t : subtree s t → s ≠ t → preorder s ⊆ descendants t.
Proof.
  destruct t as [sc ts]. rewrite subtree_node. intros [->|Hex] Hne; [done|].
  intros x Hx. unfold descendants. simpl.
  apply elem_of_flat_map_preorder, Exists_exists.
  apply Exists_exists in Hex as (t & Ht & Hs). exists t. split; [done|].
  apply subtree_preorder in Hs as (l1 & l2 & -> & _).
  rewrite !elem_of_app. auto.
Qed.

Lemma is_parent_subtree t q x :
  is_parent t q x → ∃ ts tx, subtree (Node q ts) t ∧ tx ∈ ts ∧ root tx = x.
Proof.
  revert t. apply (tree_ind_all (λ t, is_parent t q x → _)).
  intros sc ts IH. rewrite is_parent_node. intros [[-> Hx]|Hex].
  - apply elem_of_map_root in Hx as (tx & Htx & Hr).
    exists ts, tx. split_and!; [apply subtree_refl|done..].
  - rewrite Forall_forall in IH. apply Exists_exists in Hex as (t & Ht & Hp).
    destruct (IH t Ht Hp) as (ts' & tx & Hs & Htx & Hr).
    exists ts', tx. split_and!; [|done..]. apply subtree_node. right.
    apply Exists_exists. by exists t.
Qed.

Lemma subtree_trans s t u : subtree s t → subtree t u → subtree s u.
Proof.
  revert u. apply (tree_ind_all (λ u, subtree s t → subtree t u → subtree s u)).
  intros sc ts IH Hst. rewrite !subtree_node. intros [->|Hex].
  - by apply subtree_node.
  - right. rewrite Forall_forall in IH. rewrite Exists_exists in *.
    destruct Hex as (t' & Ht' & Hs). exists t'. split; [done|]. by apply IH.
Qed.

Lemma flat_map_NoDup_disjoint {A B} (f : A → list B) (l : list A) : ∀ i j a b x,
  NoDup (flat_map f l) → l !! i = Some a → l !! j = Some b → i < j →
  x ∈ f a → x ∈ f b → False.
Proof.
  induction l as [|a0 l IH]; intros i j a b x Hnd Hi Hj Hlt Ha Hb; [done|].
  simpl in Hnd. apply NoDup_app in Hnd as (_ & Hdis & Hnd).
  destruct j as [|j]; [lia|]. simpl in Hj. destruct i as [|i].
  - injection Hi as ->. apply (Hdis x Ha).
    apply list_elem_of_In, in_flat_map. exists b. split; apply list_elem_of_In; [|done].
    apply list_elem_of_lookup. by exists j.
  - simpl in Hi. apply (IH i j a b x); auto with lia.
Qed.

Lemma flat_map_NoDup_elem {A B} (f : A → list B) (l : list A) a :
  NoDup (flat_map f l) → a ∈ l → NoDup (f a).
Proof.
  intros Hnd (l1 & l2 & ->)%list_elem_of_split.
  rewrite flat_map_app in Hnd. simpl in Hnd.
  apply NoDup_app in Hnd as (_ & _ & Hnd). by apply NoDup_app in Hnd as (Hnd & _).
Qed.

Lemma NoDup_map_root ts : NoDup (flat_map preorder ts) → NoDup (map root ts).
Proof.
  induction ts as [|t ts IH]; [constructor|].
  simpl. rewrite preorder_root. intros Hnd.
  apply NoDup_app in Hnd as (_ & Hdis & Hnd).
  apply NoDup_cons. split; [|by apply IH].
  intros Hin. apply (Hdis (root t)); [apply elem_of_cons; by left|].
  by apply root_in_preorder.
Qed.

(** In a tree without repeated collections a collection has one parent. *)
Lemma is_parent_unique t q q' x :
  NoDup (preorder t) → is_parent t q x → is_parent t q' x → q = q'.
Proof.
  revert t. apply (tree_ind_all (λ t, NoDup (preorder t) → is_parent t q x → is_parent t q' x → _)).
  intros sc ts IH Hnd. simpl in Hnd. apply NoDup_cons in Hnd as [Hsc Hnd].
  rewrite Forall_forall in IH.
  assert (Hmixed : ∀ p, x ∈ map root ts → Exists (λ t, is_parent t p x) ts → False).
  { intros p (tj & Htj & Hr)%elem_of_map_root (ti & Hti & Hp)%Exists_exists.
    apply is_parent_descendant in Hp.
    apply list_elem_of_lookup in Htj as [j Hj]. apply list_elem_of_lookup in Hti as [i Hi].
    assert (Hxi : x ∈ preorder ti) by (rewrite preorder_root; apply elem_of_cons; by right).
    assert (Hxj : x ∈ preorder tj) by (rewrite preorder_root, Hr; apply elem_of_cons; by left).
    destruct (Nat.lt_total i j) as [Hlt|[->|Hlt]].
    - apply (flat_map_NoDup_disjoint preorder ts i j ti tj x); auto.
    - rewrite Hi in Hj. injection Hj as <-.
      assert (Hndi : NoDup (preorder ti)).
      { apply (flat_map_NoDup_elem preorder ts); [done|]. apply list_elem_of_lookup. eauto. }
      rewrite preorder_root, Hr in Hndi. apply NoDup_cons in Hndi as [Hn _]. done.
    - apply (flat_map_NoDup_disjoint preorder ts j i tj ti x); auto. }
  rewrite !is_parent_node. intros [[-> Hx]|Hex] [[-> Hx']|Hex']; [done| | |].
  - destruct (Hmixed _ Hx Hex').
  - destruct (Hmixed _ Hx' Hex).
  - apply Exists_exists in Hex as (ti & Hti & Hp).
    apply Exists_exists in Hex' as (tj & Htj & Hp').
    pose proof Hti as Hti'. pose proof Htj as Htj'.
    apply list_elem_of_lookup in Hti' as [i Hi]. apply list_elem_of_lookup in Htj' as [j Hj].
    assert (Hxi : x ∈ preorder ti).
    { rewrite preorder_root. apply elem_of_cons. right. by apply (is_parent_descendant _ q). }
    assert (Hxj : x ∈ preorder tj).
    { rewrite preorder_root. apply elem_of_cons. right. by apply (is_parent_descendant _ q'). }
    destruct (Nat.lt_total i j) as [Hlt|[->|Hlt]].
    + destruct (flat_map_NoDup_disjoint preorder ts i j ti tj x); auto.
    + rewrite Hi in Hj. injection Hj as <-. apply (IH ti); auto.
      by apply (flat_map_NoDup_elem preorder ts).
    + destruct (flat_map_NoDup_disjoint preorder ts j i tj ti x); auto.
Qed.

(** ** Moving a collection *)

Lemma remlink_not_elem (l : list ptr) x : NoDup l → x ∉ BLI_remlink l x.
Proof.
  induction l as [|y l IH]; intros Hnd; [apply not_elem_of_nil|].
  apply NoDup_cons in Hnd as [Hy Hnd]. simpl.
  destruct (decide (y = x)) as [->|Hne]; [done|].
  apply not_elem_of_cons. split; [congruence | by apply IH].
Qed.

Lemma root_not_descendant t : NoDup (preorder t) → root t ∉ descendants t.
Proof. rewrite preorder_root. by intros [? _]%NoDup_cons. Qed.

(** C2.  In a scene whose collections form a tree with master [A], in
    which [A] nests [B] and [B] nests [C], moving [C] into [A] returns
    true; afterwards [C] is the last collection nested in [A], [B] nests
    it no more, no other collection has changed, and the layers are
    resynchronised for [B], then for [A]. *)
Theorem move_into_master_reparents (fuel : nat) (scene : ptr) (w : World) (s : Scene)
    (t : tree) (B C : ptr) :
  scenes w !! scene = Some s →
  root t = collection s →
  represents (colls w) t →
  NoDup (preorder t) →
  height t ≤ fuel →
  is_parent t (root t) B →
  is_parent t B C →
  ∃ w' cA cB,
    BKE_collection_move_into fuel scene (root t) C w = Some (true, w') ∧
    colls w' !! root t = Some cA ∧ last (scene_collections cA) = Some C ∧
    colls w' !! B = Some cB ∧ (C ∉ scene_collections cB) ∧
    (∀ p, p ≠ root t → p ≠ B → colls w' !! p = colls w !! p) ∧
    events w' = events w ++ [layer_collection_resync scene B;
                             layer_collection_resync scene (root t)].
Proof.
  intros Hscene Hroot Hrep Hnd Hfuel HAB HBC.
  pose proof (root_not_descendant t Hnd) as HA.
  assert (HCA : C ≠ root t).
  { intros ->. by apply HA, (is_parent_descendant _ B). }
  assert (HBA : root t ≠ B).
  { intros HB. apply HA. rewrite HB at 1. rewrite HB in HAB.
    by apply (is_parent_descendant _ B). }
  (* the tree of C *)
  destruct (is_parent_subtree _ _ _ HBC) as (tsB & tC & HsB & HtC & HrC).
  assert (HsC : subtree tC t).
  { apply (subtree_trans _ (Node B tsB)); [|done]. apply subtree_node. right.
    apply Exists_exists. exists tC. split; [done | apply subtree_refl]. }
  assert (Hnest : is_collection_in_tree fuel (colls w) (root t) C = Some false).
  { rewrite <- HrC. rewrite (is_collection_in_tree_spec (colls w) tC).
    - f_equal. apply bool_decide_eq_false_2. intros Hin. apply HA.
      apply (subtree_strict tC t); [done|congruence|].
      rewrite preorder_root. apply elem_of_cons. by right.
    - by apply (subtree_represents _ _ t).
    - pose proof (subtree_height _ _ HsC). lia. }
  (* the parent of C *)
  destruct (find_collection_parent_spec (colls w) C t Hrep fuel Hfuel) as (r & Hr & Hd & Hp).
  destruct (Hd (is_parent_descendant _ _ _ HBC)) as [q ->].
  assert (q = B) as -> by (apply (is_parent_unique t q B C); auto).
  (* the structs of A and B *)
  destruct (is_parent_allocated _ _ _ _ Hrep HAB) as (cA & HcA & HBin).
  destruct (is_parent_allocated _ _ _ _ Hrep HBC) as (cB & HcB & HCin).
  assert (Hlast : last (scene_collections cA) ≠ Some C).
  { intros Hl%last_Some_elem_of. apply HBA.
    apply (is_parent_unique t _ _ C); [done| |done].
    destruct t as [a ts]. apply is_parent_node. left. split; [done|].
    apply represents_node in Hrep as [(c' & Hc' & Hch) _]. simpl in HcA. congruence. }
  assert (HndB : NoDup (scene_collections cB)).
  { pose proof (subtree_represents _ _ _ HsB Hrep) as HrepB.
    apply represents_node in HrepB as [(c' & Hc' & Hch) _].
    assert (c' = cB) as -> by congruence. rewrite Hch.
    apply NoDup_map_root. pose proof (subtree_NoDup _ _ HsB Hnd) as HndB.
    simpl in HndB. by apply NoDup_cons in HndB as [_ ?]. }
  set (cB' := set_scene_collections (BLI_remlink (scene_collections cB) C) cB).
  set (cA' := set_scene_collections (BLI_addtail (scene_collections cA) C) cA).
  set (w1 := with_colls (<[B := cB']> (colls w)) w).
  assert (HcA1 : colls w1 !! root t = Some cA) by (simpl; by rewrite lookup_insert_ne).
  exists (with_events (events w ++ [layer_collection_resync scene B;
                                    layer_collection_resync scene (root t)])
            (with_colls (<[root t := cA']> (colls w1)) w1)), cA', cB'.
  split_and!.
  - unfold BKE_collection_move_into.
    rewrite (bind_some _ _ _ _ _ (master_some _ _ _ Hscene)), <- Hroot.
    rewrite decide_False by done.
    unfold bind, gets, lift, assert_ptr, ret. rewrite Hnest, Hr.
    rewrite (load_some _ _ _ HcA). rewrite decide_False by done.
    rewrite (store_some _ _ _ _ HcB). fold cB' w1.
    rewrite (store_some _ _ _ _ HcA1). fold cA'.
    unfold BKE_layer_collection_resync, emit, modify. simpl.
    by rewrite <- app_assoc.
  - simpl. apply lookup_insert_eq.
  - simpl. apply last_snoc.
  - simpl. rewrite lookup_insert_ne by done. apply lookup_insert_eq.
  - simpl. by apply remlink_not_elem.
  - intros p HpA HpB. simpl. by rewrite !lookup_insert_ne.
  - done.
Qed.

(** X1.  The cycle guard: with the collections of the scene forming a
    tree, each of move above, move below and move into turns down a
    destination that lies strictly below the source; it returns false
    and leaves the state as it was. *)
Lemma cycle_guard_descendant (fuel : nat) (scene : ptr) (w : World) (s : Scene)
    (tm tT : tree) (D : ptr) :
  scenes w !! scene = Some s →
  root tm = collection s →
  represents (colls w) tm → height tm ≤ fuel →
  represents (colls w) tT → height tT ≤ fuel →
  D ∈ descendants tT →
  BKE_collection_move_above fuel scene D (root tT) w = Some (false, w) ∧
  BKE_collection_move_below fuel scene D (root tT) w = Some (false, w) ∧
  BKE_collection_move_into fuel scene D (root tT) w = Some (false, w).
Proof.
  intros Hscene Hroot Hrepm Hfm HrepT HfT HD.
  pose proof (is_collection_in_tree_spec (colls w) tT D fuel HrepT HfT) as Hnest.
  rewrite bool_decide_eq_true_2 in Hnest by done.
  destruct (find_collection_parent_spec (colls w) D tm Hrepm fuel Hfm) as (r & Hr & _ & Hp).
  rewrite Hroot in Hr.
  assert (Hlist : ∀ f : list ptr → ptr → option ptr,
    ∃ o, match find_collection_parent fuel (colls w) D (collection s) with
         | None => None
         | Some None => Some None
         | Some (Some p) => (λ c, f (scene_collections c) D) <$> colls w !! p
         end = Some o).
  { intros f. rewrite Hr. destruct r as [p|]; [|by eexists].
    destruct (is_parent_allocated _ _ _ _ Hrepm (Hp p eq_refl)) as (c & -> & _).
    by eexists. }
  split_and!.
  - unfold BKE_collection_move_above.
    rewrite (bind_some _ _ _ _ _ (master_some _ _ _ Hscene)).
    destruct (bool_decide _); [done|].
    unfold bind, gets, lift, ret, sc_prev. destruct (Hlist link_prev) as [o ->].
    destruct (decide (o = Some (root tT))); [done|]. by rewrite Hnest.
  - unfold BKE_collection_move_below.
    rewrite (bind_some _ _ _ _ _ (master_some _ _ _ Hscene)).
    destruct (bool_decide _); [done|].
    unfold bind, gets, lift, ret, sc_next. destruct (Hlist link_next) as [o ->].
    destruct (decide (o = Some (root tT))); [done|]. by rewrite Hnest.
  - unfold BKE_collection_move_into.
    rewrite (bind_some _ _ _ _ _ (master_some _ _ _ Hscene)).
    destruct (decide _); [done|].
    unfold bind, gets, lift, ret. by rewrite Hnest.
Qed.

(** C3, where the code departs from it.  In the scene A > B > C, moving
    B into B itself is not turned down: the call returns true, B leaves
    the list of A and is appended to its own list, so that the
    collections no longer form a tree. *)
Theorem move_into_itself_not_rejected :
  (λ r, (r.1, scene_collections <$> colls r.2 !! 1, scene_collections <$> colls r.2 !! 2))
    <$> BKE_collection_move_into 3 0 2 2 world_abc
  = Some (true, Some [], Some [3; 2]).
Proof. vm_compute. reflexivity. Qed.

(** Moving B above or below itself is not turned down either. *)
Lemma move_beside_itself_not_rejected :
  fst <$> BKE_collection_move_above 3 0 2 2 world_abc = Some true ∧
  fst <$> BKE_collection_move_below 3 0 2 2 world_abc = Some true.
Proof. split; vm_compute; reflexivity. Qed.

(** ** The master collection, all operations together *)

(** C1, as the code has it.  The master collection of a scene cannot be
    removed, cannot be moved above, below or into anything, nothing can
    be moved above or below it, and it cannot be converted into a group:
    each call returns false (no group) and leaves the state as it was.
    Moving another collection into the master is not among these. *)
Theorem master_is_protected `{Externals} (fuel : nat) (scene : ptr) (w : World) (s : Scene)
    (c : SceneCollection) :
  scenes w !! scene = Some s →
  colls w !! collection s = Some c →
  let master := collection s in
  BKE_collection_remove fuel scene master w = Some (false, w) ∧
  (∀ sc, BKE_collection_move_above fuel scene sc master w = Some (false, w) ∧
         BKE_collection_move_above fuel scene master sc w = Some (false, w) ∧
         BKE_collection_move_below fuel scene sc master w = Some (false, w) ∧
         BKE_collection_move_below fuel scene master sc w = Some (false, w) ∧
         BKE_collection_move_into fuel scene sc master w = Some (false, w)) ∧
  (∀ lc_src, scene_collection lc_src = master →
             BKE_collection_group_create fuel scene lc_src w = Some (None, w)).
Proof.
  intros Hscene Hc master. split_and!.
  - by apply remove_master.
  - intros sc. split_and!.
    + apply (move_above_master _ _ _ _ Hscene). by right.
    + apply (move_above_master _ _ _ _ Hscene). by left.
    + apply (move_below_master _ _ _ _ Hscene). by right.
    + apply (move_below_master _ _ _ _ Hscene). by left.
    + by apply move_into_master.
  - intros lc_src Hlc. by apply (group_create_master _ _ _ _ Hscene _ c).
Qed.

Lemma master_is_protected_witness :
  BKE_collection_remove 3 0 1 world_abc = Some (false, world_abc) ∧
  (∀ sc, BKE_collection_move_above 3 0 sc 1 world_abc = Some (false, world_abc) ∧
         BKE_collection_move_above 3 0 1 sc world_abc = Some (false, world_abc) ∧
         BKE_collection_move_below 3 0 sc 1 world_abc = Some (false, world_abc) ∧
         BKE_collection_move_below 3 0 1 sc world_abc = Some (false, world_abc) ∧
         BKE_collection_move_into 3 0 sc 1 world_abc = Some (false, world_abc)) ∧
  (∀ lc_src, scene_collection lc_src = 1 →
             @BKE_collection_group_create blender_externals 3 0 lc_src world_abc
             = Some (None, world_abc)).
Proof.
  apply (@master_is_protected blender_externals 3 0 world_abc (mkScene 1 []) (plain "A" [] [2]));
    reflexivity.
Defined.

(** C1 as stated fails: with the master A as destination, moving C into
    A is carried out and returns true. *)
Lemma move_into_master_destination_accepted :
  collection <$> scenes world_abc !! 0 = Some 1 ∧
  fst <$> BKE_collection_move_into 3 0 1 3 world_abc = Some true.
Proof. split; vm_compute; reflexivity. Qed.

(** ** The statements at concrete scenes *)

Lemma move_into_master_reparents_witness :
  ∃ w' cA cB,
    BKE_collection_move_into 3 0 1 3 world_abc = Some (true, w') ∧
    colls w' !! 1 = Some cA ∧ last (scene_collections cA) = Some 3 ∧
    colls w' !! 2 = Some cB ∧ (3 ∉ scene_collections cB) ∧
    (∀ p, p ≠ 1 → p ≠ 2 → colls w' !! p = colls world_abc !! p) ∧
    events w' = events world_abc ++ [layer_collection_resync 0 2; layer_collection_resync 0 1].
Proof.
  apply (move_into_master_reparents 3 0 world_abc (mkScene 1 []) tree_abc 2 3).
  - reflexivity.
  - reflexivity.
  - simpl. repeat split; eexists; split; reflexivity.
  - simpl. repeat constructor; set_solver.
  - simpl. lia.
  - simpl. left. split; [reflexivity | set_solver].
  - simpl. right. left. left. split; [reflexivity | set_solver].
Defined.

Lemma object_remove_non_member_witness :
  BKE_collection_object_remove (ID_SCE 0) 2 11 false world_shared_object
  = Some (false, world_shared_object).
Proof.
  apply (object_remove_non_member (ID_SCE 0) 2 11 false world_shared_object
           (plain "Collection 1" [10] [])).
  - reflexivity.
  - simpl. set_solver.
Defined.

Lemma object_add_idempotent_witness :
  ∃ r w1,
    BKE_collection_object_add (ID_SCE 0) 2 11 world_shared_object = Some (r, w1) ∧
    BKE_collection_object_add (ID_SCE 0) 2 11 w1 = Some (false, w1) ∧
    membership w1 2 11 = 1.
Proof.
  apply (object_add_idempotent (ID_SCE 0) 2 11 world_shared_object (plain "Collection 1" [10] [])).
  - reflexivity.
  - intros o. discriminate.
  - vm_compute. lia.
Defined.

(** C7 as stated fails: [collection_object_add], which
    BKE_collection_object_add_from calls without looking for a link,
    leaves object 10 linked twice in the collection at 3; adding the
    object then returns false, a second call returns false again, the
    state stays as it was, and the object is linked twice, not once. *)
Lemma object_add_linked_twice_stays_twice :
  membership world_shared_object 3 10 = 1 ∧
  (λ r, membership r.2 3 10)
    <$> collection_object_add (ID_SCE 0) 3 10 world_shared_object = Some 2 ∧
  (λ r, (r.1, membership r.2 3 10))
    <$> (collection_object_add (ID_SCE 0) 3 10 ;;
         BKE_collection_object_add (ID_SCE 0) 3 10 ;;
         BKE_collection_object_add (ID_SCE 0) 3 10) world_shared_object
  = Some (false, 2) ∧
  snd <$> (collection_object_add (ID_SCE 0) 3 10 ;;
           BKE_collection_object_add (ID_SCE 0) 3 10 ;;
           BKE_collection_object_add (ID_SCE 0) 3 10) world_shared_object
  = snd <$> collection_object_add (ID_SCE 0) 3 10 world_shared_object.
Proof. repeat split; vm_compute; reflexivity. Qed.

Lemma object_move_fresh_witness :
  ∃ w',
    BKE_collection_object_move 0 2 3 11 world_shared_object = Some (tt, w') ∧
    membership w' 2 11 = 1 ∧
    membership w' 3 11 = 0 ∧
    us_of w' 11 = us_of world_shared_object 11 ∧
    events w' = events world_shared_object ++
                [layer_sync_object_link (ID_SCE 0) 2 11; layer_sync_object_unlink (ID_SCE 0) 3 11].
Proof.
  apply (object_move_fresh 0 2 3 11 world_shared_object).
  - lia.
  - eexists. reflexivity.
  - reflexivity.
  - reflexivity.
Defined.

(** C6 as stated fails: object 10 is linked in the source and in the
    destination already; the move adds no link and no user, takes the
    link and one user away, and the user count drops from 2 to 1. *)
Lemma object_move_shared_drops_user :
  membership world_shared_object 2 10 = 1 ∧
  membership world_shared_object 3 10 = 1 ∧
  us_of world_shared_object 10 = 2%Z ∧
  (λ r, (membership r.2 2 10, membership r.2 3 10, us_of r.2 10))
    <$> BKE_collection_object_move 0 2 3 10 world_shared_object
  = Some (1, 0, 1%Z).
Proof. repeat split; vm_compute; reflexivity. Qed.

Lemma scene_collections_iterator_depth_first_witness :
  ∃ iter,
    BKE_scene_collections_iterator_begin 2 (ID_SCE 0) world_shared_object
    = Some (iter, world_shared_object) ∧
    scene_collections_yield (tree_size tree_shared_object) iter
    = Some (preorder tree_shared_object) ∧
    length (preorder tree_shared_object) = tree_size tree_shared_object ∧
    ∀ p c, is_parent tree_shared_object p c →
           ∃ l1 l2 l3, preorder tree_shared_object = l1 ++ p :: l2 ++ c :: l3.
Proof.
  apply (scene_collections_iterator_depth_first 2 (ID_SCE 0) world_shared_object tree_shared_object).
  - reflexivity.
  - simpl. repeat split; eexists; split; reflexivity.
  - simpl. lia.
Defined.

Lemma rename_to_free_name_witness :
  @collection_rename blender_externals 3 (ID_SCE 0) 3 "C" world_abc
    = Some (tt, with_colls (<[3 := set_name "C" (plain "C" [] [])]> (colls world_abc)) world_abc) ∧
  (name (plain "C" [] []) = "C"%string →
   @collection_rename blender_externals 3 (ID_SCE 0) 3 "C" world_abc = Some (tt, world_abc)).
Proof.
  apply (@rename_to_free_name blender_externals 3 (ID_SCE 0) 3 "C" world_abc tree_abc
           (plain "C" [] [])).
  - reflexivity.
  - simpl. repeat split; eexists; split; reflexivity.
  - simpl. lia.
  - reflexivity.
  - discriminate.
  - simpl. lia.
  - intros x cx Hx Hne Hc. simpl in Hx.
    apply elem_of_cons in Hx as [->|Hx].
    + vm_compute in Hc. injection Hc as <-. discriminate.
    + apply elem_of_cons in Hx as [->|Hx]; [done | by apply elem_of_nil in Hx].
Defined.

(** C10 as stated fails: a name of seventy bytes that no collection
    holds is cut to the sixty-three the buffer takes. *)
Lemma rename_long_name_truncated :
  String.length long_name = 70 ∧
  (λ r, name <$> colls r.2 !! 3)
    <$> @collection_rename blender_externals 3 (ID_SCE 0) 3 long_name world_abc
  = Some (Some (substring 0 63 long_name)) ∧
  substring 0 63 long_name ≠ long_name.
Proof. split_and!; [reflexivity | vm_compute; reflexivity | discriminate]. Qed.

(** C5, where the code departs from it.  With the objects 10 and 11
    linked in the master itself, the loop over the objects of the scene
    meets 10 twice; and when the master nests a collection that links
    12, it meets 10 and 12 and never 11. *)
Theorem scene_objects_master_links :
  fst <$> scene_objects 1 5 0 world_master_objects = Some [Some 10; Some 10; Some 11] ∧
  fst <$> scene_objects 2 5 0 world_master_objects_nested = Some [Some 10; Some 12].
Proof. split; vm_compute; reflexivity. Qed.

(** ** What freeing a collection touches *)

Lemma shrinks_refl h : shrinks h h.
Proof. intros p c Hc. by exists c. Qed.

Lemma shrinks_trans h1 h2 h3 : shrinks h1 h2 → shrinks h2 h3 → shrinks h1 h3.
Proof.
  intros H12 H23 p c3 Hc3. destruct (H23 p c3 Hc3) as (c2 & Hc2 & Hs2).
  destruct (H12 p c2 Hc2) as (c1 & Hc1 & Hs1). exists c1. split; [done|]. auto.
Qed.

Lemma shrinks_insert h p c f :
  h !! p = Some c → (∀ x, x ∈ scene_collections (f c) → x ∈ scene_collections c) →
  shrinks h (<[p := f c]> h).
Proof.
  intros Hc Hf q c' Hq. destruct (decide (p = q)) as [<-|Hne].
  - rewrite lookup_insert_eq in Hq. injection Hq as <-. by exists c.
  - rewrite lookup_insert_ne in Hq by done. by exists c'.
Qed.

Lemma shrinks_delete h p : shrinks h (delete p h).
Proof.
  intros q c' Hq. apply lookup_delete_Some in Hq as [_ Hq]. by exists c'.
Qed.

Lemma reaches_shrinks h h' p x : shrinks h h' → reaches h' p x → reaches h p x.
Proof.
  intros Hs. induction 1 as [p c x Hc Hx | p c y x Hc Hy _ IH].
  - destruct (Hs p c Hc) as (c0 & Hc0 & Hsub). apply (reaches_child _ _ c0); auto.
  - destruct (Hs p c Hc) as (c0 & Hc0 & Hsub). apply (reaches_step _ _ c0 y); auto.
Qed.

Lemma for_each_users (f : ptr → M unit) (l : list ptr) :
  (∀ ob w u w', f ob w = Some (u, w') → colls w' = colls w) →
  ∀ w u w', for_each l f w = Some (u, w') → colls w' = colls w.
Proof.
  intros Hf. induction l as [|ob l IH]; intros w u w' Hrun; simpl in Hrun.
  - by injection Hrun as _ <-.
  - apply bind_inv in Hrun as (u1 & w1 & H1 & Hrun).
    rewrite (IH _ _ _ Hrun). by apply (Hf ob _ u1).
Qed.

Lemma id_us_min_colls ob w u w' : id_us_min ob w = Some (u, w') → colls w' = colls w.
Proof. by intros [= _ <-]. Qed.

Lemma for_each_free (l : list ptr) : ∀ w u w',
  for_each l MEM_freeN w = Some (u, w') →
  shrinks (colls w) (colls w') ∧ ∀ p, p ∉ l → colls w' !! p = colls w !! p.
Proof.
  induction l as [|y l IH]; intros w u w' Hrun; simpl in Hrun.
  - injection Hrun as _ <-. split; [apply shrinks_refl | done].
  - apply bind_inv in Hrun as (u1 & w1 & H1 & Hrun).
    injection H1 as _ <-. destruct (IH _ _ _ Hrun) as [Hs Hp]. split.
    + apply (shrinks_trans _ (delete y (colls w))); [apply shrinks_delete | done].
    + intros p [Hy Hl]%not_elem_of_cons. rewrite (Hp p Hl). simpl.
      by rewrite lookup_delete_ne.
Qed.

Section Free.
Variable (do_id_user : bool).

Lemma free_nested fuel (l : list ptr) :
  frees do_id_user fuel →
  ∀ w u w', for_each l (λ nsc, collection_free fuel nsc do_id_user) w = Some (u, w') →
    shrinks (colls w) (colls w') ∧
    ∀ p, (∀ y, y ∈ l → p ≠ y ∧ ¬ reaches (colls w) y p) → colls w' !! p = colls w !! p.
Proof.
  intros IHf. induction l as [|y l IH]; intros w u w' Hrun; simpl in Hrun.
  - injection Hrun as _ <-. split; [apply shrinks_refl | done].
  - apply bind_inv in Hrun as (u1 & w1 & H1 & Hrun).
    destruct (IHf _ _ _ _ H1) as (Hs1 & Hp1 & _).
    destruct (IH _ _ _ Hrun) as (Hs & Hp). split.
    + by apply (shrinks_trans _ (colls w1)).
    + intros p Hall. rewrite Hp.
      * apply Hp1; apply Hall; apply elem_of_cons; by left.
      * intros z Hz. destruct (Hall z) as [Hne Hnr]; [apply elem_of_cons; by right|].
        split; [done|]. intros Hr. apply Hnr. by apply (reaches_shrinks _ (colls w1)).
Qed.

Lemma collection_free_frame fuel : frees do_id_user fuel.
Proof.
  induction fuel as [|fuel IH]; intros sc w u w' Hrun; [done|].
  simpl in Hrun.
  apply bind_inv in Hrun as (c & w0 & Hload & Hrun).
  apply load_inv in Hload as [Hc ->].
  apply bind_inv in Hrun as (u1 & w1 & Hus & Hrun).
  assert (Hw1 : colls w1 = colls w).
  { destruct do_id_user.
    - apply bind_inv in Hus as (u2 & w2 & Hus1 & Hus2).
      rewrite (for_each_users _ _ id_us_min_colls _ _ _ Hus2).
      apply (for_each_users _ _ id_us_min_colls _ _ _ Hus1).
    - by injection Hus as _ <-. }
  apply bind_inv in Hrun as (u2 & w2 & Hst1 & Hrun).
  apply store_inv in Hst1 as (c1 & Hc1 & ->).
  apply bind_inv in Hrun as (u3 & w3 & Hst2 & Hrun).
  apply store_inv in Hst2 as (c2 & Hc2 & ->).
  simpl in Hc2. rewrite lookup_insert_eq in Hc2. injection Hc2 as <-.
  rewrite Hw1, Hc in Hc1. injection Hc1 as <-.
  simpl in Hrun. rewrite insert_insert_eq, Hw1 in Hrun.
  set (c2 := set_filter_objects [] (set_objects [] c)) in *.
  set (h2 := <[sc := c2]> (colls w)) in *.
  assert (Hs2 : shrinks (colls w) h2) by (by apply (shrinks_insert (colls w) sc c (λ _, c2))).
  apply bind_inv in Hrun as (u4 & w4 & Hloop & Hrun).
  destruct (free_nested fuel _ IH _ _ _ Hloop) as (Hs4 & Hp4). simpl in Hs4, Hp4.
  apply bind_inv in Hrun as (u5 & w5 & Hfree & Hrun).
  destruct (for_each_free _ _ _ _ Hfree) as (Hs5 & Hp5).
  apply store_inv in Hrun as (c5 & Hc5 & ->). simpl.
  assert (Hs : shrinks (colls w) (colls w5)).
  { apply (shrinks_trans _ h2); [done|]. by apply (shrinks_trans _ (colls w4)). }
  assert (Hkeep : ∀ p, ¬ reaches (colls w) sc p → colls w5 !! p = h2 !! p).
  { intros p Hnr. rewrite Hp5, Hp4; [done| |].
    - intros y Hy. split.
      + intros ->. apply Hnr. by apply (reaches_child _ _ c).
      + intros Hr. apply Hnr. apply (reaches_step _ _ c y); [done..|].
        by apply (reaches_shrinks _ h2).
    - intros Hy. apply Hnr. by apply (reaches_child _ _ c). }
  split_and!.
  - apply (shrinks_trans _ (colls w5)); [done|].
    apply (shrinks_insert _ _ _ (set_scene_collections [])); [done|].
    simpl. by intros x ?%elem_of_nil.
  - intros p Hne Hnr. rewrite lookup_insert_ne by done.
    rewrite (Hkeep p Hnr). unfold h2. by rewrite lookup_insert_ne.
  - intros Hnr. exists c. split; [done|]. rewrite lookup_insert_eq.
    rewrite (Hkeep sc Hnr) in Hc5. unfold h2 in Hc5. rewrite lookup_insert_eq in Hc5.
    by injection Hc5 as <-.
Qed.

End Free.

Lemma represents_allocated h t p : represents h t → p ∈ preorder t → is_Some (h !! p).
Proof.
  revert t. apply (tree_ind_all (λ t, represents h t → p ∈ preorder t → _)).
  intros sc ts IH. rewrite represents_node. intros [(c & Hc & _) Hts].
  simpl. intros [->|Hp]%elem_of_cons; [by exists c|].
  rewrite Forall_forall in IH, Hts.
  apply elem_of_flat_map_preorder, Exists_exists in Hp as (t & Ht & Hp). by apply (IH t); auto.
Qed.

Lemma reaches_descendant h p x :
  reaches h p x → ∀ t, represents h t → root t = p → x ∈ descendants t.
Proof.
  induction 1 as [p c x Hc Hx | p c y x Hc Hy _ IH]; intros [sc ts] Hrep Hroot;
    simpl in Hroot; subst sc; pose proof Hrep as Hrep';
    apply represents_node in Hrep' as [(c' & Hc' & Hch) Hts];
    rewrite Hc in Hc'; injection Hc' as <-; rewrite Hch in *.
  - by apply root_in_preorder.
  - apply elem_of_map_root in Hy as (ty & Hty & Hr).
    rewrite Forall_forall in Hts. specialize (IH ty (Hts ty Hty) Hr).
    unfold descendants. simpl. apply elem_of_flat_map_preorder, Exists_exists.
    exists ty. split; [done|]. rewrite preorder_root. apply elem_of_cons. by right.
Qed.

(** ** Steps that leave the old structs alone *)

Lemma keeps_refl n0 w : keeps n0 w w.
Proof. intros p c _ Hc. by exists c. Qed.

Lemma keeps_trans n0 w1 w2 w3 : keeps n0 w1 w2 → keeps n0 w2 w3 → keeps n0 w1 w3.
Proof.
  intros H12 H23 p c1 Hp Hc1. destruct (H12 p c1 Hp Hc1) as (c2 & Hc2 & He2).
  destruct (H23 p c2 Hp Hc2) as (c3 & Hc3 & He3). exists c3. split; [done | congruence].
Qed.

Lemma keeps_same n0 w w' : colls w' = colls w → keeps n0 w w'.
Proof. intros He p c _ Hc. exists c. by rewrite He. Qed.

Section Safe.
Variable (n0 : nat).

Lemma safe_ret {A} (a : A) (Q : A → Prop) : Q a → safe n0 (ret a) Q.
Proof. intros HQ w a' w' Hinv [= <- <-]. split_and!; [done | apply keeps_refl | done]. Qed.

Lemma safe_fault {A} (Q : A → Prop) : safe n0 fault Q.
Proof. by intros w a w' _ ?. Qed.

Lemma safe_bind {A B} (m : M A) (k : A → M B) (Q1 : A → Prop) (Q2 : B → Prop) :
  safe n0 m Q1 → (∀ a, Q1 a → safe n0 (k a) Q2) → safe n0 (bind m k) Q2.
Proof.
  intros Hm Hk w b w' Hinv Hrun. apply bind_inv in Hrun as (a & w1 & H1 & H2).
  destruct (Hm _ _ _ Hinv H1) as (Hinv1 & Hk1 & HQ1).
  destruct (Hk a HQ1 _ _ _ Hinv1 H2) as (Hinv2 & Hk2 & HQ2).
  split_and!; [done | by apply (keeps_trans _ _ w1) | done].
Qed.

Lemma safe_weaken {A} (m : M A) (Q1 Q2 : A → Prop) :
  safe n0 m Q1 → (∀ a, Q1 a → Q2 a) → safe n0 m Q2.
Proof.
  intros Hm HQ w a w' Hinv Hrun. destruct (Hm _ _ _ Hinv Hrun) as (? & ? & ?). auto.
Qed.

Lemma safe_lift {A} (o : option A) (Q : A → Prop) :
  (∀ a, o = Some a → Q a) → safe n0 (lift o) Q.
Proof.
  intros HQ w a w' Hinv Hrun. unfold lift in Hrun. destruct o as [a0|]; [|done].
  injection Hrun as <- <-. split_and!; [done | apply keeps_refl | by apply HQ].
Qed.

Lemma safe_gets {A} (f : World → A) : safe n0 (gets f) (λ _, True).
Proof. intros w a w' Hinv [= <- <-]. split_and!; [done | apply keeps_refl | done]. Qed.

Lemma safe_modify (f : World → World) :
  (∀ w, colls (f w) = colls w ∧ brk (f w) = brk w ∧ groups (f w) = groups w) →
  safe n0 (modify f) (λ _, True).
Proof.
  intros Hf w a w' [Hb Hg] [= _ <-]. destruct (Hf w) as (Hc & Hb' & Hg').
  split_and!; [|by apply keeps_same|done]. split; [lia | by rewrite Hg'].
Qed.

Lemma safe_emit e : safe n0 (emit e) (λ _, True).
Proof. by apply safe_modify. Qed.

Lemma safe_load sc : safe n0 (load sc) (λ _, True).
Proof.
  intros w a w' Hinv [_ ->]%load_inv. split_and!; [done | apply keeps_refl | done].
Qed.

Lemma safe_store sc f :
  n0 ≤ sc ∨ (∀ c, scene_collections (f c) = scene_collections c) →
  safe n0 (store sc f) (λ _, True).
Proof.
  intros Hok w a w' Hinv (c & Hc & ->)%store_inv. split_and!; [done| |done].
  intros p c0 Hp Hc0. simpl. destruct (decide (sc = p)) as [<-|Hne].
  - rewrite lookup_insert_eq. exists (f c). split; [done|].
    destruct Hok as [?|Hf]; [lia|]. rewrite Hf. congruence.
  - rewrite lookup_insert_ne by done. by exists c0.
Qed.

Lemma safe_alloc c : safe n0 (alloc c) (λ p, n0 ≤ p).
Proof.
  intros w a w' [Hb Hg] [= <- <-]. split_and!; [split; simpl; [lia|done] | | done].
  intros p c0 Hp Hc0. simpl. rewrite lookup_insert_ne by lia. by exists c0.
Qed.

Lemma safe_load_group : safe n0 (load_group (S n0)) (λ gr, gr_collection gr = n0).
Proof.
  intros w a w' Hinv Hrun. unfold load_group in Hrun.
  destruct Hinv as [Hb (gr & Hgr & Hm)]. rewrite Hgr in Hrun. injection Hrun as <- <-.
  split_and!; [by split; eauto | apply keeps_refl | done].
Qed.

Lemma safe_store_group_layer f : safe n0 (store_group_layer (S n0) f) (λ _, True).
Proof.
  apply (safe_bind _ _ _ _ safe_load_group). intros gr Hgr w a w' [Hb Hg] [= _ <-].
  split_and!; [|by apply keeps_same|done]. split; [done|]. simpl.
  rewrite lookup_insert_eq. by eexists.
Qed.

Lemma safe_for_each {A} (l : list A) (body : A → M unit) :
  (∀ x, safe n0 (body x) (λ _, True)) → safe n0 (for_each l body) (λ _, True).
Proof.
  intros Hbody. induction l as [|x l IH]; simpl; [by apply safe_ret|].
  apply (safe_bind _ _ _ _ (Hbody x)). auto.
Qed.

Lemma safe_master_of_group :
  safe n0 (collection_master_from_id (ID_GR (S n0))) (λ m, m = n0).
Proof.
  apply (safe_bind _ _ _ _ safe_load_group). intros gr Hgr. by apply safe_ret.
Qed.

Lemma safe_group_master :
  safe n0 (master_collection_from_id (ID_GR (S n0))) (λ m, m = n0).
Proof.
  apply (safe_bind _ _ _ _ safe_load_group). intros gr Hgr. by apply safe_ret.
Qed.

Lemma safe_rename `{Externals} fuel sc nm :
  safe n0 (collection_rename fuel (ID_GR (S n0)) sc nm) (λ _, True).
Proof.
  unfold collection_rename.
  apply (safe_bind _ _ _ _ safe_master_of_group). intros m _.
  apply (safe_bind _ _ (λ _, True)); [apply safe_store; by right|]. intros _ _.
  apply (safe_bind _ _ _ _ (safe_load sc)). intros c _.
  apply (safe_bind _ _ _ _ (safe_gets _)). intros o _.
  apply (safe_bind _ _ (λ _, True)); [by apply safe_lift|]. intros unique _.
  apply safe_store. by right.
Qed.

Lemma safe_add `{Externals} fuel ty nm :
  safe n0 (BKE_collection_add fuel (ID_GR (S n0)) None ty nm) (λ sc, n0 ≤ sc).
Proof.
  unfold BKE_collection_add.
  apply (safe_bind _ _ _ _ safe_master_of_group). intros m ->.
  apply (safe_bind _ _ _ _ (safe_alloc _)). intros sc Hsc.
  apply (safe_bind _ _ (λ _, True)); [apply safe_store; by right|]. intros _ _.
  apply (safe_bind _ _ _ _ (safe_rename _ _ _)). intros _ _.
  apply (safe_bind _ _ (λ _, True)); [apply safe_store; by left|]. intros _ _.
  apply (safe_bind _ _ _ _ (safe_emit _)). intros _ _.
  by apply safe_ret.
Qed.

Lemma safe_duplicatelist (l : list ptr) :
  safe n0 (BLI_duplicatelist l) (Forall (λ d, n0 ≤ d)).
Proof.
  induction l as [|x l IH]; simpl; [by apply safe_ret|].
  apply (safe_bind _ _ (λ d, n0 ≤ d)).
  { apply (safe_bind _ _ _ _ (safe_load x)). intros c _. apply safe_alloc. }
  intros d Hd. apply (safe_bind _ _ _ _ IH). intros ds Hds.
  apply safe_ret. by constructor.
Qed.

Lemma safe_copy_nested (rec : ptr → ptr → M unit) (srcs dsts : list ptr) :
  Forall (λ d, ∀ s, safe n0 (rec d s) (λ _, True)) dsts →
  safe n0 (copy_nested rec srcs dsts) (λ _, True).
Proof.
  revert dsts. induction srcs as [|s srcs IH]; intros dsts Hall; simpl.
  - destruct dsts; by apply safe_ret.
  - destruct dsts as [|d dsts]; [apply safe_fault|].
    apply Forall_cons in Hall as [Hd Hall].
    apply (safe_bind _ _ _ _ (Hd s)). intros _ _. by apply IH.
Qed.

Lemma safe_users (refcount : bool) (items : M unit) :
  safe n0 items (λ _, True) → safe n0 (if refcount then ret tt else items) (λ _, True).
Proof. intros Hi. destruct refcount; [by apply safe_ret | done]. Qed.

Lemma safe_id_us_plus ob : safe n0 (id_us_plus ob) (λ _, True).
Proof. by apply safe_modify. Qed.

Lemma safe_copy_data fuel flag : ∀ dst src,
  n0 ≤ dst → safe n0 (BKE_collection_copy_data fuel dst src flag) (λ _, True).
Proof.
  induction fuel as [|fuel IH]; intros dst src Hdst; [apply safe_fault|]. simpl.
  apply (safe_bind _ _ _ _ (safe_load src)). intros c0 _.
  apply (safe_bind _ _ (λ _, True)); [apply safe_store; by left|]. intros _ _.
  apply (safe_bind _ _ (λ _, True)).
  { apply safe_users. apply (safe_bind _ _ _ _ (safe_load dst)). intros d _.
    apply safe_for_each, safe_id_us_plus. }
  intros _ _.
  apply (safe_bind _ _ _ _ (safe_load src)). intros c1 _.
  apply (safe_bind _ _ (λ _, True)); [apply safe_store; by left|]. intros _ _.
  apply (safe_bind _ _ (λ _, True)).
  { apply safe_users. apply (safe_bind _ _ _ _ (safe_load dst)). intros d _.
    apply safe_for_each, safe_id_us_plus. }
  intros _ _.
  apply (safe_bind _ _ _ _ (safe_load src)). intros c2 _.
  apply (safe_bind _ _ _ _ (safe_duplicatelist _)). intros dups Hdups.
  (* the list just stored is the one read back *)
  intros w a w' Hinv Hrun.
  apply bind_inv in Hrun as (u & w1 & Hst & Hrun).
  pose proof Hst as Hst'. apply store_inv in Hst' as (cd & Hcd & Hw1).
  destruct (safe_store dst (set_scene_collections dups) (or_introl Hdst) _ _ _ Hinv Hst)
    as (Hinv1 & Hk1 & _).
  apply bind_inv in Hrun as (c3 & w2 & Hl3 & Hrun). apply load_inv in Hl3 as [_ ->].
  apply bind_inv in Hrun as (d & w2 & Hld & Hrun). apply load_inv in Hld as [Hd ->].
  rewrite Hw1 in Hd. simpl in Hd. rewrite lookup_insert_eq in Hd. injection Hd as <-.
  simpl in Hrun.
  destruct (safe_copy_nested (λ d s, BKE_collection_copy_data fuel d s flag)
              (scene_collections c3) dups) with (w := w1) (a := a) (w' := w')
    as (Hinv2 & Hk2 & _); [|done|done|].
  - eapply Forall_impl; [exact Hdups|]. intros d Hd s. by apply IH.
  - split_and!; [done | by apply (keeps_trans _ _ w1) | done].
Qed.

Lemma safe_rounds (body : ptr → M unit) :
  (∀ sc, safe n0 (body sc) (λ _, True)) →
  ∀ n iter, safe n0 (scene_collections_rounds n iter body) (λ _, True).
Proof.
  intros Hbody. induction n as [|n IH]; intros iter; simpl.
  - destruct (valid iter); [apply safe_fault | by apply safe_ret].
  - destruct (valid iter); [|by apply safe_ret].
    apply (safe_bind _ _ (λ _, True)); [by apply safe_lift|]. intros sc _.
    apply (safe_bind _ _ _ _ (Hbody sc)). intros _ _. apply IH.
Qed.

Lemma safe_foreach fuel (body : ptr → M unit) :
  (∀ sc, safe n0 (body sc) (λ _, True)) →
  safe n0 (FOREACH_SCENE_COLLECTION fuel (ID_GR (S n0)) body) (λ _, True).
Proof.
  intros Hbody. unfold FOREACH_SCENE_COLLECTION.
  apply (safe_bind _ _ (λ _, True)); [|intros iter _; by apply safe_rounds].
  unfold BKE_scene_collections_iterator_begin.
  apply (safe_bind _ _ _ _ safe_group_master). intros m _.
  apply (safe_bind _ _ _ _ (safe_gets _)). intros r _.
  apply (safe_bind _ _ (λ _, True)); [by apply safe_lift|]. intros r' _.
  apply (safe_bind _ _ (λ _, True)); [by apply safe_lift|]. intros first _.
  by apply safe_ret.
Qed.

Lemma safe_link fuel sc : safe n0 (BKE_collection_link fuel (S n0) sc) (λ _, True).
Proof.
  unfold BKE_collection_link.
  apply (safe_bind _ _ _ _ (safe_gets _)). intros o _.
  apply (safe_bind _ _ (λ _, True)); [by apply safe_lift|]. intros lc _.
  apply (safe_bind _ _ _ _ (safe_store_group_layer _)). intros _ _.
  apply (safe_bind _ _ _ _ (safe_emit _)). intros _ _. by apply safe_ret.
Qed.

End Safe.

(** ** Conversion into a group *)

Lemma linked_in_layer_spec h t fuel (lb : list LayerCollection) :
  represents h t → height t ≤ fuel →
  linked_in_layer fuel h (root t) lb
  = Some (bool_decide (Exists (λ lc, scene_collection lc ∈ descendants t) lb)).
Proof.
  intros Hrep Hfuel. induction lb as [|lc lb IH]; cbn [linked_in_layer].
  - reflexivity.
  - rewrite (is_collection_in_tree_spec h t _ fuel Hrep Hfuel).
    destruct (decide (scene_collection lc ∈ descendants t)) as [Hin|Hin].
    + rewrite (bool_decide_eq_true_2 _ Hin). f_equal. symmetry.
      apply bool_decide_eq_true_2. by left.
    + rewrite (bool_decide_eq_false_2 _ Hin), IH. f_equal.
      apply bool_decide_ext. rewrite Exists_cons. tauto.
Qed.

Lemma linked_in_layers_spec h t fuel (sls : list SceneLayer) :
  represents h t → height t ≤ fuel →
  linked_in_layers fuel h (root t) sls
  = Some (bool_decide (Exists (λ sl, Exists (λ lc, scene_collection lc ∈ descendants t)
                                       (sl_layer_collections sl)) sls)).
Proof.
  intros Hrep Hfuel. induction sls as [|sl sls IH]; cbn [linked_in_layers].
  - reflexivity.
  - rewrite (linked_in_layer_spec h t fuel _ Hrep Hfuel).
    destruct (decide (Exists (λ lc, scene_collection lc ∈ descendants t)
                        (sl_layer_collections sl))) as [Hin|Hin].
    + rewrite (bool_decide_eq_true_2 _ Hin). f_equal. symmetry.
      apply bool_decide_eq_true_2. by left.
    + rewrite (bool_decide_eq_false_2 _ Hin), IH. f_equal.
      apply bool_decide_ext. rewrite Exists_cons. tauto.
Qed.

Lemma group_add_cleanup fuel nm w g w1 u w2 :
  BKE_group_add nm w = Some (g, w1) →
  collection_group_cleanup fuel g w1 = Some (u, w2) →
  g = S (brk w) ∧ new_group (brk w) w2 ∧ keeps (brk w) w w2.
Proof.
  intros Hadd Hclean. unfold BKE_group_add in Hadd.
  apply bind_inv in Hadd as (m & wa & Hm & Hadd). injection Hm as <- <-.
  apply bind_inv in Hadd as (u1 & wb & Hst & Hadd).
  apply store_inv in Hst as (c & Hc & ->). simpl in Hc. rewrite lookup_insert_eq in Hc.
  injection Hc as <-. simpl in Hadd. injection Hadd as <- <-.
  split; [done|].
  unfold collection_group_cleanup, load_group in Hclean.
  apply bind_inv in Hclean as (gr & wc & Hgr & Hclean).
  simpl in Hgr. rewrite lookup_insert_eq in Hgr. injection Hgr as <- <-.
  simpl in Hclean.
  apply bind_inv in Hclean as (u2 & wc & Hun & Hclean).
  unfold bind, load_group in Hun. simpl in Hun. rewrite lookup_insert_eq in Hun.
  simpl in Hun. injection Hun as _ <-.
  apply bind_inv in Hclean as (gr & wc & Hgr & Hclean).
  simpl in Hgr. rewrite lookup_insert_eq in Hgr. injection Hgr as <- <-.
  simpl in Hclean.
  destruct (collection_free_frame false fuel _ _ _ _ Hclean) as (_ & Hp & _).
  assert (Hrest : brk w2 = S (S (brk w)) ∧
                  groups w2 !! S (brk w) = Some (mkGroup nm (brk w) (mkSceneLayer [] 0%Z))).
  { destruct fuel as [|fuel]; [done|]. simpl in Hclean.
    unfold bind, load, store in Hclean. simpl in Hclean.
    repeat (rewrite lookup_insert_eq in Hclean; simpl in Hclean).
    injection Hclean as _ <-. simpl. split; [done | apply lookup_insert_eq]. }
  destruct Hrest as [Hb Hg]. split.
  - split; [lia|]. by eexists.
  - intros p c Hlt Hc. exists c. split; [|done]. rewrite Hp.
    + simpl. by rewrite !lookup_insert_ne by lia.
    + lia.
    + simpl. rewrite insert_insert_eq.
      inversion 1 as [? c' ? Hc' Hx | ? c' ? ? Hc' Hx]; subst;
        rewrite lookup_insert_eq in Hc'; injection Hc' as <-; by apply elem_of_nil in Hx.
Qed.

(** C4 as stated fails: B is what the only top-level LayerCollection of
    the render layer refers to, and its conversion into a group is
    carried out all the same. *)
Lemma group_create_top_level_source_accepted :
  scene_collection <$> head (sl_layer_collections (mkSceneLayer [layer_collection_b] 0%Z)) = Some 2 ∧
  fst <$> @BKE_collection_group_create blender_externals 3 0 layer_collection_b world_b_linked
  = Some (Some 5).
Proof. split; vm_compute; reflexivity. Qed.

(** ** The iterator over objects, when the master links none *)

Lemma first_new_list (seen : list ptr) (l : list ptr) : ∀ gs : gset nat,
  (∀ x, x ∈ gs ↔ x ∈ seen) → first_new gs l = first_occurrences seen l.
Proof.
  revert seen. induction l as [|y l IH]; intros seen gs Hsame; [done|]. simpl.
  destruct (decide (y ∈ gs)) as [Hin|Hn], (decide (y ∈ seen)) as [Hin'|Hn'];
    try (by apply Hsame in Hin); try (by apply Hsame in Hin').
  - by apply IH.
  - f_equal. apply IH. intros x. rewrite elem_of_union, elem_of_singleton, elem_of_cons.
    by rewrite Hsame.
Qed.

Lemma first_new_skip (gs : gset nat) (pre l : list ptr) :
  Forall (λ x, x ∈ gs) pre → first_new gs (pre ++ l) = first_new gs l.
Proof.
  induction 1 as [|x pre Hx _ IH]; [done|]. simpl. by rewrite decide_True.
Qed.

Lemma first_new_length (l : list ptr) : ∀ gs : gset nat, length (first_new gs l) ≤ length l.
Proof.
  induction l as [|x l IH]; intros gs; simpl; [lia|].
  destruct (decide (x ∈ gs)); simpl; [specialize (IH gs) | specialize (IH ({[x]} ∪ gs))]; lia.
Qed.

Lemma object_base_unique_spec (l : list ptr) (gs : gset nat) :
  match object_base_unique gs l with
  | (gs', []) => gs' = gs ∧ Forall (λ x, x ∈ gs) l
  | (gs', ob :: next) =>
      gs' = {[ob]} ∪ gs ∧ (ob ∉ gs) ∧ ∃ pre, l = pre ++ ob :: next ∧ Forall (λ x, x ∈ gs) pre
  end.
Proof.
  induction l as [|x l IH]; simpl; [by split|].
  destruct (decide (x ∈ gs)) as [Hin|Hn].
  - destruct (object_base_unique gs l) as [gs' [|ob next]].
    + destruct IH as [-> Hall]. split; [done | by constructor].
    + destruct IH as (-> & Hob & pre & -> & Hpre). split_and!; [done..|].
      exists (x :: pre). split; [done | by constructor].
  - split_and!; [done..|]. by exists [].
Qed.

Section ObjectsIterator.
Variables (h : gmap nat SceneCollection) (id : ID) (arr : list ptr).
Hypothesis Hall : ∀ sc, sc ∈ arr → is_Some (h !! sc).

Lemma next_at_index k :
  S k < length arr →
  BKE_scene_collections_iterator_next (at_index id arr k) = at_index id arr (S k).
Proof.
  intros Hk. unfold BKE_scene_collections_iterator_next, at_index. simpl.
  by rewrite decide_True.
Qed.

(** Past the end the cursor stays where it was and is no longer valid. *)
Lemma next_past_end (sci : BLI_Iterator SceneCollectionsIteratorData) :
  tot (data sci) ≤ S (cur (data sci)) →
  let sci' := BKE_scene_collections_iterator_next sci in
  valid sci' = false ∧ current sci' = current sci ∧
  tot (data sci') = tot (data sci) ∧ tot (data sci') ≤ S (cur (data sci')).
Proof.
  intros Hk. unfold BKE_scene_collections_iterator_next.
  rewrite decide_False by lia. simpl. split_and!; [done..|lia].
Qed.

(** The loop over collections, entered past the end: the collection the
    cursor was left on has nothing new. *)
Lemma next_collection_stale n gs ln sci sc :
  valid sci = false → tot (data sci) ≤ S (cur (data sci)) →
  current sci = Some sc → Forall (λ x, x ∈ gs) (objects_of h sc) → sc ∈ arr →
  ∃ d, objects_next_collection (S n) h gs ln sci = Some (None, d).
Proof.
  intros Hv Hk Hc Hseen Hsc. simpl. rewrite Hc.
  destruct (Hall sc Hsc) as [c Hcc]. unfold objects_of in Hseen. rewrite Hcc in *.
  pose proof (object_base_unique_spec (objects c) gs) as Hu.
  destruct (object_base_unique gs (objects c)) as [gs' [|ob next]].
  - destruct (next_past_end sci Hk) as (-> & _). by eexists.
  - destruct Hu as (_ & Hob & pre & Hl & _). rewrite Hl in Hseen.
    apply Forall_app in Hseen as [_ Hseen]. by apply Forall_cons in Hseen as [? _].
Qed.

(** The loop over collections, entered at index [k]. *)
Lemma next_collection_spec m : ∀ k n gs ln,
  length arr = k + S m → S m ≤ n →
  match first_new gs (flat_map (objects_of h) (drop k arr)) with
  | [] => ∃ d, objects_next_collection n h gs ln (at_index id arr k) = Some (None, d)
  | ob :: tl =>
      ∃ d k', objects_next_collection n h gs ln (at_index id arr k) = Some (Some ob, d) ∧
              inside h id arr d k' ∧ tl = to_come h arr d k'
  end.
Proof.
  induction m as [|m IH]; intros k n gs ln Hlen Hn.
  all: destruct n as [|n]; [lia|].
  all: destruct (arr !! k) as [sc|] eqn:Hsc; [|apply lookup_ge_None in Hsc; lia].
  all: rewrite (drop_S _ _ _ Hsc); simpl flat_map.
  all: assert (Hin : sc ∈ arr) by (apply list_elem_of_lookup; eauto).
  all: destruct (Hall sc Hin) as [c Hc].
  all: assert (Hobj : objects_of h sc = objects c) by (unfold objects_of; by rewrite Hc).
  all: pose proof (object_base_unique_spec (objects c) gs) as Hu.
  all: simpl objects_next_collection; rewrite Hsc, Hc.
  all: destruct (object_base_unique gs (objects c)) as [gs' [|ob next]].
  - (* last collection, nothing new *)
    destruct Hu as [-> Hseen]. rewrite Hobj, first_new_skip by done.
    rewrite drop_ge by lia. simpl.
    unfold BKE_scene_collections_iterator_next, at_index. simpl.
    rewrite decide_False by lia. simpl. by eexists.
  - destruct Hu as (-> & Hob & pre & Hl & Hpre).
    rewrite Hobj, Hl, <- app_assoc, first_new_skip by done. simpl.
    rewrite decide_False by done.
    eexists _, k. split; [reflexivity|]. split.
    + split_and!; [lia | done |]. exists sc, (pre ++ [ob]). simpl.
      split_and!; [done | by rewrite Hobj, Hl, <- app_assoc |].
      apply Forall_app. split.
      * eapply Forall_impl; [exact Hpre|]. set_solver.
      * constructor; [set_solver | constructor].
    + done.
  - (* a collection with nothing new, and more to come *)
    destruct Hu as [-> Hseen]. rewrite Hobj, first_new_skip by done.
    rewrite next_at_index by lia. simpl.
    specialize (IH (S k) n gs ln ltac:(lia) ltac:(lia)).
    destruct (first_new gs (flat_map (objects_of h) (drop (S k) arr))) as [|ob tl].
    + destruct IH as [d ->]. by eexists.
    + destruct IH as (d & k' & -> & Hd). by eexists _, _.
  - destruct Hu as (-> & Hob & pre & Hl & Hpre).
    rewrite Hobj, Hl, <- app_assoc, first_new_skip by done. simpl.
    rewrite decide_False by done.
    eexists _, k. split; [reflexivity|]. split.
    + split_and!; [lia | done |]. exists sc, (pre ++ [ob]). simpl.
      split_and!; [done | by rewrite Hobj, Hl, <- app_assoc |].
      apply Forall_app. split.
      * eapply Forall_impl; [exact Hpre|]. set_solver.
      * constructor; [set_solver | constructor].
    + done.
Qed.

(** One step of the objects iterator from inside a collection. *)
Lemma objects_next_spec (iter : BLI_Iterator SceneObjectsIteratorData) k :
  inside h id arr (data iter) k →
  match to_come h arr (data iter) k with
  | [] => ∃ iter', BKE_scene_objects_iterator_next h iter = Some iter' ∧ valid iter' = false
  | ob :: tl =>
      ∃ d k', BKE_scene_objects_iterator_next h iter = Some (mkIterator (Some ob) d (valid iter)) ∧
              inside h id arr d k' ∧ tl = to_come h arr d k'
  end.
Proof.
  intros (Hk & Hsci & sc & pre & Hsc & Hobj & Hpre).
  unfold BKE_scene_objects_iterator_next, to_come.
  destruct iter as [cur0 [gs ln sci] v].
  cbn [data visited link_next_ scene_collection_iter valid current] in *. subst sci.
  pose proof (object_base_unique_spec ln gs) as Hu.
  assert (Hstep : (match ln with [] => (gs, []) | _ => object_base_unique gs ln end)
                  = object_base_unique gs ln) by (by destruct ln).
  rewrite Hstep. clear Hstep.
  destruct (object_base_unique gs ln) as [gs' [|ob next]].
  - destruct Hu as [-> Hseen]. rewrite first_new_skip by done.
    destruct (decide (S k < length arr)) as [Hlt|Hge].
    + rewrite next_at_index by done.
      pose proof (next_collection_spec (length arr - S (S k)) (S k) (S (length arr)) gs ln
                    ltac:(lia) ltac:(lia)) as Hn.
      change (tot (data (at_index id arr (S k)))) with (length arr).
      destruct (first_new gs (flat_map (objects_of h) (drop (S k) arr))) as [|ob tl].
      * destruct Hn as [d ->]. by eexists.
      * destruct Hn as (d & k' & -> & Hd & Htl). by eexists _, _.
    + rewrite drop_ge by lia. cbn [flat_map first_new].
      destruct (next_past_end (at_index id arr k)) as (Hv & Hc & Ht & Hcur).
      { cbn [at_index tot cur data]. lia. }
      destruct (next_collection_stale (length arr) gs ln
                  (BKE_scene_collections_iterator_next (at_index id arr k)) sc)
        as [d Hd]; [done|done|by rewrite Hc| |apply list_elem_of_lookup; eauto|].
      { rewrite Hobj. apply Forall_app. by split. }
      rewrite Ht. change (tot (data (at_index id arr k))) with (length arr).
      rewrite Hd. by eexists.
  - destruct Hu as (-> & Hob & pre' & -> & Hpre').
    rewrite <- app_assoc, first_new_skip by done.
    cbn [app first_new]. rewrite decide_False by done.
    eexists _, k. split; [reflexivity|]. split; [|done].
    split_and!; [done..|]. exists sc, (pre ++ pre' ++ [ob]).
    cbn [visited link_next_].
    split_and!; [done | by rewrite Hobj, <- !app_assoc |].
    rewrite !Forall_app. split_and!.
    + eapply Forall_impl; [exact Hpre|]. set_solver.
    + eapply Forall_impl; [exact Hpre'|]. set_solver.
    + constructor; [set_solver | constructor].
Qed.

(** The loop from inside a collection: the object at hand, then what is
    still to come. *)
Lemma scene_objects_yield_spec (l : list ptr) : ∀ n ob d k,
  inside h id arr d k → l = to_come h arr d k → length l < n →
  scene_objects_yield n h (mkIterator (Some ob) d true) = Some (Some ob :: map Some l).
Proof.
  induction l as [|x l IH]; intros n ob d k Hin Hl Hn.
  all: destruct n as [|n]; [lia|].
  all: pose proof (objects_next_spec (mkIterator (Some ob) d true) k Hin) as Hnext.
  all: simpl in Hnext; rewrite <- Hl in Hnext; simpl.
  - destruct Hnext as (iter' & -> & Hv). simpl. destruct n; simpl; by rewrite Hv.
  - destruct Hnext as (d' & k' & -> & Hin' & Hl'). simpl in Hn.
    by rewrite (IH n x d' k' Hin' Hl' ltac:(lia)).
Qed.

End ObjectsIterator.

Lemma begin_at_index (fuel : nat) (id : ID) (w : World) (t : tree) :
  master_collection_from_id id w = Some (root t, w) →
  represents (colls w) t → height t ≤ fuel →
  BKE_scene_collections_iterator_begin fuel id w = Some (at_index id (preorder t) 0, w).
Proof.
  intros Hm Hrep Hfuel. unfold BKE_scene_collections_iterator_begin.
  rewrite (bind_some _ _ _ _ _ Hm). unfold bind, gets, lift. simpl.
  rewrite (scene_collections_array_spec _ _ _ Hrep Hfuel). simpl.
  unfold at_index. rewrite preorder_length. by rewrite (preorder_root t).
Qed.

(** X2.  Where the code agrees with C5: in a scene whose master links
    no object itself, the loop over the objects of the scene sees every
    object linked in the collections of the tree once, in the order in
    which a depth-first walk of the collections first meets them. *)
Lemma scene_objects_nested_only (fuel n : nat) (scene : ptr) (w : World) (s : Scene)
    (t : tree) (master : SceneCollection) :
  scenes w !! scene = Some s →
  root t = collection s →
  represents (colls w) t →
  height t ≤ fuel →
  colls w !! collection s = Some master →
  objects master = [] →
  length (flat_map (objects_of (colls w)) (preorder t)) < n →
  scene_objects fuel n scene w
  = Some (map Some (first_occurrences [] (flat_map (objects_of (colls w)) (preorder t))), w).
Proof.
  intros Hscene Hroot Hrep Hfuel Hmaster Hnone Hn.
  set (h := colls w). set (arr := preorder t).
  assert (Hall : ∀ sc, sc ∈ arr → is_Some (h !! sc)).
  { intros sc Hsc. by apply (represents_allocated _ t). }
  assert (Hobj0 : objects_of h (root t) = []).
  { unfold objects_of, h. by rewrite Hroot, Hmaster. }
  assert (Hflat : flat_map (objects_of h) arr = flat_map (objects_of h) (drop 1 arr)).
  { unfold arr. rewrite (preorder_root t). simpl. by rewrite Hobj0, drop_0. }
  rewrite <- (first_new_list [] _ ∅) by set_solver.
  assert (Hbegin : BKE_scene_collections_iterator_begin fuel (ID_SCE scene) w
                   = Some (at_index (ID_SCE scene) arr 0, w)).
  { apply begin_at_index; [|done..]. simpl.
    rewrite (master_some _ _ _ Hscene). by rewrite Hroot. }
  assert (Hcur : current (at_index (ID_SCE scene) arr 0) = Some (collection s)).
  { unfold at_index, arr. simpl. by rewrite (preorder_root t), <- Hroot. }
  set (iter0 := mkIterator None
                  (mkSceneObjectsIteratorData ∅ [] (at_index (ID_SCE scene) arr 0)) true).
  assert (Hfirst : BKE_scene_objects_iterator_begin fuel scene w
                   = (λ it, (it, w)) <$> BKE_scene_objects_iterator_next h iter0).
  { unfold BKE_scene_objects_iterator_begin.
    rewrite (bind_some _ _ _ _ _ Hbegin), Hcur.
    unfold lift at 1, bind at 1.
    rewrite (bind_some _ _ _ _ _ (load_some _ _ _ Hmaster)), Hnone.
    cbn [head current]. fold iter0. unfold bind, gets, lift. fold h.
    by destruct (BKE_scene_objects_iterator_next h iter0). }
  assert (Hin0 : inside h (ID_SCE scene) arr (data iter0) 0).
  { split_and!; [unfold arr; rewrite (preorder_root t); simpl; lia | done |].
    exists (root t), []. split_and!; [by unfold arr; rewrite (preorder_root t) | done | constructor]. }
  pose proof (objects_next_spec h (ID_SCE scene) arr Hall iter0 0 Hin0) as Hnext.
  assert (Hcome : to_come h arr (data iter0) 0 = first_new ∅ (flat_map (objects_of h) arr)).
  { unfold to_come. simpl. by rewrite Hflat. }
  rewrite Hcome in Hnext.
  pose proof (first_new_length (flat_map (objects_of h) arr) ∅) as Hlen.
  unfold scene_objects. unfold bind at 1. rewrite Hfirst.
  destruct (first_new ∅ (flat_map (objects_of h) arr)) as [|ob tl].
  - destruct Hnext as (iter' & -> & Hv). unfold bind, gets, lift. simpl.
    destruct n; simpl; by rewrite Hv.
  - destruct Hnext as (d & k' & -> & Hin & Htl). unfold bind, gets, lift. simpl in *.
    fold h. assert (Hshort : length tl < n) by (unfold h, arr in Hlen; lia).
    by rewrite (scene_objects_yield_spec h (ID_SCE scene) arr Hall tl n ob d k' Hin Htl Hshort).
Qed.

(** The two supporting statements at concrete scenes: C is strictly
    below B, so it is turned down as a destination for B; and the
    objects of the scene with a shared object come out once each. *)
Lemma cycle_guard_descendant_example :
  BKE_collection_move_above 3 0 3 2 world_abc = Some (false, world_abc) ∧
  BKE_collection_move_below 3 0 3 2 world_abc = Some (false, world_abc) ∧
  BKE_collection_move_into 3 0 3 2 world_abc = Some (false, world_abc).
Proof.
  apply (cycle_guard_descendant 3 0 world_abc (mkScene 1 []) tree_abc tree_bc 3).
  - reflexivity.
  - reflexivity.
  - simpl. repeat split; eexists; split; reflexivity.
  - simpl. lia.
  - simpl. repeat split; eexists; split; reflexivity.
  - simpl. lia.
  - simpl. set_solver.
Defined.

Lemma scene_objects_nested_only_example :
  scene_objects 2 4 0 world_shared_object = Some ([Some 10; Some 11], world_shared_object).
Proof.
  apply (scene_objects_nested_only 2 4 0 world_shared_object (mkScene 1 []) tree_shared_object
           (plain "Master Collection" [] [2; 3])).
  - reflexivity.
  - reflexivity.
  - simpl. repeat split; eexists; split; reflexivity.
  - simpl. lia.
  - reflexivity.
  - reflexivity.
  - vm_compute. lia.
Defined.

(* ===================================================================== *)
(** * Further properties of the code *)
(* ===================================================================== *)

(** ** The parent search *)

(** X3.  In a tree without repeated collections the search from the
    root returns the collection that nests the one looked for; it
    returns NULL for a collection that is not strictly below the root,
    the root itself included. *)
Theorem find_collection_parent_correct (h : gmap nat SceneCollection) (t : tree)
    (x : ptr) (fuel : nat) :
  represents h t →
  NoDup (preorder t) →
  height t ≤ fuel →
  (∀ q, is_parent t q x → find_collection_parent fuel h x (root t) = Some (Some q)) ∧
  (x ∉ descendants t → find_collection_parent fuel h x (root t) = Some None) ∧
  find_collection_parent fuel h (root t) (root t) = Some None.
Proof.
  intros Hrep Hnd Hfuel.
  assert (Hnone : ∀ y, y ∉ descendants t → find_collection_parent fuel h y (root t) = Some None).
  { intros y Hy.
    destruct (find_collection_parent_spec h y t Hrep fuel Hfuel) as (r & -> & _ & Hp).
    destruct r as [q|]; [|done]. destruct Hy. by apply (is_parent_descendant _ q), Hp. }
  split_and!.
  - intros q Hq.
    destruct (find_collection_parent_spec h x t Hrep fuel Hfuel) as (r & -> & Hd & Hp).
    destruct (Hd (is_parent_descendant _ _ _ Hq)) as [q' ->].
    by rewrite (is_parent_unique t q' q x Hnd (Hp q' eq_refl) Hq).
  - apply Hnone.
  - apply Hnone. by apply root_not_descendant.
Qed.

Lemma find_collection_parent_correct_example :
  (∀ q, is_parent tree_abc q 3 →
        find_collection_parent 3 (colls world_abc) 3 (root tree_abc) = Some (Some q)) ∧
  (3 ∉ descendants tree_abc →
   find_collection_parent 3 (colls world_abc) 3 (root tree_abc) = Some None) ∧
  find_collection_parent 3 (colls world_abc) (root tree_abc) (root tree_abc) = Some None.
Proof.
  apply (find_collection_parent_correct (colls world_abc) tree_abc 3 3).
  - simpl. repeat split; eexists; split; reflexivity.
  - simpl. repeat constructor; set_solver.
  - simpl. lia.
Defined.

(** ** Linking and unlinking one object *)

Lemma remlink_snoc (l : list ptr) ob : ob ∉ l → BLI_remlink (l ++ [ob]) ob = l.
Proof.
  induction l as [|x l IH]; simpl; intros Hn.
  - by rewrite decide_True.
  - apply not_elem_of_cons in Hn as [Hx Hl]. rewrite decide_False by done. by rewrite IH.
Qed.

Lemma filter_other_remlink (o ob : ptr) (l : list ptr) :
  o ≠ ob → filter (λ x, x = o) (BLI_remlink l ob) = filter (λ x, x = o) l.
Proof.
  intros Hne. induction l as [|x l IH]; [done|]. simpl.
  destruct (decide (x = ob)) as [->|Hx].
  - by rewrite filter_cons_False by done.
  - destruct (decide (x = o)) as [->|Hxo].
    + by rewrite !filter_cons_True, IH by done.
    + by rewrite !filter_cons_False by done.
Qed.

Lemma set_objects_id c : set_objects (objects c) c = c.
Proof. by destruct c. Qed.

(** X4.  Unlinking an object from a collection that links it returns
    true and takes away one link, the first: the number of links to
    the object in the collection drops by exactly one, the links to
    other objects stay, the layers are told of the unlink, and the user
    count of the object drops by one for a scene and stays for a group.
    The list of the collection is the old one with the first link to
    the object taken out, and no other collection changes. *)
Theorem object_remove_first_link (id : ID) (sc ob : ptr) (w : World) (c : SceneCollection) :
  colls w !! sc = Some c →
  ob ∈ objects c →
  (∀ o, id ≠ ID_OB o) →
  ∃ w',
    BKE_collection_object_remove id sc ob false w = Some (true, w') ∧
    S (membership w' sc ob) = membership w sc ob ∧
    (∀ o, o ≠ ob → membership w' sc o = membership w sc o) ∧
    us_of w' ob = (match id with ID_SCE _ => us_of w ob - 1 | _ => us_of w ob end)%Z ∧
    events w' = events w ++ [layer_sync_object_unlink id sc ob] ∧
    colls w' = <[sc := set_objects (BLI_remlink (objects c) ob) c]> (colls w).
Proof.
  intros Hc Hin Hid. unfold BKE_collection_object_remove.
  rewrite (bind_some _ _ _ _ _ (load_some _ _ _ Hc)).
  unfold BLI_findptr. rewrite bool_decide_eq_true_2 by done. simpl.
  unfold bind. rewrite (store_some _ _ _ _ Hc).
  destruct id as [scene|g|o]; [| |by destruct (Hid o)].
  - eexists. split; [reflexivity|]. unfold membership, us_of. simpl.
    rewrite lookup_insert_eq, Hc. simpl. split_and!.
    + by apply filter_eq_remlink.
    + intros o Ho. by rewrite filter_other_remlink.
    + by rewrite lookup_insert_eq.
    + done.
    + done.
  - eexists. split; [reflexivity|]. unfold membership, us_of. simpl.
    rewrite lookup_insert_eq, Hc. simpl. split_and!.
    + by apply filter_eq_remlink.
    + intros o Ho. by rewrite filter_other_remlink.
    + done.
    + done.
    + done.
Qed.

Lemma object_remove_first_link_example :
  ∃ w',
    BKE_collection_object_remove (ID_SCE 0) 3 10 false world_shared_object = Some (true, w') ∧
    S (membership w' 3 10) = membership world_shared_object 3 10 ∧
    (∀ o, o ≠ 10 → membership w' 3 o = membership world_shared_object 3 o) ∧
    us_of w' 10 = (us_of world_shared_object 10 - 1)%Z ∧
    events w' = events world_shared_object ++ [layer_sync_object_unlink (ID_SCE 0) 3 10] ∧
    colls w' = <[3 := set_objects (BLI_remlink (objects (plain "Collection 2" [10; 11] [])) 10)
                        (plain "Collection 2" [10; 11] [])]> (colls world_shared_object).
Proof.
  apply (object_remove_first_link (ID_SCE 0) 3 10 world_shared_object
           (plain "Collection 2" [10; 11] [])).
  - reflexivity.
  - simpl. set_solver.
  - intros o. discriminate.
Defined.

(** X5.  Linking an object a collection does not link and unlinking it
    again gives back the collections as they were and every user count
    as it was; what remains of the two calls are the two notifications
    to the layers, link then unlink. *)
Theorem object_add_remove_round_trip (id : ID) (sc ob : ptr) (w : World) (c : SceneCollection) :
  colls w !! sc = Some c →
  ob ∉ objects c →
  (∀ o, id ≠ ID_OB o) →
  ∃ w1 w2,
    BKE_collection_object_add id sc ob w = Some (true, w1) ∧
    BKE_collection_object_remove id sc ob false w1 = Some (true, w2) ∧
    colls w2 = colls w ∧
    (∀ o, us_of w2 o = us_of w o) ∧
    events w2 = events w ++ [layer_sync_object_link id sc ob; layer_sync_object_unlink id sc ob].
Proof.
  intros Hc Hn Hid.
  exists (linked id sc ob c w). rewrite (object_add_fresh _ _ _ _ _ Hc Hn Hid).
  assert (Hl : colls (linked id sc ob c w) !! sc = Some (set_objects (objects c ++ [ob]) c)).
  { unfold linked. destruct id; simpl; apply lookup_insert_eq. }
  unfold BKE_collection_object_remove.
  rewrite (bind_some _ _ _ _ _ (load_some _ _ _ Hl)).
  unfold BLI_findptr. rewrite bool_decide_eq_true_2 by (simpl; set_solver).
  simpl. unfold bind. rewrite (store_some _ _ _ _ Hl).
  assert (Hback : ∀ h : gmap nat SceneCollection, h !! sc = Some c →
            <[sc := set_objects (BLI_remlink (objects (set_objects (objects c ++ [ob]) c)) ob)
                      (set_objects (objects c ++ [ob]) c)]>
              (<[sc := set_objects (objects c ++ [ob]) c]> h) = h).
  { intros h Hh. rewrite insert_insert_eq. simpl. rewrite remlink_snoc by done.
    apply insert_id. rewrite Hh. f_equal. by destruct c. }
  destruct id as [scene|g|o]; [| |by destruct (Hid o)].
  - eexists. split_and!; [done|reflexivity|..].
    + simpl. by apply Hback.
    + intros o. unfold us_of. simpl. destruct (decide (o = ob)) as [->|Hne].
      * rewrite lookup_insert_eq. simpl. unfold us_of. simpl. rewrite lookup_insert_eq.
        simpl. unfold us_of. lia.
      * by rewrite !lookup_insert_ne by done.
    + simpl. by rewrite <- app_assoc.
  - eexists. split_and!; [done|reflexivity|..].
    + simpl. by apply Hback.
    + done.
    + simpl. by rewrite <- app_assoc.
Qed.

Lemma object_add_remove_round_trip_example :
  ∃ w1 w2,
    BKE_collection_object_add (ID_SCE 0) 2 11 world_shared_object = Some (true, w1) ∧
    BKE_collection_object_remove (ID_SCE 0) 2 11 false w1 = Some (true, w2) ∧
    colls w2 = colls world_shared_object ∧
    (∀ o, us_of w2 o = us_of world_shared_object o) ∧
    events w2 = events world_shared_object ++
                [layer_sync_object_link (ID_SCE 0) 2 11; layer_sync_object_unlink (ID_SCE 0) 2 11].
Proof.
  apply (object_add_remove_round_trip (ID_SCE 0) 2 11 world_shared_object
           (plain "Collection 1" [10] [])).
  - reflexivity.
  - simpl. set_solver.
  - intros o. discriminate.
Defined.

(** ** Layer collections *)

Lemma LayerCollection_ind_all (P : LayerCollection → Prop) :
  (∀ sc f fe ov nested, Forall P nested → P (mkLayerCollection sc f fe ov nested)) → ∀ lc, P lc.
Proof.
  intros Hnode. fix IH 1. intros [sc f fe ov nested]. apply Hnode.
  induction nested as [|lc nested IHn]; constructor; [apply IH | apply IHn].
Qed.

Lemma layer_collection_sync_unfold sc f fe ov ds lc_src :
  layer_collection_sync (mkLayerCollection sc f fe ov ds) lc_src
  = mkLayerCollection sc (flag lc_src) (flag_evaluated lc_src) ov
      (sync_nested ds (layer_collections lc_src)).
Proof. reflexivity. Qed.

(** X6.  Synchronising a LayerCollection with another takes over the
    two flags of the other and nothing else: the LayerCollection and
    everything nested in it keep referring to the SceneCollections they
    referred to, in the same nesting, and the LayerCollections nested
    past the end of the other's list are left as they were. *)
Theorem layer_collection_sync_keeps_shape (lc_dst lc_src : LayerCollection) :
  lc_shape (layer_collection_sync lc_dst lc_src) = lc_shape lc_dst ∧
  flag (layer_collection_sync lc_dst lc_src) = flag lc_src ∧
  flag_evaluated (layer_collection_sync lc_dst lc_src) = flag_evaluated lc_src ∧
  drop (length (layer_collections lc_src)) (layer_collections (layer_collection_sync lc_dst lc_src))
  = drop (length (layer_collections lc_src)) (layer_collections lc_dst).
Proof.
  revert lc_src.
  induction lc_dst as [sc f fe ov ds IH] using LayerCollection_ind_all. intros lc_src.
  rewrite layer_collection_sync_unfold. simpl. split_and!; [|done|done|].
  - f_equal. generalize (layer_collections lc_src).
    induction IH as [|d ds Hd _ IHds]; intros [|s ss]; simpl;
      first [done | f_equal; [apply Hd | apply IHds]].
  - generalize (layer_collections lc_src). clear IH.
    induction ds as [|d ds IHds]; intros [|s ss]; simpl; first [done | apply IHds].
Qed.




Lemma layer_collection_remove_nested_absent sc : ∀ lc,
  sc ∉ preorder (lc_shape lc) → layer_collection_remove_nested sc lc = (lc, []).
Proof.
  induction lc as [sc' f fe ov nested IH] using LayerCollection_ind_all.
  simpl. intros Hn. apply not_elem_of_cons in Hn as [Hsc Hn].
  assert (Hwalk : ∀ l, Forall (λ lc, sc ∉ preorder (lc_shape lc) →
                                     layer_collection_remove_nested sc lc = (lc, [])) l →
            sc ∉ flat_map preorder (map lc_shape l) →
            (fix walk (lb : list LayerCollection) : list LayerCollection * list event :=
               match lb with
               | [] => ([], [])
               | c :: rest =>
                   if decide (scene_collection c = sc) then (rest, [layer_collection_free sc])
                   else
                     let '(c', e1) := layer_collection_remove_nested sc c in
                     let '(rest', e2) := walk rest in
                     (c' :: rest', e1 ++ e2)
               end) l = (l, [])).
  { induction 1 as [|c l Hc _ IHl]; [done|]. simpl. intros Hl.
    apply not_elem_of_app in Hl as [Hc' Hl].
    rewrite decide_False.
    - rewrite (Hc Hc'), (IHl Hl). done.
    - intros <-. apply Hc'. destruct c. simpl. apply elem_of_cons. by left. }
  by rewrite (Hwalk nested IH Hn).
Qed.

Lemma layer_collection_remove_clears_top (sc : ptr) (lb : list LayerCollection) :
  Forall (λ lc, scene_collection lc ≠ sc) (layer_collection_remove sc lb).1.
Proof.
  induction lb as [|lc lb IH]; [constructor|]. simpl.
  destruct (decide (scene_collection lc = sc)) as [Heq|Hne].
  - by destruct (layer_collection_remove sc lb).
  - destruct (layer_collection_remove_nested sc lc) as [lc' e1] eqn:Hlc.
    destruct (layer_collection_remove sc lb) as [rest' e2]. simpl. constructor; [|done].
    destruct lc as [sc' f fe nested]. simpl in Hlc.
    match type of Hlc with (let '(_, _) := ?walk in _) = _ => destruct walk end.
    by injection Hlc as <- _.
Qed.

(** X8.  Taking the instances of a SceneCollection out of the top-level
    list of a layer leaves no top-level LayerCollection that refers to
    it; a list in which nothing refers to it, at any depth, comes back
    as it was, with no LayerCollection freed. *)
Theorem layer_collection_remove_top_level (sc : ptr) (lb : list LayerCollection) :
  Forall (λ lc, scene_collection lc ≠ sc) (layer_collection_remove sc lb).1 ∧
  (Forall (λ lc, sc ∉ preorder (lc_shape lc)) lb → layer_collection_remove sc lb = (lb, [])).
Proof.
  split; [apply layer_collection_remove_clears_top|].
  - induction 1 as [|lc lb Hlc _ IH]; [done|]. simpl.
    rewrite decide_False.
    + by rewrite (layer_collection_remove_nested_absent sc lc Hlc), IH.
    + intros <-. apply Hlc. destruct lc. simpl. apply elem_of_cons. by left.
Qed.

(** X9.  The pass that converts the LayerCollections of a layer asks
    for nothing but conversions of the SceneCollection at hand into a
    group collection, and for none at all where no LayerCollection
    refers to it. *)
Theorem convert_layer_collections_events (sc : ptr) (lc : LayerCollection) :
  Forall (λ e, e = layer_collection_convert sc COLLECTION_TYPE_GROUP)
         (collection_group_convert_layer_collections sc lc) ∧
  (sc ∉ preorder (lc_shape lc) → collection_group_convert_layer_collections sc lc = []) ∧
  (sc ∈ preorder (lc_shape lc) → collection_group_convert_layer_collections sc lc ≠ []).
Proof.
  induction lc as [sc' f fe ov nested IH] using LayerCollection_ind_all. simpl.
  destruct (decide (sc' = sc)) as [->|Hne].
  - split_and!; [by repeat constructor | |done].
    intros Hn. destruct Hn. apply elem_of_cons. by left.
  - assert (Hflat : ∀ l, Forall (λ lc,
                Forall (λ e, e = layer_collection_convert sc COLLECTION_TYPE_GROUP)
                       (collection_group_convert_layer_collections sc lc) ∧
                (sc ∉ preorder (lc_shape lc) → collection_group_convert_layer_collections sc lc = []) ∧
                (sc ∈ preorder (lc_shape lc) → collection_group_convert_layer_collections sc lc ≠ [])) l →
              Forall (λ e, e = layer_collection_convert sc COLLECTION_TYPE_GROUP)
                     (flat_map (collection_group_convert_layer_collections sc) l) ∧
              (sc ∉ flat_map preorder (map lc_shape l) →
               flat_map (collection_group_convert_layer_collections sc) l = []) ∧
              (sc ∈ flat_map preorder (map lc_shape l) →
               flat_map (collection_group_convert_layer_collections sc) l ≠ [])).
    { induction 1 as [|c l (Hc1 & Hc2 & Hc3) _ (IH1 & IH2 & IH3)]; simpl.
      - split_and!; [constructor|done|by intros ?%elem_of_nil].
      - split_and!.
        + apply Forall_app. by split.
        + intros [Hc Hl]%not_elem_of_app. by rewrite (Hc2 Hc), (IH2 Hl).
        + intros [Hc|Hl]%elem_of_app.
          * intros [Hnil _]%app_eq_nil. by apply (Hc3 Hc).
          * intros [_ Hnil]%app_eq_nil. by apply (IH3 Hl). }
    destruct (Hflat nested IH) as (H1 & H2 & H3). split_and!; [done| |].
    + intros [_ Hn]%not_elem_of_cons. by apply H2.
    + intros [?|Hin]%elem_of_cons; [congruence|]. by apply H3.
Qed.

(** ** Freeing a tree of collections *)

Lemma count_links_app ob l k : count_links ob (l ++ k) = (count_links ob l + count_links ob k)%Z.
Proof. unfold count_links. rewrite filter_app, length_app. lia. Qed.

Lemma same_rest_refl w : same_rest w w.
Proof. by repeat split. Qed.

Lemma same_rest_trans w1 w2 w3 : same_rest w1 w2 → same_rest w2 w3 → same_rest w1 w3.
Proof. intros (?&?&?&?) (?&?&?&?). repeat split; congruence. Qed.

Lemma for_each_id_us_min (l : list ptr) : ∀ w,
  ∃ w', for_each l id_us_min w = Some (tt, w') ∧ colls w' = colls w ∧ same_rest w w' ∧
        ∀ ob, us_of w' ob = (us_of w ob - count_links ob l)%Z.
Proof.
  induction l as [|x l IH]; intros w; simpl.
  - exists w. split_and!; [done | done | apply same_rest_refl |].
    intros ob. unfold count_links. simpl. lia.
  - unfold bind. simpl.
    destruct (IH (with_users (<[x := (us_of w x - 1)%Z]> (users w)) w))
      as (w' & -> & Hc & Hr & Hu).
    exists w'. split_and!; [done | done | done |].
    intros ob. rewrite Hu. unfold count_links, us_of at 1. simpl.
    destruct (decide (x = ob)) as [->|Hne].
    + rewrite lookup_insert_eq, filter_cons_True by done. simpl. lia.
    + rewrite lookup_insert_ne, filter_cons_False by done. done.
Qed.

Lemma for_each_MEM_freeN (l : list ptr) : ∀ w,
  ∃ w', for_each l MEM_freeN w = Some (tt, w') ∧
        (∀ p, p ∈ l → colls w' !! p = None) ∧
        (∀ p, p ∉ l → colls w' !! p = colls w !! p) ∧
        (∀ p, colls w !! p = None → colls w' !! p = None) ∧
        same_rest w w' ∧ users w' = users w.
Proof.
  induction l as [|x l IH]; intros w; simpl.
  - exists w. split_and!; try done. by intros p ?%elem_of_nil.
  - unfold bind. simpl.
    destruct (IH (with_colls (delete x (colls w)) w)) as (w' & -> & Hin & Hout & Hnone & Hr & Hu).
    exists w'. simpl in *. split_and!; try done.
    + intros p [->|Hp]%elem_of_cons; [|by apply Hin].
      apply Hnone. apply lookup_delete_eq.
    + intros p [Hx Hp]%not_elem_of_cons. rewrite (Hout p Hp). by rewrite lookup_delete_ne.
    + intros p Hp. apply Hnone. destruct (decide (x = p)) as [->|Hne].
      * apply lookup_delete_eq.
      * by rewrite lookup_delete_ne.
Qed.

Lemma represents_frame h h' t :
  (∀ p, p ∈ preorder t → h' !! p = h !! p) → represents h t → represents h' t.
Proof. intros Hsame. apply represents_ext. intros p Hp. by rewrite Hsame. Qed.

Lemma links_frame (h h' : gmap nat SceneCollection) (l : list ptr) :
  (∀ p, p ∈ l → h' !! p = h !! p) → flat_map (links_of h') l = flat_map (links_of h) l.
Proof.
  induction l as [|x l IH]; intros Hsame; [done|]. simpl. rewrite IH.
  - unfold links_of. rewrite Hsame; [done|]. apply elem_of_cons. by left.
  - intros p Hp. apply Hsame. apply elem_of_cons. by right.
Qed.

Section FreeTree.
Variables (do_id_user : bool) (fuel : nat).

(** The loop of [collection_free] over the nested collections. *)
Lemma free_children (ts : list tree) :
  Forall (λ t, ∀ w, represents (colls w) t → NoDup (preorder t) → height t ≤ fuel →
                    ∃ w', collection_free fuel (root t) do_id_user w = Some (tt, w') ∧
                          freed t do_id_user w w') ts →
  ∀ w, Forall (represents (colls w)) ts → NoDup (flat_map preorder ts) →
       Forall (λ t, height t ≤ fuel) ts →
  ∃ w', for_each (map root ts) (λ nsc, collection_free fuel nsc do_id_user) w = Some (tt, w') ∧
        (∀ p, p ∈ flat_map descendants ts → colls w' !! p = None) ∧
        (∀ p, p ∉ flat_map preorder ts → colls w' !! p = colls w !! p) ∧
        same_rest w w' ∧
        ∀ ob, us_of w' ob
              = (us_of w ob - (if do_id_user
                               then count_links ob (flat_map (links_of (colls w)) (flat_map preorder ts))
                               else 0))%Z.
Proof.
  induction 1 as [|t ts Ht _ IH]; intros w Hrep Hnd Hh.
  - exists w. simpl. split_and!; [done | by intros p ?%elem_of_nil | done | apply same_rest_refl |].
    intros ob. destruct do_id_user; unfold count_links; simpl; lia.
  - apply Forall_cons in Hrep as [Hrt Hrep]. apply Forall_cons in Hh as [Hht Hh].
    simpl in Hnd. apply NoDup_app in Hnd as (Hndt & Hdis & Hnd).
    destruct (Ht w Hrt Hndt Hht) as (w1 & Hrun1 & Hroot1 & Hdesc1 & Hout1 & Hr1 & Hu1).
    assert (Hsame1 : ∀ p, p ∈ flat_map preorder ts → colls w1 !! p = colls w !! p).
    { intros p Hp. apply Hout1. intros Hpt. by apply (Hdis p). }
    destruct (IH w1) as (w' & Hrun & Hdesc & Hout & Hr & Hu); [|done|done|].
    { rewrite Forall_forall in *. intros t' Ht'. apply (represents_frame (colls w)); [|by apply Hrep].
      intros p Hp. apply Hsame1. apply elem_of_flat_map_preorder, Exists_exists. by exists t'. }
    exists w'. simpl. rewrite (bind_some _ _ _ _ _ Hrun1). split_and!; [done|..].
    + intros p [Hp|Hp]%elem_of_app; [|by apply Hdesc].
      rewrite Hout; [by apply Hdesc1|]. intros Hp'. apply (Hdis p); [|done].
      rewrite preorder_root. apply elem_of_cons. by right.
    + intros p [Hpt Hpts]%not_elem_of_app. rewrite (Hout p Hpts). by apply Hout1.
    + by apply (same_rest_trans _ w1).
    + intros ob. rewrite Hu, Hu1. destruct do_id_user; [|lia].
      rewrite flat_map_app, count_links_app, (links_frame (colls w) (colls w1)) by done. lia.
Qed.

Lemma collection_free_tree (t : tree) : ∀ w,
  represents (colls w) t → NoDup (preorder t) → height t ≤ S fuel →
  (∀ t', t' ∈ subtrees t → ∀ w, represents (colls w) t' → NoDup (preorder t') → height t' ≤ fuel →
         ∃ w', collection_free fuel (root t') do_id_user w = Some (tt, w') ∧
               freed t' do_id_user w w') →
  ∃ w', collection_free (S fuel) (root t) do_id_user w = Some (tt, w') ∧ freed t do_id_user w w'.
Proof.
  destruct t as [r ts]. intros w Hrep Hnd Hh IH.
  pose proof Hrep as Hrep'. apply represents_node in Hrep' as [(c & Hc & Hch) Hts].
  apply height_node in Hh. simpl in Hnd. apply NoDup_cons in Hnd as [Hr Hnd].
  simpl root. cbn [collection_free].
  rewrite (bind_some _ _ _ _ _ (load_some _ _ _ Hc)).
  (* the users *)
  assert (Hus : ∃ w1, (if do_id_user
                       then for_each (objects c) id_us_min ;; for_each (filter_objects c) id_us_min
                       else ret tt) w = Some (tt, w1) ∧
                      colls w1 = colls w ∧ same_rest w w1 ∧
                      ∀ ob, us_of w1 ob
                            = (us_of w ob - (if do_id_user
                                             then count_links ob (objects c ++ filter_objects c)
                                             else 0))%Z).
  { destruct do_id_user.
    - destruct (for_each_id_us_min (objects c) w) as (wa & Ha & Hca & Hra & Hua).
      destruct (for_each_id_us_min (filter_objects c) wa) as (wb & Hb & Hcb & Hrb & Hub).
      exists wb. rewrite (bind_some _ _ _ _ _ Ha). split_and!; [done | congruence | |].
      + by apply (same_rest_trans _ wa).
      + intros ob. rewrite Hub, Hua, count_links_app. lia.
    - exists w. split_and!; [done | done | apply same_rest_refl | intros; lia]. }
  destruct Hus as (w1 & Hrun1 & Hc1 & Hr1 & Hu1).
  rewrite (bind_some _ _ _ _ _ Hrun1).
  assert (Hc1' : colls w1 !! r = Some c) by (by rewrite Hc1).
  rewrite (bind_some _ _ _ _ _ (store_some _ _ _ _ Hc1')).
  set (w2 := with_colls (<[r := set_objects [] c]> (colls w1)) w1).
  assert (Hc2 : colls w2 !! r = Some (set_objects [] c)) by apply lookup_insert_eq.
  rewrite (bind_some _ _ _ _ _ (store_some _ _ _ _ Hc2)).
  set (c3 := set_filter_objects [] (set_objects [] c)).
  set (w3 := with_colls (<[r := c3]> (colls w2)) w2).
  assert (Hcolls3 : ∀ p, p ≠ r → colls w3 !! p = colls w !! p).
  { intros p Hp. simpl. by rewrite !lookup_insert_ne, Hc1 by done. }
  assert (Hin_ts : ∀ p, p ∈ flat_map preorder ts → p ≠ r) by (intros p Hp ->; done).
  (* the nested collections *)
  destruct (free_children ts) with (w := w3) as (w4 & Hrun4 & Hdesc4 & Hout4 & Hr4 & Hu4).
  { rewrite Forall_forall. intros t' Ht'. by apply IH. }
  { rewrite Forall_forall in *. intros t' Ht'. apply (represents_frame (colls w)); [|by apply Hts].
    intros p Hp. apply Hcolls3, Hin_ts. apply elem_of_flat_map_preorder, Exists_exists. by exists t'. }
  { done. }
  { done. }
  simpl scene_collections. rewrite Hch. rewrite (bind_some _ _ _ _ _ Hrun4).
  destruct (for_each_MEM_freeN (map root ts) w4) as (w5 & Hrun5 & Hin5 & Hout5 & Hnone5 & Hr5 & Hu5).
  rewrite (bind_some _ _ _ _ _ Hrun5).
  assert (Hroots : ∀ p, p ∈ map root ts → p ∈ flat_map preorder ts) by apply root_in_preorder.
  assert (Hc5 : colls w5 !! r = Some c3).
  { rewrite Hout5, Hout4; [apply lookup_insert_eq|done|]. intros Hp. by apply Hr, Hroots. }
  rewrite (store_some _ _ _ _ Hc5).
  eexists. split; [reflexivity|]. unfold freed. simpl root. split_and!.
  - simpl. rewrite lookup_insert_eq, Hc. done.
  - intros p Hp. unfold descendants in Hp. simpl in Hp. simpl.
    rewrite lookup_insert_ne by (intros <-; done).
    destruct (decide (p ∈ map root ts)) as [Hroot|Hnroot]; [by apply Hin5|].
    apply Hnone5, Hdesc4.
    apply elem_of_flat_map_preorder, Exists_exists in Hp as (t' & Ht' & Hp).
    apply list_elem_of_In, in_flat_map. exists t'. split; [by apply list_elem_of_In|].
    apply list_elem_of_In. rewrite preorder_root in Hp.
    apply elem_of_cons in Hp as [->|Hp]; [|done].
    destruct Hnroot. apply elem_of_map_root. by exists t'.
  - intros p Hp. simpl in Hp. apply not_elem_of_cons in Hp as [Hpr Hp]. simpl.
    rewrite lookup_insert_ne by done. rewrite Hout5, Hout4, Hcolls3; [done..|].
    intros Hroot. by apply Hp, Hroots.
  - destruct Hr1 as (?&?&?&?), Hr4 as (?&?&?&?), Hr5 as (?&?&?&?).
    repeat split; simpl in *; congruence.
  - intros ob. simpl. change (us_of (with_colls _ w5) ob) with (us_of w5 ob).
    assert (us_of w5 ob = us_of w4 ob) as -> by (unfold us_of; by rewrite Hu5).
    rewrite Hu4. change (us_of w3 ob) with (us_of w1 ob). rewrite Hu1.
    destruct do_id_user; [|lia].
    assert (links_of (colls w) r = objects c ++ filter_objects c) as ->
      by (unfold links_of; by rewrite Hc).
    rewrite (links_frame (colls w) (colls w3)).
    + rewrite (count_links_app ob (objects c ++ filter_objects c)). lia.
    + intros p Hp. by apply Hcolls3, Hin_ts.
Qed.

End FreeTree.

Lemma collection_free_total (do_id_user : bool) (t : tree) : ∀ fuel w,
  represents (colls w) t → NoDup (preorder t) → height t ≤ fuel →
  ∃ w', collection_free fuel (root t) do_id_user w = Some (tt, w') ∧ freed t do_id_user w w'.
Proof.
  induction t as [r ts IH] using tree_ind_all. intros fuel w Hrep Hnd Hh.
  destruct fuel as [|fuel]; [simpl in Hh; lia|].
  apply collection_free_tree; [done..|].
  intros t' Ht' w0 Hrep0 Hnd0 Hh0. rewrite Forall_forall in IH. by apply IH.
Qed.

(** X10.  Freeing the collections of a scene whose collections form a
    tree: with fuel for the height of the tree the call goes through;
    the master keeps its struct, name and type and has no objects, no
    filter objects and no nested collections left; every collection
    below the master is deallocated; no struct outside the tree is
    touched; and, when users are released, every object has lost one
    user per link the tree held to it. *)
Theorem master_free_releases (fuel : nat) (scene : ptr) (do_id_user : bool) (w : World)
    (s : Scene) (t : tree) :
  scenes w !! scene = Some s →
  root t = collection s →
  represents (colls w) t →
  NoDup (preorder t) →
  height t ≤ fuel →
  ∃ w', BKE_collection_master_free fuel scene do_id_user w = Some (tt, w') ∧
        freed t do_id_user w w'.
Proof.
  intros Hscene Hroot Hrep Hnd Hh. unfold BKE_collection_master_free.
  rewrite (bind_some _ _ _ _ _ (master_some _ _ _ Hscene)), <- Hroot.
  by apply collection_free_total.
Qed.

Lemma master_free_releases_example :
  ∃ w', BKE_collection_master_free 2 0 true world_shared_object = Some (tt, w') ∧
        freed tree_shared_object true world_shared_object w'.
Proof.
  apply (master_free_releases 2 0 true world_shared_object (mkScene 1 []) tree_shared_object).
  - reflexivity.
  - reflexivity.
  - simpl. repeat split; eexists; split; reflexivity.
  - simpl. repeat constructor; set_solver.
  - simpl. lia.
Defined.

(** X11.  Freeing the collections of a group does the same to the tree
    of the group and releases no user: every user count is as it was. *)
Theorem master_group_free_keeps_users (fuel : nat) (g : ptr) (w : World) (gr : Group)
    (t : tree) :
  groups w !! g = Some gr →
  root t = gr_collection gr →
  represents (colls w) t →
  NoDup (preorder t) →
  height t ≤ fuel →
  ∃ w', BKE_collection_master_group_free fuel g w = Some (tt, w') ∧
        freed t false w w' ∧
        ∀ ob, us_of w' ob = us_of w ob.
Proof.
  intros Hg Hroot Hrep Hnd Hh. unfold BKE_collection_master_group_free, BKE_collection_group_master.
  unfold bind at 1. unfold bind at 1. unfold load_group. rewrite Hg. simpl. rewrite <- Hroot.
  destruct (collection_free_total false t fuel w Hrep Hnd Hh) as (w' & Hrun & Hfreed).
  exists w'. split_and!; [done..|].
  intros ob. destruct Hfreed as (_ & _ & _ & _ & Hu). rewrite Hu. lia.
Qed.

Lemma master_group_free_keeps_users_example :
  ∃ w', BKE_collection_master_group_free 2 7 world_group = Some (tt, w') ∧
        freed tree_group false world_group w' ∧
        ∀ ob, us_of w' ob = us_of world_group ob.
Proof.
  apply (master_group_free_keeps_users 2 7 world_group (mkGroup "Group" 5 (mkSceneLayer [] 0%Z))
           tree_group).
  - reflexivity.
  - reflexivity.
  - simpl. repeat split; eexists; split; reflexivity.
  - simpl. repeat constructor; set_solver.
  - simpl. lia.
Defined.

(** ** Unlinking and removing a collection *)

Section Remlink.
Variables (x : ptr).

Lemma remlink_nested_spec (rec : ptr → M bool) (r : ptr) (c : SceneCollection) (w : World)
    (ts : list tree) :
  colls w !! r = Some c →
  Forall (λ t, (x ∉ descendants t → rec (root t) w = Some (false, w)) ∧
               (x ∈ descendants t →
                ∃ q cq, is_parent t q x ∧ colls w !! q = Some cq ∧
                        rec (root t) w = Some (true, unnested q x cq w))) ts →
  (x ∉ flat_map preorder ts → remlink_nested rec r x (map root ts) w = Some (false, w)) ∧
  (x ∈ flat_map preorder ts →
   ∃ q cq, ((q = r ∧ x ∈ map root ts) ∨ Exists (λ t, is_parent t q x) ts) ∧
           colls w !! q = Some cq ∧
           remlink_nested rec r x (map root ts) w = Some (true, unnested q x cq w)).
Proof.
  intros Hc. induction 1 as [|t ts [Hout Hin] _ [IHout IHin]]; simpl.
  - split; [done | by intros ?%elem_of_nil].
  - destruct (decide (root t = x)) as [Heq|Hne].
    + split.
      * intros Hn. destruct Hn. rewrite preorder_root, Heq. set_solver.
      * intros _. exists r, c. split_and!; [left; set_solver | done |].
        by rewrite (bind_some _ _ _ _ _ (store_some _ _ _ _ Hc)).
    + destruct (decide (x ∈ descendants t)) as [Hd|Hd].
      * split.
        -- intros Hn. destruct Hn. rewrite preorder_root. set_solver.
        -- intros _. destruct (Hin Hd) as (q & cq & Hp & Hq & Hrun).
           exists q, cq. split_and!; [right; by left | done |].
           by rewrite (bind_some _ _ _ _ _ Hrun).
      * rewrite (bind_some _ _ _ _ _ (Hout Hd)). split.
        -- intros Hn. apply IHout. set_solver.
        -- intros Hx. destruct IHin as (q & cq & Hp & Hq & Hrun).
           { apply elem_of_app in Hx as [Hx|Hx]; [|done].
             rewrite preorder_root in Hx. apply elem_of_cons in Hx as [?|?]; [congruence|done]. }
           exists q, cq. split_and!; [|done..].
           destruct Hp as [[-> Hx']|Hex]; [left; set_solver | right; by right].
Qed.

Lemma collection_remlink_spec (t : tree) : ∀ fuel w,
  represents (colls w) t → height t ≤ fuel →
  (x ∉ descendants t → collection_remlink fuel (root t) x w = Some (false, w)) ∧
  (x ∈ descendants t →
   ∃ q cq, is_parent t q x ∧ colls w !! q = Some cq ∧
           collection_remlink fuel (root t) x w = Some (true, unnested q x cq w)).
Proof.
  induction t as [r ts IH] using tree_ind_all. intros fuel w Hrep Hh.
  destruct fuel as [|fuel]; [simpl in Hh; lia|].
  apply height_node in Hh. pose proof Hrep as Hrep'.
  apply represents_node in Hrep' as [(c & Hc & Hch) Hts].
  simpl root. cbn [collection_remlink]. rewrite (bind_some _ _ _ _ _ (load_some _ _ _ Hc)), Hch.
  destruct (remlink_nested_spec (λ sc, collection_remlink fuel sc x) r c w ts Hc) as [Hout Hin].
  { rewrite Forall_forall in *. intros t' Ht'. apply IH; auto. }
  split; [done|]. intros Hx. destruct (Hin Hx) as (q & cq & Hp & Hq & Hrun).
  exists q, cq. split_and!; [|done..]. by apply is_parent_node.
Qed.

End Remlink.

Lemma remove_from_layers_spec (sc : ptr) (sls : list SceneLayer) :
  let sls' := (remove_from_layers sc sls).1 in
  length sls' = length sls ∧
  Forall (λ sl, active_collection sl = 0%Z ∧
                Forall (λ lc, scene_collection lc ≠ sc) (sl_layer_collections sl)) sls'.
Proof.
  induction sls as [|sl sls [IHl IHf]]; simpl; [by split|].
  pose proof (layer_collection_remove_clears_top sc (sl_layer_collections sl)) as Htop.
  destruct (layer_collection_remove sc (sl_layer_collections sl)) as [lb' e1].
  destruct (remove_from_layers sc sls) as [rest' e2]. simpl in *.
  split; [by f_equal|]. by constructor.
Qed.

(** ** The scan for a name in use *)

Section NameScan.
Variables (h : gmap nat SceneCollection) (lookup_sc : ptr) (nm : string).

Lemma name_check_list_exact (rec : list ptr → option bool) (ts : list tree) :
  Forall (represents h) ts →
  Forall (λ t, rec (map root (subtrees t))
               = Some (bool_decide (Exists (holds_name h lookup_sc nm) (descendants t)))) ts →
  name_check_list rec h lookup_sc nm (map root ts)
  = Some (bool_decide (Exists (holds_name h lookup_sc nm) (flat_map preorder ts))).
Proof.
  induction ts as [|t ts IH]; intros Hrep Hrec; [done|].
  apply Forall_cons in Hrep as [Ht Hrep]. apply Forall_cons in Hrec as [Hr Hrec].
  destruct t as [p ts']. apply represents_node in Ht as [(c & Hc & Hch) _].
  cbn [map root name_check_list]. rewrite Hc, Hch. simpl subtrees in Hr. rewrite Hr.
  assert (Hsplit : Exists (holds_name h lookup_sc nm) (flat_map preorder (Node p ts' :: ts)) ↔
                   holds_name h lookup_sc nm p ∨
                   Exists (holds_name h lookup_sc nm) (descendants (Node p ts')) ∨
                   Exists (holds_name h lookup_sc nm) (flat_map preorder ts)).
  { change (flat_map preorder (Node p ts' :: ts))
      with (preorder (Node p ts') ++ flat_map preorder ts).
    rewrite (preorder_root (Node p ts')), Exists_app, Exists_cons. simpl root. tauto. }
  destruct (decide (holds_name h lookup_sc nm p)) as [Hp|Hp].
  - assert (bool_decide (p ≠ lookup_sc) && bool_decide (name c = nm) = true) as ->.
    { destruct Hp as [Hne Hn]. rewrite Hc in Hn. injection Hn as Hn.
      by rewrite !bool_decide_eq_true_2. }
    f_equal. symmetry. apply bool_decide_eq_true_2. apply Hsplit. by left.
  - assert (bool_decide (p ≠ lookup_sc) && bool_decide (name c = nm) = false) as ->.
    { apply andb_false_iff. destruct (decide (p = lookup_sc)) as [->|Hne].
      - left. apply bool_decide_eq_false_2. auto.
      - right. apply bool_decide_eq_false_2. intros Hn. apply Hp. split; [done|].
        by rewrite Hc, <- Hn. }
    destruct (decide (Exists (holds_name h lookup_sc nm) (descendants (Node p ts')))) as [Hd|Hd].
    + rewrite (bool_decide_eq_true_2 _ Hd). f_equal. symmetry. apply bool_decide_eq_true_2.
      apply Hsplit. right. by left.
    + rewrite (bool_decide_eq_false_2 _ Hd), (IH Hrep Hrec). f_equal.
      apply bool_decide_ext. rewrite Hsplit. tauto.
Qed.

Lemma collection_unique_name_check_exact (t : tree) :
  represents h t → ∀ fuel, height t ≤ fuel →
  collection_unique_name_check fuel h (map root (subtrees t)) lookup_sc nm
  = Some (bool_decide (Exists (holds_name h lookup_sc nm) (descendants t))).
Proof.
  induction t as [r ts IH] using tree_ind_all. intros Hrep fuel Hh.
  apply represents_node in Hrep as [_ Hts].
  destruct fuel as [|fuel]; [simpl in Hh; lia|].
  apply height_node in Hh. cbn [collection_unique_name_check subtrees].
  apply name_check_list_exact; [done|].
  rewrite Forall_forall in *. intros t Ht. apply IH; auto.
Qed.

End NameScan.

(** X13.  The scan for a name in use, run over the collections nested
    in the root of a tree, answers true exactly when some collection
    below the root, other than the one being renamed, has that name;
    neither the root nor the collection being renamed counts. *)
Theorem unique_name_check_exact (h : gmap nat SceneCollection) (lookup_sc : ptr) (nm : string)
    (t : tree) (fuel : nat) :
  represents h t →
  height t ≤ fuel →
  ∃ held : bool,
    collection_unique_name_check fuel h (map root (subtrees t)) lookup_sc nm = Some held ∧
    (held = true ↔ ∃ x, x ∈ descendants t ∧ x ≠ lookup_sc ∧ name <$> h !! x = Some nm).
Proof.
  intros Hrep Hh. rewrite (collection_unique_name_check_exact h lookup_sc nm t Hrep fuel Hh).
  eexists. split; [reflexivity|]. rewrite bool_decide_eq_true, Exists_exists. done.
Qed.

Lemma unique_name_check_exact_example :
  ∃ held : bool,
    collection_unique_name_check 3 (colls world_abc) (map root (subtrees tree_abc)) 3 "B"
      = Some held ∧
    (held = true ↔ ∃ x, x ∈ descendants tree_abc ∧ x ≠ 3 ∧
                        name <$> colls world_abc !! x = Some "B"%string).
Proof.
  apply (unique_name_check_exact (colls world_abc) 3 "B" tree_abc 3).
  - simpl. repeat split; eexists; split; reflexivity.
  - simpl. lia.
Defined.

(** ** Renaming to a name in use *)

(** [collection_rename] in one step: the name is cut to the buffer, made
    unique against the store in which the collection already carries
    the cut name, and stored. *)
Lemma collection_rename_unfold `{Externals} fuel id sc nm w m c cm :
  collection_master_from_id id w = Some (m, w) →
  colls w !! sc = Some c →
  colls w !! m = Some cm →
  collection_rename fuel id sc nm w
  = (λ u, (tt, with_colls (<[sc := set_name u c]> (colls w)) w)) <$>
      BLI_uniquename_cb fuel
        (collection_unique_name_check fuel
           (<[sc := set_name (BLI_strncpy nm sizeof_name) c]> (colls w))
           (scene_collections cm) sc)
        "Collection" (BLI_strncpy nm sizeof_name) sizeof_name.
Proof.
  intros Hm Hc Hcm. unfold collection_rename. rewrite (bind_some _ _ _ _ _ Hm).
  rewrite (bind_some _ _ _ _ _ (store_some _ _ _ _ Hc)).
  set (s := BLI_strncpy nm sizeof_name).
  set (w1 := with_colls (<[sc := set_name s c]> (colls w)) w).
  assert (Hc1 : colls w1 !! sc = Some (set_name s c)) by apply lookup_insert_eq.
  rewrite (bind_some _ _ _ _ _ (load_some _ _ _ Hc1)).
  assert (Hcm1 : ∃ cm1, colls w1 !! m = Some cm1 ∧ scene_collections cm1 = scene_collections cm).
  { destruct (decide (m = sc)) as [->|Hne].
    - exists (set_name s c). split; [done|]. simpl. congruence.
    - exists cm. split; [|done]. simpl. by rewrite lookup_insert_ne. }
  destruct Hcm1 as (cm1 & Hcm1 & Hsame).
  unfold bind, gets, lift. rewrite Hcm1, Hsame. simpl name.
  destruct (BLI_uniquename_cb _ _ _ _ _) as [u|]; [|done].
  rewrite (store_some _ _ _ _ Hc1). simpl. unfold w1. simpl. by rewrite insert_insert_eq.
Qed.

(** The scan made while [sc] is being renamed sees the names the other
    collections had before. *)
Lemma name_scan_renamed h t sc c s nm fuel :
  represents h t → height t ≤ fuel → h !! sc = Some c →
  collection_unique_name_check fuel (<[sc := set_name s c]> h) (map root (subtrees t)) sc nm
  = Some (bool_decide (name_in_use h t sc nm)).
Proof.
  intros Hrep Hh Hc.
  rewrite (collection_unique_name_check_exact _ sc nm t); [|
    apply (represents_ext h); [|done]; intros p _;
    destruct (decide (sc = p)) as [<-|Hp];
    [by rewrite lookup_insert_eq, Hc | by rewrite lookup_insert_ne] | done].
  f_equal. apply bool_decide_ext. unfold name_in_use. rewrite !Exists_exists.
  split; intros (x & Hx & Hne & Hn); exists x; (split; [done|]); (split; [done|]).
  - by rewrite lookup_insert_ne in Hn.
  - by rewrite lookup_insert_ne.
Qed.

(** The numbered variants are tried in order, from [start] on. *)
Lemma uniquename_tries_first `{Externals} (check : string → option bool) (nm : string) :
  ∀ d n start,
    d < n →
    (∀ j, start ≤ j < start + d → check (uniquename_numbered nm j) = Some true) →
    check (uniquename_numbered nm (start + d)) = Some false →
    uniquename_tries n check nm start = Some (uniquename_numbered nm (start + d)).
Proof.
  induction d as [|d IH]; intros n start Hn Hheld Hfree; (destruct n as [|n]; [lia|]); simpl.
  - rewrite Nat.add_0_r in *. by rewrite Hfree.
  - rewrite (Hheld start) by lia.
    replace (start + S d) with (S start + d) in * by lia.
    apply IH; [lia| |done]. intros j Hj. apply Hheld. lia.
Qed.

(** X14.  Renaming a collection to a name that another collection
    below the master holds stores the first numbered variant of the
    name that no other collection holds: with the variants 1 to [k]
    taken and variant [k + 1] free and fitting the buffer, the
    collection is named by variant [k + 1], and nothing else changes. *)
Theorem rename_taken_name_numbered `{Externals} (fuel : nat) (id : ID) (sc : ptr) (nm : string)
    (w : World) (tm : tree) (c : SceneCollection) (k : nat) :
  collection_master_from_id id w = Some (root tm, w) →
  represents (colls w) tm →
  height tm ≤ fuel →
  colls w !! sc = Some c →
  nm ≠ EmptyString →
  String.length nm < sizeof_name →
  name_in_use (colls w) tm sc nm →
  (∀ j, 1 ≤ j < S k → name_in_use (colls w) tm sc (uniquename_numbered nm j)) →
  ¬ name_in_use (colls w) tm sc (uniquename_numbered nm (S k)) →
  S k ≤ fuel →
  String.length (uniquename_numbered nm (S k)) < sizeof_name →
  collection_rename fuel id sc nm w
  = Some (tt, with_colls (<[sc := set_name (uniquename_numbered nm (S k)) c]> (colls w)) w).
Proof.
  intros Hm Hrep Hfuel Hc Hne Hlen Hheld Hvar Hfree Hk Hfit.
  destruct tm as [m ts]. pose proof Hrep as Hrep'.
  apply represents_node in Hrep' as [(cm & Hcm & Hch) _]. simpl root in *.
  rewrite (collection_rename_unfold fuel id sc nm w m c cm Hm Hc Hcm), Hch.
  unfold BLI_strncpy at 1 2. rewrite substring_all by lia.
  pose proof (λ s n, name_scan_renamed (colls w) (Node m ts) sc c s n fuel Hrep Hfuel Hc) as Hscan.
  simpl subtrees in Hscan.
  unfold BLI_uniquename_cb. rewrite decide_False by done.
  rewrite Hscan, (bool_decide_eq_true_2 _ Hheld).
  rewrite (uniquename_tries_first _ nm k fuel 1); [| lia | |].
  - simpl. unfold BLI_strncpy. by rewrite substring_all by lia.
  - intros j Hj. rewrite Hscan. f_equal. apply bool_decide_eq_true_2. apply Hvar. lia.
  - rewrite Hscan. f_equal. by apply bool_decide_eq_false_2.
Qed.

Lemma rename_taken_name_numbered_example :
  @collection_rename blender_externals 3 (ID_SCE 0) 3 "B" world_abc
  = Some (tt, with_colls (<[3 := set_name "B.001" (plain "C" [] [])]> (colls world_abc)) world_abc).
Proof.
  apply (@rename_taken_name_numbered blender_externals 3 (ID_SCE 0) 3 "B" world_abc tree_abc
           (plain "C" [] []) 0).
  - reflexivity.
  - simpl. repeat split; eexists; split; reflexivity.
  - simpl. lia.
  - reflexivity.
  - discriminate.
  - simpl. lia.
  - apply (bool_decide_unpack _). vm_compute. exact I.
  - intros j Hj. lia.
  - apply (bool_decide_unpack _). vm_compute. exact I.
  - lia.
  - vm_compute. lia.
Defined.

(** ** Moving a collection beside another *)

Lemma remlink_absent (l : list ptr) x : x ∉ l → BLI_remlink l x = l.
Proof.
  induction l as [|y l IH]; intros Hx; [done|].
  apply not_elem_of_cons in Hx as [Hne Hx]. simpl.
  rewrite decide_False by done. by rewrite IH.
Qed.

Lemma remlink_other (l : list ptr) x y : y ∈ l → y ≠ x → y ∈ BLI_remlink l x.
Proof.
  induction l as [|z l IH]; intros Hy Hne; [by apply elem_of_nil in Hy|].
  simpl. apply elem_of_cons in Hy as [->|Hy].
  - rewrite decide_False by done. apply elem_of_cons. by left.
  - destruct (decide (z = x)); [done|]. apply elem_of_cons. right. by apply IH.
Qed.

(** Insertion before a link of the list: the new link becomes its
    [prev], and taking the new link out again gives the list back. *)
Lemma insert_before_spec (l : list ptr) (dst src : ptr) :
  dst ∈ l → src ∉ l →
  ∃ l', BLI_insertlinkbefore l dst src = Some l' ∧
        link_prev l' dst = Some src ∧ BLI_remlink l' src = l.
Proof.
  intros Hd Hs.
  assert (∃ l', insert_before l dst src = Some l' ∧
                link_prev l' dst = Some src ∧ BLI_remlink l' src = l) as (l' & Hi & Hp & Hr).
  { induction l as [|x l IH]; [by apply elem_of_nil in Hd|].
    apply not_elem_of_cons in Hs as [Hsx Hs]. simpl.
    destruct (decide (x = dst)) as [->|Hne].
    - eexists. split; [done|]. simpl. rewrite !decide_True by done. done.
    - apply elem_of_cons in Hd as [->|Hd]; [done|].
      destruct (IH Hd Hs) as (r & Hr & Hp & Hrem). rewrite Hr. simpl.
      exists (x :: r). split; [done|]. split.
      + destruct l as [|z l]; [by apply elem_of_nil in Hd|]. simpl in Hr.
        destruct (decide (z = dst)) as [->|Hz].
        * injection Hr as <-. simpl. rewrite decide_False by congruence.
          by rewrite decide_True.
        * destruct (insert_before l dst src) as [r'|]; [|done]. injection Hr as <-.
          simpl in *. by rewrite decide_False.
      + simpl. rewrite decide_False by congruence. by rewrite Hrem. }
  exists l'. split; [|done]. unfold BLI_insertlinkbefore.
  destruct l; [by apply elem_of_nil in Hd | done].
Qed.

(** Insertion after a link of the list: the new link becomes its
    [next], and taking the new link out again gives the list back. *)
Lemma insert_after_spec (l : list ptr) (dst src : ptr) :
  dst ∈ l → src ∉ l →
  ∃ l', BLI_insertlinkafter l dst src = Some l' ∧
        link_next l' dst = Some src ∧ BLI_remlink l' src = l.
Proof.
  intros Hd Hs.
  assert (∃ l', insert_after l dst src = Some l' ∧
                link_next l' dst = Some src ∧ BLI_remlink l' src = l) as (l' & Hi & Hp & Hr).
  { induction l as [|x l IH]; [by apply elem_of_nil in Hd|].
    apply not_elem_of_cons in Hs as [Hsx Hs]. simpl.
    destruct (decide (x = dst)) as [->|Hne].
    - eexists. split; [done|]. simpl. rewrite decide_True by done.
      rewrite decide_False by congruence. by rewrite decide_True.
    - apply elem_of_cons in Hd as [->|Hd]; [done|].
      destruct (IH Hd Hs) as (r & Hr & Hp & Hrem). rewrite Hr. simpl.
      exists (x :: r). split; [done|]. simpl. rewrite !decide_False by congruence.
      by rewrite Hrem. }
  exists l'. split; [|done]. unfold BLI_insertlinkafter.
  destruct l; [by apply elem_of_nil in Hd | done].
Qed.

Lemma is_parent_in_tree t q x : is_parent t q x → q ∈ preorder t.
Proof.
  intros (ts & tx & Hs & _)%is_parent_subtree.
  apply subtree_preorder in Hs as (l1 & l2 & -> & _).
  rewrite !elem_of_app. right. left. simpl. apply elem_of_cons. by left.
Qed.

(** What a collection of the tree nests in the store, it nests in the tree. *)
Lemma nested_is_parent h t q c x :
  represents h t → q ∈ preorder t → h !! q = Some c → x ∈ scene_collections c →
  is_parent t q x.
Proof.
  revert t. apply (tree_ind_all (λ t, represents h t → q ∈ preorder t → _ → _ → is_parent t q x)).
  intros sc ts IH. rewrite represents_node, is_parent_node.
  intros [(c' & Hc' & Hch) Hts] Hq Hc Hx. simpl in Hq.
  apply elem_of_cons in Hq as [->|Hq].
  - left. split; [done|]. rewrite <- Hch. congruence.
  - right. rewrite Forall_forall in IH, Hts.
    apply elem_of_flat_map_preorder, Exists_exists in Hq as (t & Ht & Hq).
    apply Exists_exists. exists t. split; [done|]. apply IH; auto.
Qed.

Lemma find_collection_parent_of h t q x fuel :
  represents h t → NoDup (preorder t) → height t ≤ fuel → is_parent t q x →
  find_collection_parent fuel h x (root t) = Some (Some q).
Proof.
  intros Hrep Hnd Hfuel Hq.
  destruct (find_collection_parent_spec h x t Hrep fuel Hfuel) as (r & -> & Hd & Hp).
  destruct (Hd (is_parent_descendant _ _ _ Hq)) as [q' ->].
  by rewrite (is_parent_unique t q' q x Hnd (Hp q' eq_refl) Hq).
Qed.

(** In a tree without repeated collections no list nests one twice. *)
Lemma nested_NoDup h t q c :
  represents h t → NoDup (preorder t) → q ∈ preorder t → h !! q = Some c →
  NoDup (scene_collections c).
Proof.
  revert t. apply (tree_ind_all (λ t, represents h t → NoDup (preorder t) → q ∈ preorder t → _ → _)).
  intros sc ts IH. rewrite represents_node. intros [(c' & Hc' & Hch) Hts] Hnd Hq Hc.
  simpl in Hnd, Hq. apply NoDup_cons in Hnd as [_ Hnd].
  apply elem_of_cons in Hq as [->|Hq].
  - assert (c' = c) as -> by congruence. rewrite Hch. by apply NoDup_map_root.
  - rewrite Forall_forall in IH, Hts.
    apply elem_of_flat_map_preorder, Exists_exists in Hq as (t & Ht & Hq).
    apply (IH t); auto. by apply (flat_map_NoDup_elem preorder ts).
Qed.

Lemma set_scene_collections_id c : set_scene_collections (scene_collections c) c = c.
Proof. by destruct c. Qed.

(** What the three moves find before they touch the lists, when the
    source heads the tree [tS] with parent [P], the destination lies
    outside [tS] and has parent [Q]. *)
Lemma move_ready (fuel : nat) (w : World) (t tS : tree) (P Q dst : ptr) (cQ : SceneCollection) :
  represents (colls w) t → NoDup (preorder t) → height t ≤ fuel →
  subtree tS t → is_parent t P (root tS) → is_parent t Q dst → dst ∉ preorder tS →
  colls w !! Q = Some cQ →
  (root t ≠ root tS ∧ root t ≠ dst ∧ root tS ≠ dst) ∧
  is_collection_in_tree fuel (colls w) dst (root tS) = Some false ∧
  find_collection_parent fuel (colls w) (root tS) (root t) = Some (Some P) ∧
  find_collection_parent fuel (colls w) dst (root t) = Some (Some Q) ∧
  (∃ cP, colls w !! P = Some cP) ∧
  dst ∈ BLI_remlink (scene_collections cQ) (root tS) ∧
  (root tS ∉ BLI_remlink (scene_collections cQ) (root tS)) ∧
  (P ≠ Q → BLI_remlink (scene_collections cQ) (root tS) = scene_collections cQ).
Proof.
  intros Hrep Hnd Hfuel HsS HP HQ Hout HcQ.
  pose proof (root_not_descendant t Hnd) as Hroot.
  assert (Hsd : root tS ≠ dst).
  { intros <-. apply Hout. rewrite preorder_root. apply elem_of_cons. by left. }
  destruct (is_parent_allocated _ _ _ _ Hrep HQ) as (cQ' & HcQ' & Hdin).
  assert (cQ' = cQ) as -> by congruence.
  split_and!.
  - intros Heq. apply Hroot. rewrite Heq. by apply (is_parent_descendant _ P).
  - intros Heq. apply Hroot. rewrite Heq. by apply (is_parent_descendant _ Q).
  - done.
  - rewrite (is_collection_in_tree_spec (colls w) tS).
    + f_equal. apply bool_decide_eq_false_2. intros Hin. apply Hout.
      rewrite preorder_root. apply elem_of_cons. by right.
    + by apply (subtree_represents _ _ t).
    + pose proof (subtree_height _ _ HsS). lia.
  - by apply find_collection_parent_of.
  - by apply find_collection_parent_of.
  - destruct (is_parent_allocated _ _ _ _ Hrep HP) as (cP & HcP & _). by exists cP.
  - apply remlink_other; [done | congruence].
  - apply remlink_not_elem.
    apply (nested_NoDup (colls w) t Q); [done..| |done]. by apply (is_parent_in_tree _ _ dst).
  - intros Hne. apply remlink_absent. intros Hin. apply Hne.
    apply (is_parent_unique t P Q (root tS)); [done..|].
    apply (nested_is_parent (colls w) _ _ cQ); [done| |done..].
    by apply (is_parent_in_tree _ _ dst).
Qed.

(** The store after the source has left the list of [P] and the list
    of [Q] has been replaced by [l]. *)
Lemma move_stored (w : World) (P Q src : ptr) (cP cQ : SceneCollection) (l : list ptr) :
  colls w !! P = Some cP → colls w !! Q = Some cQ →
  (P ≠ Q → BLI_remlink (scene_collections cQ) src = scene_collections cQ) →
  let w1 := with_colls (<[P := set_scene_collections (BLI_remlink (scene_collections cP) src) cP]>
                          (colls w)) w in
  ∃ cQ1, colls w1 !! Q = Some cQ1 ∧
         scene_collections cQ1 = BLI_remlink (scene_collections cQ) src ∧
         set_scene_collections l cQ1 = set_scene_collections l cQ.
Proof.
  intros HcP HcQ Hsame w1. destruct (decide (P = Q)) as [->|Hne].
  - assert (cP = cQ) as -> by congruence.
    eexists. split; [apply lookup_insert_eq|]. done.
  - exists cQ. split; [simpl; by rewrite lookup_insert_ne|]. split; [|done].
    symmetry. by apply Hsame.
Qed.

(** ** Removing an object from every collection *)

Lemma master_collection_frame id w w' m :
  master_collection_from_id id w = Some (m, w) →
  scenes w' = scenes w → groups w' = groups w →
  master_collection_from_id id w' = Some (m, w').
Proof.
  intros Hm Hs Hg. destruct id as [scene|g|ob]; simpl in *.
  - unfold BKE_collection_master, bind, load_scene in *. rewrite Hs.
    destruct (scenes w !! scene); simpl in *; [|done]. unfold ret in *. congruence.
  - unfold BKE_collection_group_master, bind, load_group in *. rewrite Hg.
    destruct (groups w !! g); simpl in *; [|done]. unfold ret in *. congruence.
  - done.
Qed.

(** What one removal does to the store of collections, whatever it
    does to the user counts. *)
Lemma object_remove_colls id sc ob free_us w c :
  colls w !! sc = Some c → (∀ o, id ≠ ID_OB o) →
  ∃ w', BKE_collection_object_remove id sc ob free_us w
        = Some (bool_decide (ob ∈ objects c), w') ∧
        colls w' = <[sc := set_objects (BLI_remlink (objects c) ob) c]> (colls w) ∧
        scenes w' = scenes w ∧ groups w' = groups w.
Proof.
  intros Hc Hid. unfold BKE_collection_object_remove.
  rewrite (bind_some _ _ _ _ _ (load_some _ _ _ Hc)). unfold BLI_findptr.
  destruct (decide (ob ∈ objects c)) as [Hin|Hout].
  - rewrite (bool_decide_eq_true_2 _ Hin). simpl.
    unfold bind at 1. rewrite (store_some _ _ _ _ Hc).
    destruct free_us.
    + unfold BKE_libblock_free_us, bind, id_us_min, emit, modify, gets, ret. simpl.
      destruct (decide _); eexists; (split; [reflexivity|]); done.
    + destruct id as [sce|g|o]; [| |by destruct (Hid o)];
        unfold bind, id_us_min, emit, modify, ret; simpl;
        eexists; (split; [reflexivity|]); done.
  - rewrite (bool_decide_eq_false_2 _ Hout). simpl. exists w. split; [done|].
    rewrite remlink_absent by done. by rewrite set_objects_id, insert_id.
Qed.

(** The loop over the array visits the collections from the cursor on. *)
Lemma collections_object_remove_rounds_each id (arr : list ptr) ob free_us : ∀ n k removed w,
  k < length arr → length arr ≤ k + n →
  collections_object_remove_rounds n (at_index id arr k) id ob free_us removed w
  = object_remove_each id ob free_us (drop k arr) removed w.
Proof.
  induction n as [|n IH]; intros k removed w Hk Hn; [lia|].
  destruct (arr !! k) as [sc|] eqn:Hsc; [|apply lookup_ge_None in Hsc; lia].
  rewrite (drop_S _ _ _ Hsc).
  cbn [collections_object_remove_rounds object_remove_each at_index valid current].
  rewrite Hsc. unfold bind, lift.
  destruct (BKE_collection_object_remove id sc ob free_us w) as [[r w1]|]; [|done].
  destruct (decide (S k < length arr)) as [Hlt|Hge].
  - fold (at_index id arr k). rewrite next_at_index by done. by apply IH; lia.
  - rewrite drop_ge by lia. simpl.
    unfold BKE_scene_collections_iterator_next. simpl. rewrite decide_False by done.
    by destruct n.
Qed.

(** Every collection of the list loses its first link to the object;
    the answer tells whether one of them had a link. *)
Lemma object_remove_each_spec id ob free_us (l : list ptr) : ∀ removed w,
  (∀ o, id ≠ ID_OB o) → NoDup l → (∀ sc, sc ∈ l → is_Some (colls w !! sc)) →
  ∃ w', object_remove_each id ob free_us l removed w
        = Some (removed || bool_decide (Exists (λ sc, ob ∈ objects_of (colls w) sc) l), w') ∧
        (∀ sc, sc ∈ l → objects_of (colls w') sc = BLI_remlink (objects_of (colls w) sc) ob) ∧
        (∀ p, p ∉ l → colls w' !! p = colls w !! p) ∧
        (∀ p, scene_collections <$> colls w' !! p = scene_collections <$> colls w !! p).
Proof.
  induction l as [|sc l IH]; intros removed w Hid Hnd Hall.
  - exists w. split_and!; [|by intros sc ?%elem_of_nil|done|done].
    cbn [object_remove_each]. rewrite (bool_decide_eq_false_2 (Exists _ []))
      by (by intros ?%Exists_nil).
    by rewrite orb_false_r.
  - apply NoDup_cons in Hnd as [Hsc Hnd].
    destruct (Hall sc ltac:(apply elem_of_cons; by left)) as [c Hc].
    destruct (object_remove_colls id sc ob free_us w c Hc Hid) as (w1 & Hrun & Hcolls & _).
    assert (Hother : ∀ p, p ≠ sc → colls w1 !! p = colls w !! p)
      by (intros p Hp; rewrite Hcolls; by rewrite lookup_insert_ne).
    destruct (IH (removed || bool_decide (ob ∈ objects c)) w1 Hid Hnd)
      as (w' & Hrest & Hobs & Hframe & Hshape).
    { intros p Hp. rewrite Hother; [|intros ->; done].
      apply Hall. apply elem_of_cons. by right. }
    exists w'. cbn [object_remove_each]. rewrite (bind_some _ _ _ _ _ Hrun), Hrest.
    split_and!.
    + do 2 f_equal. rewrite <- orb_assoc. f_equal.
      assert (Hex : Exists (λ x, ob ∈ objects_of (colls w1) x) l
                    ↔ Exists (λ x, ob ∈ objects_of (colls w) x) l).
      { rewrite !Exists_exists. split; intros (x & Hx & Hin); exists x; (split; [done|]);
          unfold objects_of in *; (rewrite Hother in * || rewrite <- Hother);
          try done; intros ->; done. }
      destruct (decide (ob ∈ objects c)) as [Hin|Hout].
      * rewrite (bool_decide_eq_true_2 _ Hin). simpl. symmetry. apply bool_decide_eq_true_2.
        apply Exists_cons. left. unfold objects_of. by rewrite Hc.
      * rewrite (bool_decide_eq_false_2 _ Hout). simpl. apply bool_decide_ext.
        rewrite Exists_cons, Hex. unfold objects_of at 2. rewrite Hc. tauto.
    + intros p [->|Hp]%elem_of_cons.
      * unfold objects_of. rewrite (Hframe sc Hsc), Hcolls, lookup_insert_eq, Hc. done.
      * rewrite (Hobs p Hp). unfold objects_of. rewrite Hother; [done|]. intros ->. done.
    + intros p Hp. apply not_elem_of_cons in Hp as [Hne Hp].
      rewrite (Hframe p Hp). by apply Hother.
    + intros p. rewrite Hshape. destruct (decide (p = sc)) as [->|Hne].
      * rewrite Hcolls, lookup_insert_eq, Hc. done.
      * by rewrite Hother.
Qed.

(** X21.  Removing an object from every collection of an owner.  With
    the collections of the owner forming a tree, and the rigid-body
    collaborator leaving collections, scenes and groups alone, the call
    visits every collection of the tree, the master included: each one
    loses its first link to the object, the nesting stays as it was,
    collections outside the tree are untouched, and the answer is true
    exactly when some collection of the tree linked the object. *)
Theorem collections_object_remove_everywhere (rigidbody : ptr → ptr → M unit)
    (fuel : nat) (id : ID) (ob : ptr) (free_us : bool) (w : World) (t : tree) :
  (∀ scene w0, ∃ w1, rigidbody scene ob w0 = Some (tt, w1) ∧ colls w1 = colls w0 ∧
                     scenes w1 = scenes w0 ∧ groups w1 = groups w0) →
  master_collection_from_id id w = Some (root t, w) →
  represents (colls w) t →
  NoDup (preorder t) →
  height t ≤ fuel →
  ∃ removed w',
    BKE_collections_object_remove rigidbody fuel id ob free_us w = Some (removed, w') ∧
    (removed = true ↔ ∃ sc, sc ∈ preorder t ∧ ob ∈ objects_of (colls w) sc) ∧
    (∀ sc, sc ∈ preorder t →
           objects_of (colls w') sc = BLI_remlink (objects_of (colls w) sc) ob) ∧
    (∀ p, p ∉ preorder t → colls w' !! p = colls w !! p) ∧
    represents (colls w') t.
Proof.
  intros Hhook Hm Hrep Hnd Hfuel.
  assert (Hid : ∀ o, id ≠ ID_OB o) by (intros o ->; done).
  assert (∃ w1, match id with
                | ID_SCE scene => rigidbody scene ob
                | ID_GR _ => ret tt
                | _ => BLI_assert false
                end w = Some (tt, w1) ∧ colls w1 = colls w ∧
                scenes w1 = scenes w ∧ groups w1 = groups w)
    as (w1 & Hpre & Hcolls & Hscenes & Hgroups).
  { destruct id as [scene|g|o]; [apply Hhook | by exists w | by destruct (Hid o)]. }
  pose proof (master_collection_frame id w w1 _ Hm Hscenes Hgroups) as Hm1.
  assert (Hrep1 : represents (colls w1) t) by (by rewrite Hcolls).
  destruct (object_remove_each_spec id ob free_us (preorder t) false w1 Hid Hnd)
    as (w' & Hrun & Hobs & Hframe & Hshape).
  { intros sc Hsc. by apply (represents_allocated _ t). }
  rewrite Hcolls in Hrun, Hobs, Hframe, Hshape.
  eexists _, w'. split_and!.
  - unfold BKE_collections_object_remove. rewrite (bind_some _ _ _ _ _ Hpre).
    rewrite (bind_some _ _ _ _ _ (begin_at_index fuel id w1 t Hm1 Hrep1 Hfuel)).
    change (tot (data (at_index id (preorder t) 0))) with (length (preorder t)).
    rewrite (collections_object_remove_rounds_each id (preorder t) ob free_us
               (length (preorder t)) 0 false w1); [exact Hrun | | lia].
    rewrite preorder_root. simpl. lia.
  - simpl. rewrite bool_decide_eq_true, Exists_exists. done.
  - done.
  - done.
  - apply (represents_ext (colls w)); [|done]. intros p _. apply Hshape.
Qed.

Lemma collections_object_remove_everywhere_example :
  ∃ removed w',
    BKE_collections_object_remove no_rigidbody 2 (ID_SCE 0) 10 false world_shared_object
    = Some (removed, w') ∧
    (removed = true ↔ ∃ sc, sc ∈ preorder tree_shared_object ∧
                            10 ∈ objects_of (colls world_shared_object) sc) ∧
    (∀ sc, sc ∈ preorder tree_shared_object →
           objects_of (colls w') sc = BLI_remlink (objects_of (colls world_shared_object) sc) 10) ∧
    (∀ p, p ∉ preorder tree_shared_object → colls w' !! p = colls world_shared_object !! p) ∧
    represents (colls w') tree_shared_object.
Proof.
  apply (collections_object_remove_everywhere no_rigidbody 2 (ID_SCE 0) 10 false
           world_shared_object tree_shared_object).
  - intros scene w0. by exists w0.
  - reflexivity.
  - simpl. repeat split; eexists; split; reflexivity.
  - simpl. repeat constructor; set_solver.
  - simpl. lia.
Defined.

(** ** Copying a tree of collections *)

Lemma copy_of_node h d ds s ss :
  copy_of h (Node d ds) (Node s ss)
  ↔ Forall2 (λ tD tS, twin h (root tD) (root tS) ∧ copy_of h tD tS) ds ss.
Proof.
  simpl. revert ss. induction ds as [|x ds IH]; intros [|y ss].
  - split; [intros _; constructor | done].
  - split; [done | intros Hf; inversion Hf].
  - split; [done | intros Hf; inversion Hf].
  - rewrite Forall2_cons, <- IH. tauto.
Qed.

Lemma twin_frame h h' d s :
  h' !! d = h !! d → h' !! s = h !! s → twin h d s → twin h' d s.
Proof. intros Hd Hs (cd & cs & ? & ? & ?). exists cd, cs. split_and!; congruence. Qed.

Lemma copy_of_frame h h' tD : ∀ tS,
  (∀ p, p ∈ descendants tD → h' !! p = h !! p) →
  (∀ p, p ∈ descendants tS → h' !! p = h !! p) →
  copy_of h tD tS → copy_of h' tD tS.
Proof.
  induction tD as [d ds IH] using tree_ind_all. intros [s ss] HD HS.
  rewrite !copy_of_node. unfold descendants in HD, HS. simpl in HD, HS.
  intros Hall. revert IH HD HS. induction Hall as [|x y ds ss [Htw Hc] _ IHall]; intros IH HD HS.
  - constructor.
  - apply Forall_cons in IH as [IHx IH]. constructor.
    + split.
      * apply (twin_frame h); [apply HD | apply HS | done];
          simpl; rewrite elem_of_app, preorder_root; left; apply elem_of_cons; by left.
      * apply IHx; [| |done]; intros p Hp; [apply HD | apply HS];
          simpl; rewrite elem_of_app, preorder_root; left; apply elem_of_cons; by right.
    + apply IHall; [done| |]; intros p Hp; [apply HD | apply HS];
        simpl; rewrite elem_of_app; by right.
Qed.

Lemma for_each_id_us_plus (l : list ptr) : ∀ w,
  ∃ w', for_each l id_us_plus w = Some (tt, w') ∧ colls w' = colls w ∧ same_rest w w' ∧
        ∀ ob, us_of w' ob = (us_of w ob + count_links ob l)%Z.
Proof.
  induction l as [|x l IH]; intros w; simpl.
  - exists w. split_and!; [done | done | apply same_rest_refl |].
    intros ob. unfold count_links. simpl. lia.
  - unfold bind. simpl.
    destruct (IH (with_users (<[x := (us_of w x + 1)%Z]> (users w)) w))
      as (w' & -> & Hc & Hr & Hu).
    exists w'. split_and!; [done | done | done |].
    intros ob. rewrite Hu. unfold count_links, us_of at 1. simpl.
    destruct (decide (x = ob)) as [->|Hne].
    + rewrite lookup_insert_eq, filter_cons_True by done. simpl. lia.
    + rewrite lookup_insert_ne, filter_cons_False by done. done.
Qed.

Lemma fresh_allocated w p : fresh w → is_Some (colls w !! p) → p < brk w.
Proof.
  intros Hf [c Hc]. destruct (decide (p < brk w)); [done|].
  rewrite Hf in Hc by lia. done.
Qed.

(** [BLI_duplicatelist]: one new struct per link, at consecutive
    addresses, each with the bytes of the original. *)
Lemma duplicatelist_spec (l : list ptr) : ∀ w,
  fresh w → (∀ p, p ∈ l → is_Some (colls w !! p)) →
  ∃ w', BLI_duplicatelist l w = Some (seq (brk w) (length l), w') ∧
        brk w' = brk w + length l ∧
        (∀ i s, l !! i = Some s → colls w' !! (brk w + i) = colls w !! s) ∧
        (∀ p, p < brk w → colls w' !! p = colls w !! p) ∧
        fresh w' ∧
        (scenes w' = scenes w ∧ groups w' = groups w ∧ events w' = events w) ∧
        users w' = users w.
Proof.
  induction l as [|x l IH]; intros w Hf Hall.
  - exists w. simpl. rewrite Nat.add_0_r. split_and!; done.
  - destruct (Hall x ltac:(apply elem_of_cons; by left)) as [c Hc].
    set (w1 := with_brk (S (brk w)) (with_colls (<[brk w := c]> (colls w)) w)).
    assert (Hlow : ∀ p, p < brk w → colls w1 !! p = colls w !! p).
    { intros p Hp. simpl. rewrite lookup_insert_ne by lia. done. }
    assert (Hf1 : fresh w1).
    { intros p Hp. simpl in *. rewrite lookup_insert_ne by lia. apply Hf. lia. }
    destruct (IH w1 Hf1) as (w' & Hrun & Hbrk & Hcopies & Hframe & Hf' & Hrest & Hus).
    { intros p Hp. rewrite Hlow.
      - apply Hall. apply elem_of_cons. by right.
      - apply fresh_allocated; [done|]. apply Hall. apply elem_of_cons. by right. }
    exists w'. cbn [BLI_duplicatelist length seq]. unfold MEM_dupallocN.
    unfold bind at 1. unfold bind at 1. rewrite (load_some _ _ _ Hc). unfold alloc.
    fold w1. unfold bind at 1. simpl brk in Hrun. rewrite Hrun. split_and!.
    + done.
    + rewrite Hbrk. simpl. lia.
    + intros [|i] s Hs; simpl in Hs.
      * injection Hs as <-. rewrite Nat.add_0_r, Hframe by (simpl; lia).
        simpl. by rewrite lookup_insert_eq.
      * replace (brk w + S i) with (brk w1 + i) by (simpl; lia).
        rewrite (Hcopies i s Hs). apply Hlow. apply fresh_allocated; [done|].
        apply Hall. apply elem_of_cons. right. by apply list_elem_of_lookup_2 in Hs.
    + intros p Hp. rewrite Hframe by (simpl; lia). by apply Hlow.
    + done.
    + by destruct Hrest as (? & ? & ?).
    + by destruct Hrest as (? & ? & ?).
    + by destruct Hrest as (? & ? & ?).
    + done.
Qed.

Lemma copy_twin (cs : SceneCollection) (l : list ptr) :
  set_scene_collections l (set_filter_objects (filter_objects cs) (set_objects (objects cs) cs))
  = set_scene_collections l cs.
Proof. by destruct cs. Qed.

Lemma elem_of_flat_map_descendants x ts :
  x ∈ flat_map descendants ts ↔ Exists (λ t, x ∈ descendants t) ts.
Proof.
  induction ts as [|t ts IH]; simpl.
  - rewrite Exists_nil. split; [by intros ?%elem_of_nil | done].
  - rewrite elem_of_app, Exists_cons, IH. done.
Qed.

Section CopyTree.
Variables (no_user_refcount : bool) (fuel : nat).

(** The last loop of [BKE_collection_copy_data], over the duplicates
    [dsts] of the collections the source nests. *)
Lemma copy_children (ss : list tree) :
  Forall (λ tS, ∀ w dst cd cs,
            represents (colls w) tS → colls w !! root tS = Some cs →
            colls w !! dst = Some cd → dst ∉ preorder tS → fresh w →
            ∃ w' ds, BKE_collection_copy_data fuel dst (root tS) no_user_refcount w
                     = Some (tt, w') ∧
                     copied (Node dst ds) tS no_user_refcount cd cs w w') ss →
  ∀ dsts w,
    Forall (represents (colls w)) ss → fresh w → NoDup dsts →
    (∀ d, d ∈ dsts → d ∉ flat_map preorder ss) →
    Forall2 (λ d s, is_Some (colls w !! d) ∧ colls w !! d = colls w !! root s) dsts ss →
    ∃ w' ds,
      copy_nested (λ d s, BKE_collection_copy_data fuel d s no_user_refcount)
        (map root ss) dsts w = Some (tt, w') ∧
      map root ds = dsts ∧
      Forall (represents (colls w')) ds ∧
      Forall2 (λ tD tS, twin (colls w') (root tD) (root tS) ∧ copy_of (colls w') tD tS) ds ss ∧
      NoDup (flat_map descendants ds) ∧
      (∀ p, p ∈ flat_map descendants ds → brk w ≤ p < brk w') ∧
      (∀ p, p < brk w → p ∉ dsts → colls w' !! p = colls w !! p) ∧
      fresh w' ∧
      brk w ≤ brk w' ∧
      (scenes w' = scenes w ∧ groups w' = groups w ∧ events w' = events w) ∧
      ∀ ob, us_of w' ob
            = (us_of w ob + (if no_user_refcount then 0
                             else count_links ob (flat_map (links_of (colls w))
                                                    (flat_map preorder ss))))%Z.
Proof.
  induction 1 as [|s ss Hs _ IH]; intros dsts w Hrep Hf Hnd Hout Hdup.
  - apply Forall2_nil_inv_r in Hdup as ->. exists w, []. simpl.
    split_and!; [done | done | constructor | constructor | constructor
                 | by intros p ?%elem_of_nil | done | done | done | done | done | done |].
    intros ob. destruct no_user_refcount; unfold count_links; simpl; lia.
  - apply Forall2_cons_inv_r in Hdup as (d & dsts' & [Hd Hds] & Hdup & ->).
    apply Forall_cons in Hrep as [Hrs Hrep]. apply NoDup_cons in Hnd as [Hdd Hnd].
    assert (Hlow : ∀ p, p ∈ flat_map preorder (s :: ss) → p < brk w ∧ p ≠ d).
    { intros p Hp. split.
      - apply fresh_allocated; [done|].
        apply elem_of_flat_map_preorder, Exists_exists in Hp as (t & Ht & Hp).
        apply (represents_allocated _ t); [|done].
        apply elem_of_cons in Ht as [->|Ht]; [done|].
        rewrite Forall_forall in Hrep. by apply Hrep.
      - intros ->. apply (Hout d); [apply elem_of_cons; by left | done]. }
    assert (Hdlow : ∀ x, x ∈ d :: dsts' → x < brk w).
    { intros x Hx. apply fresh_allocated; [done|].
      apply elem_of_cons in Hx as [->|Hx]; [by destruct Hd|].
      apply list_elem_of_lookup in Hx as [i Hi].
      destruct (Forall2_lookup_l _ _ _ _ _ Hdup Hi) as (y & _ & [Hy _]). done. }
    destruct (represents_allocated _ _ (root s) Hrs) as [cs Hcs].
    { rewrite preorder_root. apply elem_of_cons. by left. }
    assert (Hcd : colls w !! d = Some cs) by congruence.
    destruct (Hs w d cs cs Hrs Hcs Hcd) as (w1 & ds_d & Hrun1 & Hcopied); [|done|].
    { intros Hin. apply (Hout d); [apply elem_of_cons; by left|].
      simpl. apply elem_of_app. by left. }
    destruct Hcopied as (Hroot1 & Hrep1 & Hcopy1 & Hnd1 & Hrange1 & Hframe1 & Hf1 & Hbrk1
                         & Hrest1 & Hus1).
    simpl root in *. simpl subtrees in *.
    assert (Hsame1 : ∀ p, p ∈ flat_map preorder ss → colls w1 !! p = colls w !! p).
    { intros p Hp. destruct (Hlow p) as [? ?]; [simpl; apply elem_of_app; by right|].
      by apply Hframe1. }
    destruct (IH dsts' w1) as (w' & ds' & Hrun & Hroots & Hreps & Hcopies & Hnds & Hranges
                               & Hframe & Hf' & Hbrk & Hrest & Hus); [|done|done| | |].
    { rewrite Forall_forall in *. intros t Ht. apply (represents_frame (colls w)); [|by apply Hrep].
      intros p Hp. apply Hsame1. apply elem_of_flat_map_preorder, Exists_exists. by exists t. }
    { intros x Hx Hin. apply (Hout x); [apply elem_of_cons; by right|].
      simpl. apply elem_of_app. by right. }
    { apply Forall2_same_length_lookup. split; [by apply Forall2_length in Hdup|].
      intros i x y Hx Hy. destruct (Forall2_lookup_lr _ _ _ _ _ _ Hdup Hx Hy) as [Hsome Heq].
      assert (Hxd : x ≠ d) by (intros ->; apply Hdd; by apply list_elem_of_lookup_2 in Hx).
      assert (Hxlow : x < brk w).
      { apply Hdlow. apply elem_of_cons. right. by apply list_elem_of_lookup_2 in Hx. }
      rewrite (Hframe1 x Hxlow Hxd). rewrite Hsame1; [done|].
      apply root_in_preorder. apply elem_of_map_root. exists y. split; [|done].
      by apply list_elem_of_lookup_2 in Hy. }
    assert (Hkeep : ∀ p, p ∈ preorder (Node d ds_d) → colls w' !! p = colls w1 !! p).
    { intros p Hp. rewrite preorder_root in Hp. apply elem_of_cons in Hp as [->|Hp].
      - apply Hframe; [apply (Nat.lt_le_trans _ (brk w)); [|done]; apply Hdlow;
                         apply elem_of_cons; by left | done].
      - destruct (Hrange1 p Hp) as [Hge Hlt]. apply Hframe; [done|].
        intros Hin. cut (p < brk w); [lia|]. apply Hdlow. apply elem_of_cons. by right. }
    assert (Hkeeps : ∀ p, p ∈ preorder s → colls w' !! p = colls w !! p).
    { intros p Hp. destruct (Hlow p) as [Hpl Hpd]; [simpl; apply elem_of_app; by left|].
      rewrite Hframe; [by apply Hframe1 | lia |].
      intros Hin. apply (Hout p); [apply elem_of_cons; by right|].
      simpl. apply elem_of_app. by left. }
    exists w', (Node d ds_d :: ds'). cbn [map copy_nested].
    rewrite (bind_some _ _ _ _ _ Hrun1). split_and!.
    + done.
    + simpl. by rewrite Hroots.
    + constructor; [|done]. by apply (represents_frame (colls w1)).
    + constructor; [|done]. split.
      * simpl. exists (set_scene_collections (map root ds_d) cs), cs. split_and!.
        -- rewrite Hkeep by (rewrite preorder_root; apply elem_of_cons; by left).
           rewrite Hroot1. by rewrite copy_twin.
        -- rewrite Hkeeps by (rewrite preorder_root; apply elem_of_cons; by left). done.
        -- done.
      * apply (copy_of_frame (colls w1)); [| |done].
        -- intros p Hp. apply Hkeep. rewrite preorder_root. apply elem_of_cons. by right.
        -- intros p Hp. rewrite Hkeeps by (rewrite preorder_root; apply elem_of_cons; by right).
           symmetry. destruct (Hlow p) as [? ?]; [|by apply Hframe1].
           simpl. apply elem_of_app. left. rewrite preorder_root. apply elem_of_cons. by right.
    + simpl. apply NoDup_app. split_and!; [done| |done].
      intros p Hp1 Hp2. specialize (Hrange1 p Hp1). specialize (Hranges p Hp2). lia.
    + intros p. simpl. intros [Hp|Hp]%elem_of_app.
      * specialize (Hrange1 p Hp). lia.
      * specialize (Hranges p Hp). lia.
    + intros p Hp Hnin. apply not_elem_of_cons in Hnin as [Hpd Hnin].
      rewrite Hframe by (done || lia). by apply Hframe1.
    + done.
    + lia.
    + destruct Hrest as (? & ? & ?), Hrest1 as (? & ? & ?). congruence.
    + destruct Hrest as (? & ? & ?), Hrest1 as (? & ? & ?). congruence.
    + destruct Hrest as (? & ? & ?), Hrest1 as (? & ? & ?). congruence.
    + intros ob. rewrite Hus, Hus1. destruct no_user_refcount; [lia|].
      simpl. rewrite flat_map_app, count_links_app.
      rewrite (links_frame (colls w) (colls w1) (flat_map preorder ss)) by done. lia.
Qed.

End CopyTree.

Lemma flat_map_preorder_NoDup (ds : list tree) :
  NoDup (map root ds) → NoDup (flat_map descendants ds) →
  (∀ p, p ∈ map root ds → p ∉ flat_map descendants ds) →
  NoDup (flat_map preorder ds).
Proof.
  induction ds as [|d ds IH]; intros Hroots Hdesc Hdis; [constructor|].
  simpl in *. apply NoDup_cons in Hroots as [Hd Hroots].
  apply NoDup_app in Hdesc as (Hdd & Hdisj & Hdesc).
  rewrite preorder_root. simpl. apply NoDup_cons. split.
  - rewrite elem_of_app. intros [Hin|Hin].
    + apply (Hdis (root d)); [apply elem_of_cons; by left | apply elem_of_app; by left].
    + apply elem_of_flat_map_preorder, Exists_exists in Hin as (t & Ht & Hin).
      rewrite preorder_root in Hin. apply elem_of_cons in Hin as [Heq|Hin].
      * apply Hd. apply elem_of_map_root. by exists t.
      * apply (Hdis (root d)); [apply elem_of_cons; by left|]. apply elem_of_app. right.
        apply elem_of_flat_map_descendants, Exists_exists. by exists t.
  - apply NoDup_app. split_and!; [done| |].
    + intros p Hp Hin.
      apply elem_of_flat_map_preorder, Exists_exists in Hin as (t & Ht & Hin).
      rewrite preorder_root in Hin. apply elem_of_cons in Hin as [->|Hin].
      * apply (Hdis (root t)); [|apply elem_of_app; by left].
        apply elem_of_cons. right. apply elem_of_map_root. by exists t.
      * apply (Hdisj p Hp). apply elem_of_flat_map_descendants, Exists_exists. by exists t.
    + apply IH; [done..|]. intros p Hp Hin.
      apply (Hdis p); [apply elem_of_cons; by right | apply elem_of_app; by right].
Qed.

(** One call of [BKE_collection_copy_data], given what the calls on the
    nested collections do. *)
Lemma copy_data_node (no_user_refcount : bool) (fuel : nat) (r : ptr) (ss : list tree) :
  Forall (λ tS, ∀ w dst cd cs,
            represents (colls w) tS → colls w !! root tS = Some cs →
            colls w !! dst = Some cd → dst ∉ preorder tS → fresh w →
            ∃ w' ds, BKE_collection_copy_data fuel dst (root tS) no_user_refcount w
                     = Some (tt, w') ∧
                     copied (Node dst ds) tS no_user_refcount cd cs w w') ss →
  ∀ w dst cd cs,
    represents (colls w) (Node r ss) → colls w !! r = Some cs →
    colls w !! dst = Some cd → dst ∉ preorder (Node r ss) → fresh w →
    ∃ w' ds, BKE_collection_copy_data (S fuel) dst r no_user_refcount w = Some (tt, w') ∧
             copied (Node dst ds) (Node r ss) no_user_refcount cd cs w w'.
Proof.
  intros IH w dst cd cs Hrep Hcs Hcd Hout Hf.
  pose proof Hrep as Hrep'. apply represents_node in Hrep' as [(cs' & Hcs' & Hch) Hss].
  assert (cs' = cs) as -> by congruence.
  simpl in Hout. apply not_elem_of_cons in Hout as [Hdr Hout].
  assert (Hdlow : dst < brk w) by (apply fresh_allocated; [done | by exists cd]).
  assert (Hlow : ∀ p, p ∈ flat_map preorder ss → p < brk w ∧ p ≠ dst).
  { intros p Hp. split; [|intros ->; done]. apply fresh_allocated; [done|].
    apply (represents_allocated _ (Node r ss)); [done|]. simpl. apply elem_of_cons. by right. }
  cbn [BKE_collection_copy_data].
  (* objects *)
  rewrite (bind_some _ _ _ _ _ (load_some _ _ _ Hcs)).
  rewrite (bind_some _ _ _ _ _ (store_some _ _ _ _ Hcd)).
  set (c1 := set_objects (objects cs) cd).
  set (w1 := with_colls (<[dst := c1]> (colls w)) w).
  assert (Hc1 : colls w1 !! dst = Some c1) by apply lookup_insert_eq.
  assert (Hrun2 : ∃ w2, (if no_user_refcount then ret tt
                         else do dst0 <- load dst; for_each (objects dst0) id_us_plus) w1
                        = Some (tt, w2) ∧ colls w2 = colls w1 ∧ same_rest w1 w2 ∧
                        ∀ ob, us_of w2 ob
                              = (us_of w1 ob + (if no_user_refcount then 0
                                                else count_links ob (objects cs)))%Z).
  { destruct no_user_refcount.
    - exists w1. split_and!; [done | done | apply same_rest_refl | intros; lia].
    - rewrite (bind_some _ _ _ _ _ (load_some _ _ _ Hc1)). apply for_each_id_us_plus. }
  destruct Hrun2 as (w2 & Hrun2 & Hcolls2 & Hr2 & Hus2).
  rewrite (bind_some _ _ _ _ _ Hrun2).
  (* filter objects *)
  assert (Hcs2 : colls w2 !! r = Some cs).
  { rewrite Hcolls2. simpl. by rewrite lookup_insert_ne. }
  rewrite (bind_some _ _ _ _ _ (load_some _ _ _ Hcs2)).
  assert (Hc2 : colls w2 !! dst = Some c1) by (by rewrite Hcolls2).
  rewrite (bind_some _ _ _ _ _ (store_some _ _ _ _ Hc2)).
  set (c3 := set_filter_objects (filter_objects cs) c1).
  set (w3 := with_colls (<[dst := c3]> (colls w2)) w2).
  assert (Hc3 : colls w3 !! dst = Some c3) by apply lookup_insert_eq.
  assert (Hrun4 : ∃ w4, (if no_user_refcount then ret tt
                         else do dst0 <- load dst; for_each (filter_objects dst0) id_us_plus) w3
                        = Some (tt, w4) ∧ colls w4 = colls w3 ∧ same_rest w3 w4 ∧
                        ∀ ob, us_of w4 ob
                              = (us_of w3 ob + (if no_user_refcount then 0
                                                else count_links ob (filter_objects cs)))%Z).
  { destruct no_user_refcount.
    - exists w3. split_and!; [done | done | apply same_rest_refl | intros; lia].
    - rewrite (bind_some _ _ _ _ _ (load_some _ _ _ Hc3)). apply for_each_id_us_plus. }
  destruct Hrun4 as (w4 & Hrun4 & Hcolls4 & Hr4 & Hus4).
  rewrite (bind_some _ _ _ _ _ Hrun4).
  (* the structs below dst are those of w, but for dst *)
  assert (Hcolls4' : ∀ p, p ≠ dst → colls w4 !! p = colls w !! p).
  { intros p Hp. rewrite Hcolls4. simpl. rewrite lookup_insert_ne, Hcolls2 by done.
    simpl. by rewrite lookup_insert_ne. }
  assert (Hbrk4 : brk w4 = brk w).
  { destruct Hr2 as (_ & _ & _ & Hb2), Hr4 as (_ & _ & _ & Hb4). simpl in *. congruence. }
  assert (Hf4 : fresh w4).
  { intros p Hp. rewrite Hbrk4 in Hp. rewrite Hcolls4' by lia. by apply Hf. }
  assert (Hcs4 : colls w4 !! r = Some cs) by (by rewrite Hcolls4').
  rewrite (bind_some _ _ _ _ _ (load_some _ _ _ Hcs4)).
  (* the duplicates *)
  destruct (duplicatelist_spec (scene_collections cs) w4 Hf4)
    as (w5 & Hrun5 & Hbrk5 & Hdups & Hframe5 & Hf5 & Hrest5 & Hus5).
  { intros p Hp. rewrite Hch in Hp. apply root_in_preorder in Hp.
    destruct (Hlow p Hp) as [_ Hpd]. rewrite Hcolls4' by done.
    apply (represents_allocated _ (Node r ss)); [done|]. simpl. apply elem_of_cons. by right. }
  rewrite (bind_some _ _ _ _ _ Hrun5). rewrite Hbrk4 in *.
  set (dups := seq (brk w) (length (scene_collections cs))) in *.
  assert (Hc5 : colls w5 !! dst = Some c3).
  { rewrite Hframe5 by done. by rewrite Hcolls4, Hc3. }
  rewrite (bind_some _ _ _ _ _ (store_some _ _ _ _ Hc5)).
  set (c6 := set_scene_collections dups c3).
  set (w6 := with_colls (<[dst := c6]> (colls w5)) w5).
  assert (Hcolls6 : ∀ p, p < brk w → p ≠ dst → colls w6 !! p = colls w !! p).
  { intros p Hp Hpd. simpl. rewrite lookup_insert_ne by done.
    rewrite Hframe5 by done. by apply Hcolls4'. }
  assert (Hrlow : r < brk w) by (apply fresh_allocated; [done | by exists cs]).
  assert (Hcs6 : colls w6 !! r = Some cs) by (rewrite Hcolls6; done).
  assert (Hc6 : colls w6 !! dst = Some c6) by apply lookup_insert_eq.
  rewrite (bind_some _ _ _ _ _ (load_some _ _ _ Hcs6)).
  rewrite (bind_some _ _ _ _ _ (load_some _ _ _ Hc6)).
  assert (Hf6 : fresh w6).
  { intros p Hp. simpl in *. rewrite lookup_insert_ne by lia. by apply Hf5. }
  assert (Hdups_range : ∀ d, d ∈ dups → brk w ≤ d < brk w5).
  { intros d Hd. apply elem_of_seq in Hd. lia. }
  (* the nested collections *)
  destruct (copy_children no_user_refcount fuel ss IH dups w6)
    as (w' & ds & Hrun & Hroots & Hreps & Hcopies & Hnds & Hranges & Hframe & Hf' & Hbrk
        & Hrest & Hus).
  { rewrite Forall_forall in *. intros t Ht. apply (represents_frame (colls w)); [|by apply Hss].
    intros p Hp. destruct (Hlow p) as [? ?]; [|by apply Hcolls6].
    apply elem_of_flat_map_preorder, Exists_exists. by exists t. }
  { done. }
  { apply NoDup_seq. }
  { intros d Hd Hin. destruct (Hlow d Hin) as [? _]. specialize (Hdups_range d Hd). lia. }
  { apply Forall2_same_length_lookup. split.
    - unfold dups. rewrite length_seq, Hch, length_map. done.
    - intros i d s Hd Hs. unfold dups in Hd. apply lookup_seq in Hd as [-> Hi].
      assert (Hroot_i : scene_collections cs !! i = Some (root s))
        by (rewrite Hch, list_lookup_fmap, Hs; done).
      assert (Hs_in : root s ∈ flat_map preorder ss).
      { apply root_in_preorder, elem_of_map_root. exists s. split; [|done].
        by apply list_elem_of_lookup_2 in Hs. }
      destruct (Hlow _ Hs_in) as [Hsl Hsd].
      assert (Heq : colls w6 !! (brk w + i) = colls w6 !! root s).
      { simpl. rewrite !lookup_insert_ne by lia.
        rewrite (Hdups i _ Hroot_i). by rewrite Hframe5. }
      split; [|done]. rewrite Heq, Hcolls6 by done.
      apply (represents_allocated _ (Node r ss)); [done|]. simpl. apply elem_of_cons. by right. }
  simpl scene_collections at 1. rewrite Hch.
  change (scene_collections c6) with dups.
  exists w', ds. split; [exact Hrun|].
  assert (Hbrk6 : brk w6 = brk w5) by done.
  assert (Hdd : dst ∉ dups) by (intros Hd; specialize (Hdups_range _ Hd); lia).
  assert (Hdst' : colls w' !! dst = Some c6).
  { rewrite Hframe; [done | rewrite Hbrk6; lia | done]. }
  unfold copied. simpl root. simpl subtrees. split_and!.
  - by rewrite Hdst', Hroots.
  - apply represents_node. split; [|done]. exists c6. split; [done|]. by rewrite Hroots.
  - by apply copy_of_node.
  - unfold descendants. simpl. apply flat_map_preorder_NoDup; [|done|].
    + rewrite Hroots. apply NoDup_seq.
    + rewrite Hroots. intros p Hp Hin. specialize (Hdups_range p Hp).
      specialize (Hranges p Hin). lia.
  - intros p Hp. unfold descendants in Hp. simpl in Hp.
    apply elem_of_flat_map_preorder, Exists_exists in Hp as (t & Ht & Hp).
    rewrite preorder_root in Hp. apply elem_of_cons in Hp as [->|Hp].
    + assert (Hin : root t ∈ dups).
      { rewrite <- Hroots. apply elem_of_map_root. by exists t. }
      specialize (Hdups_range _ Hin). lia.
    + assert (Hin : p ∈ flat_map descendants ds).
      { apply elem_of_flat_map_descendants, Exists_exists. by exists t. }
      specialize (Hranges p Hin). lia.
  - intros p Hp Hpd. rewrite Hframe; [by apply Hcolls6 | rewrite Hbrk6; lia |].
    intros Hin. specialize (Hdups_range p Hin). lia.
  - done.
  - lia.
  - destruct Hrest as (? & ? & ?), Hrest5 as (? & ? & ?), Hr4 as (? & ? & ? & ?),
      Hr2 as (? & ? & ? & ?). simpl in *. congruence.
  - destruct Hrest as (? & ? & ?), Hrest5 as (? & ? & ?), Hr4 as (? & ? & ? & ?),
      Hr2 as (? & ? & ? & ?). simpl in *. congruence.
  - destruct Hrest as (? & ? & ?), Hrest5 as (? & ? & ?), Hr4 as (? & ? & ? & ?),
      Hr2 as (? & ? & ? & ?). simpl in *. congruence.
  - intros ob. rewrite Hus.
    assert (us_of w6 ob = us_of w4 ob) as -> by (unfold us_of; simpl; by rewrite Hus5).
    rewrite Hus4. change (us_of w3 ob) with (us_of w2 ob). rewrite Hus2.
    change (us_of w1 ob) with (us_of w ob).
    destruct no_user_refcount; [lia|].
    simpl. unfold links_of at 2. rewrite Hcs.
    rewrite (count_links_app ob (objects cs ++ filter_objects cs)).
    rewrite (count_links_app ob (objects cs)).
    change (<[dst:=c6]> (colls w5)) with (colls w6).
    rewrite (links_frame (colls w) (colls w6) (flat_map preorder ss)); [lia|].
    intros p Hp. destruct (Hlow p Hp) as [? ?]. by apply Hcolls6.
Qed.

(** X22.  Copying a tree of collections.  With the source heading a
    tree of the store, the destination an allocated collection outside
    that tree, and the allocator handing out unused addresses, the call
    goes through with recursion depth for the height of the tree.
    Afterwards the destination keeps its name, type and group and has
    the objects and filter objects of the source; below it hangs a copy
    of what the source nests, in the same nesting, made of newly
    allocated structs that repeat the name, type, group, objects and
    filter objects of the originals; the source tree and every other
    struct that was there are unchanged; and every object has gained
    one user per link of the source tree, or none when user counting is
    switched off. *)
Theorem copy_data_deep_copy (fuel : nat) (dst : ptr) (no_user_refcount : bool) (w : World)
    (tS : tree) (cd cs : SceneCollection) :
  represents (colls w) tS →
  height tS ≤ fuel →
  colls w !! root tS = Some cs →
  colls w !! dst = Some cd →
  dst ∉ preorder tS →
  fresh w →
  ∃ w' tD,
    BKE_collection_copy_data fuel dst (root tS) no_user_refcount w = Some (tt, w') ∧
    root tD = dst ∧
    copied tD tS no_user_refcount cd cs w w'.
Proof.
  intros Hrep Hh Hcs Hcd Hout Hf.
  cut (∃ w' ds, BKE_collection_copy_data fuel dst (root tS) no_user_refcount w = Some (tt, w') ∧
                copied (Node dst ds) tS no_user_refcount cd cs w w').
  { intros (w' & ds & Hrun & Hcopied). by exists w', (Node dst ds). }
  revert fuel Hh w dst cd cs Hrep Hcs Hcd Hout Hf.
  induction tS as [r ss IH] using tree_ind_all. intros fuel Hh.
  destruct fuel as [|fuel]; [simpl in Hh; lia|].
  apply height_node in Hh. apply copy_data_node.
  rewrite Forall_forall in *. intros t Ht. apply IH; auto.
Qed.

Lemma copy_data_deep_copy_example :
  ∃ w' tD,
    BKE_collection_copy_data 2 1 (root tree_bc) false world_abc = Some (tt, w') ∧
    root tD = 1 ∧
    copied tD tree_bc false (plain "A" [] [2]) (plain "B" [] [3]) world_abc w'.
Proof.
  apply (copy_data_deep_copy 2 1 false world_abc tree_bc (plain "A" [] [2]) (plain "B" [] [3])).
  - simpl. repeat split; eexists; split; reflexivity.
  - simpl. lia.
  - reflexivity.
  - reflexivity.
  - simpl. set_solver.
  - intros p Hp. simpl in Hp. unfold world_abc. simpl.
    rewrite !lookup_insert_ne by lia. apply lookup_empty.
Defined.

(** ** The tree after a move *)

Lemma prune_node x r ts :
  prune x (Node r ts) = Node r (map (prune x) (filter (λ t, root t ≠ x) ts)).
Proof.
  simpl. f_equal. induction ts as [|t ts IH]; [done|].
  destruct (decide (root t = x)) as [Heq|Hne].
  - by rewrite filter_cons_False by (intros ?; done).
  - rewrite filter_cons_True by done. simpl. by rewrite IH.
Qed.

Lemma graft_node q ins r ts :
  graft q ins (Node r ts)
  = Node r (if decide (r = q) then ins (map (graft q ins) ts) else map (graft q ins) ts).
Proof.
  simpl. assert ((fix go (l : list tree) : list tree :=
                    match l with
                    | [] => []
                    | t' :: l' => graft q ins t' :: go l'
                    end) ts = map (graft q ins) ts) as ->; [|done].
  induction ts as [|t ts IH]; [done|]. simpl. by rewrite IH.
Qed.

Lemma prune_root x t : root (prune x t) = root t.
Proof. by destruct t. Qed.

Lemma graft_root q ins t : root (graft q ins t) = root t.
Proof. by destruct t. Qed.

Lemma prune_absent x t : x ∉ preorder t → prune x t = t.
Proof.
  induction t as [r ts IH] using tree_ind_all. intros Hx. rewrite prune_node. f_equal.
  simpl in Hx. apply not_elem_of_cons in Hx as [_ Hx].
  induction ts as [|t ts IHts]; [done|].
  apply Forall_cons in IH as [IHt IH]. simpl in Hx. apply not_elem_of_app in Hx as [Ht Hts].
  rewrite filter_cons_True.
  - simpl. by rewrite IHt, IHts.
  - intros Heq. apply Ht. rewrite preorder_root, Heq. apply elem_of_cons. by left.
Qed.

Lemma prune_list_absent x (l : list tree) :
  x ∉ flat_map preorder l → map (prune x) (filter (λ t, root t ≠ x) l) = l.
Proof.
  intros Hx. pose proof (prune_absent x (Node 0 l)) as Hp. rewrite prune_node in Hp.
  destruct (decide (x = 0)) as [->|Hne].
  - pose proof (prune_absent 0 (Node 1 l)) as Hq. rewrite prune_node in Hq.
    assert (Hn : 0 ∉ preorder (Node 1 l)) by (simpl; apply not_elem_of_cons; split; [lia|done]).
    specialize (Hq Hn). by injection Hq.
  - assert (Hn : x ∉ preorder (Node 0 l)) by (simpl; apply not_elem_of_cons; split; done).
    specialize (Hp Hn). by injection Hp.
Qed.

Lemma graft_absent q ins t : q ∉ preorder t → graft q ins t = t.
Proof.
  induction t as [r ts IH] using tree_ind_all. intros Hq. rewrite graft_node.
  simpl in Hq. apply not_elem_of_cons in Hq as [Hne Hq].
  rewrite decide_False by congruence. f_equal.
  induction ts as [|t ts IHts]; [done|].
  apply Forall_cons in IH as [IHt IH]. simpl in Hq. apply not_elem_of_app in Hq as [Ht Hts].
  simpl. by rewrite IHt, IHts.
Qed.

Lemma graft_list_absent q ins (l : list tree) :
  q ∉ flat_map preorder l → map (graft q ins) l = l.
Proof.
  induction l as [|t l IH]; [done|]. simpl. intros [Ht Hl]%not_elem_of_app.
  by rewrite graft_absent, IH.
Qed.

Lemma remlink_filter (l : list ptr) x : NoDup l → BLI_remlink l x = filter (λ y, y ≠ x) l.
Proof.
  induction l as [|y l IH]; intros Hnd; [done|].
  apply NoDup_cons in Hnd as [Hy Hnd]. simpl. destruct (decide (y = x)) as [->|Hne].
  - rewrite filter_cons_False by (intros ?; done). rewrite <- IH by done.
    by rewrite remlink_absent.
  - rewrite filter_cons_True by done. by rewrite IH.
Qed.

Lemma map_root_filter x (ts : list tree) :
  map root (map (prune x) (filter (λ t, root t ≠ x) ts)) = filter (λ y, y ≠ x) (map root ts).
Proof.
  induction ts as [|t ts IH]; [done|]. simpl. destruct (decide (root t = x)) as [Heq|Hne].
  - rewrite !filter_cons_False by (intros ?; done). done.
  - rewrite !filter_cons_True by done. simpl. by rewrite prune_root, IH.
Qed.

(** The store in which every list of the pruned tree has lost [x] holds
    the pruned tree. *)
Lemma prune_represents h h1 x t :
  represents h t → NoDup (preorder t) → root t ≠ x →
  (∀ q c, q ∈ preorder (prune x t) → h !! q = Some c →
          ∃ c1, h1 !! q = Some c1 ∧ scene_collections c1 = BLI_remlink (scene_collections c) x) →
  represents h1 (prune x t).
Proof.
  induction t as [r ts IH] using tree_ind_all. intros Hrep Hnd Hr Hrel.
  apply represents_node in Hrep as [(c & Hc & Hch) Hts]. rewrite prune_node in *.
  simpl in Hnd. apply NoDup_cons in Hnd as [_ Hnd].
  apply represents_node. split.
  - destruct (Hrel r c) as (c1 & Hc1 & Hl1); [simpl; apply elem_of_cons; by left | done |].
    exists c1. split; [done|]. rewrite Hl1, Hch, map_root_filter.
    apply remlink_filter. by apply NoDup_map_root.
  - rewrite Forall_forall in *. intros t' Ht'. pose proof Ht' as Hin.
    apply list_elem_of_fmap in Ht' as (t0 & -> & Ht0).
    apply list_elem_of_filter in Ht0 as [Hroot Ht0].
    apply IH; [done | by apply Hts | by apply (flat_map_NoDup_elem preorder ts) | done |].
    intros q cq Hq Hcq. apply Hrel; [|done]. simpl. apply elem_of_cons. right.
    apply elem_of_flat_map_preorder, Exists_exists. by exists (prune x t0).
Qed.

Lemma subtree_root_in s t : subtree s t → root s ∈ preorder t.
Proof.
  intros (l1 & l2 & -> & _)%subtree_preorder. rewrite !elem_of_app. right. left.
  rewrite preorder_root. apply elem_of_cons. by left.
Qed.

Lemma subtree_same_root s t : NoDup (preorder t) → subtree s t → root s = root t → s = t.
Proof.
  destruct t as [r ts]. intros Hnd Hs Hr. apply subtree_node in Hs as [->|Hex]; [done|].
  exfalso. simpl in *. apply NoDup_cons in Hnd as [Hnin _]. apply Hnin. rewrite <- Hr.
  apply Exists_exists in Hex as (t & Ht & Hs).
  apply elem_of_flat_map_preorder, Exists_exists. exists t. split; [done|].
  by apply subtree_root_in.
Qed.

(** In a tree without repeated collections, the one of the nested trees
    that holds [x], with the nested trees before and after it, which do
    not hold [x]. *)
Lemma nested_split (ts : list tree) x :
  NoDup (flat_map preorder ts) → x ∈ flat_map preorder ts →
  ∃ l1 t0 l2, ts = l1 ++ t0 :: l2 ∧ x ∈ preorder t0 ∧
              (x ∉ flat_map preorder l1) ∧ (x ∉ flat_map preorder l2).
Proof.
  intros Hnd Hx. apply elem_of_flat_map_preorder, Exists_exists in Hx as (t0 & Ht0 & Hx).
  apply list_elem_of_split in Ht0 as (l1 & l2 & ->). exists l1, t0, l2.
  rewrite flat_map_app in Hnd. simpl in Hnd.
  apply NoDup_app in Hnd as (_ & Hdis1 & Hnd). apply NoDup_app in Hnd as (_ & Hdis2 & _).
  split_and!; [done | done | |].
  - intros Hin. apply (Hdis1 x Hin). apply elem_of_app. by left.
  - intros Hin. by apply (Hdis2 x Hx).
Qed.

(** Pruning takes away the collections of the subtree and no other. *)
Lemma prune_preorder tS t :
  NoDup (preorder t) → subtree tS t → root t ≠ root tS →
  preorder (prune (root tS) t) ++ preorder tS ≡ₚ preorder t.
Proof.
  induction t as [r ts IH] using tree_ind_all. intros Hnd Hs Hr.
  apply subtree_node in Hs as [->|Hex]; [done|]. rewrite prune_node.
  simpl in Hnd. apply NoDup_cons in Hnd as [_ Hnd].
  apply Exists_exists in Hex as (t1 & Ht1 & Hs1).
  assert (Hin : root tS ∈ flat_map preorder ts).
  { apply elem_of_flat_map_preorder, Exists_exists. exists t1. split; [done|].
    by apply subtree_root_in. }
  destruct (nested_split ts (root tS) Hnd Hin) as (l1 & t0 & l2 & -> & Hx0 & Hx1 & Hx2).
  assert (Hs0 : subtree tS t0).
  { apply elem_of_app in Ht1 as [Ht1|Ht1].
    - destruct Hx1. apply elem_of_flat_map_preorder, Exists_exists. exists t1.
      split; [done | by apply subtree_root_in].
    - apply elem_of_cons in Ht1 as [->|Ht1]; [done|].
      destruct Hx2. apply elem_of_flat_map_preorder, Exists_exists. exists t1.
      split; [done | by apply subtree_root_in]. }
  assert (Hnd0 : NoDup (preorder t0)).
  { apply (flat_map_NoDup_elem preorder (l1 ++ t0 :: l2)); [done|].
    apply elem_of_app. right. apply elem_of_cons. by left. }
  rewrite filter_app, map_app, (prune_list_absent _ l1 Hx1).
  simpl. rewrite flat_map_app. simpl.
  destruct (decide (root t0 = root tS)) as [Heq|Hne].
  - rewrite filter_cons_False by (intros ?; done).
    rewrite (prune_list_absent _ l2 Hx2).
    assert (tS = t0) as -> by (by apply subtree_same_root).
    rewrite flat_map_app. rewrite <- !app_assoc. simpl.
    apply Permutation_skip, Permutation_app_head, Permutation_app_comm.
  - rewrite filter_cons_True by done. simpl. rewrite (prune_list_absent _ l2 Hx2).
    rewrite flat_map_app. simpl. apply Forall_app in IH as [_ IH].
    apply Forall_cons in IH as [IH0 _]. specialize (IH0 Hnd0 Hs0 Hne).
    rewrite <- IH0. rewrite <- !app_assoc. simpl.
    apply Permutation_skip, Permutation_app_head, Permutation_app_head,
      Permutation_app_comm.
Qed.

(** The store that differs at [Q] alone, where it lists the roots of
    [ins] of what it listed, holds the grafted tree. *)
Lemma graft_represents h1 h2 Q ins t c1 :
  represents h1 t →
  (∀ q, q ≠ Q → h2 !! q = h1 !! q) →
  h1 !! Q = Some c1 →
  (∀ l, map root l = scene_collections c1 → Forall (represents h2) l →
        Forall (represents h2) (ins l) ∧
        ∃ c2, h2 !! Q = Some c2 ∧ scene_collections c2 = map root (ins l)) →
  represents h2 (graft Q ins t).
Proof.
  intros Hrep Hother Hc1 Hins. induction t as [r ts IH] using tree_ind_all.
  apply represents_node in Hrep as [(c & Hc & Hch) Hts]. rewrite graft_node.
  assert (Hall : Forall (represents h2) (map (graft Q ins) ts)).
  { rewrite Forall_forall in *. intros t' (t0 & -> & Ht0)%list_elem_of_fmap. apply IH; auto. }
  assert (Hroots : map root (map (graft Q ins) ts) = map root ts).
  { rewrite <- list_fmap_compose. apply list_fmap_ext. intros _ t' _. apply graft_root. }
  apply represents_node. destruct (decide (r = Q)) as [->|Hne].
  - assert (c = c1) as -> by congruence.
    destruct (Hins (map (graft Q ins) ts)) as [Hreps (c2 & Hc2 & Hl2)]; [congruence | done |].
    split; [|done]. by exists c2.
  - split; [|done]. exists c. rewrite (Hother r Hne). split; [done | congruence].
Qed.

(** Grafting adds the collections of the grafted tree and no other. *)
Lemma graft_preorder h1 Q ins tS t c1 :
  represents h1 t → NoDup (preorder t) → Q ∈ preorder t → h1 !! Q = Some c1 →
  (∀ l, map root l = scene_collections c1 →
        flat_map preorder (ins l) ≡ₚ flat_map preorder l ++ preorder tS) →
  preorder (graft Q ins t) ≡ₚ preorder t ++ preorder tS.
Proof.
  intros Hrep Hnd HQ Hc1 Hperm. induction t as [r ts IH] using tree_ind_all.
  apply represents_node in Hrep as [(c & Hc & Hch) Hts]. rewrite graft_node.
  simpl in Hnd, HQ. apply NoDup_cons in Hnd as [Hr Hnd].
  destruct (decide (r = Q)) as [->|Hne].
  - assert (c = c1) as -> by congruence.
    rewrite (graft_list_absent _ _ _ Hr). simpl. apply Permutation_skip. by apply Hperm.
  - apply elem_of_cons in HQ as [?|HQ]; [congruence|].
    destruct (nested_split ts Q Hnd HQ) as (l1 & t0 & l2 & -> & Hx0 & Hx1 & Hx2).
    rewrite map_app. simpl map.
    rewrite (graft_list_absent _ _ _ Hx1), (graft_list_absent _ _ _ Hx2).
    apply Forall_app in IH as [_ IH]. apply Forall_cons in IH as [IH0 _].
    apply Forall_app in Hts as [_ Hts]. apply Forall_cons in Hts as [Ht0 _].
    assert (Hnd0 : NoDup (preorder t0)).
    { apply (flat_map_NoDup_elem preorder (l1 ++ t0 :: l2)); [done|].
      apply elem_of_app. right. apply elem_of_cons. by left. }
    specialize (IH0 Ht0 Hnd0 Hx0).
    simpl. rewrite !flat_map_app. simpl. rewrite IH0. rewrite <- !app_assoc.
    apply Permutation_skip, Permutation_app_head, Permutation_app_head, Permutation_app_comm.
Qed.

(** A tree does not hold the collection that nests its root, nor the
    one that nests a collection outside it. *)
Lemma parent_outside h t tS q c x :
  represents h t → NoDup (preorder t) → subtree tS t →
  h !! q = Some c → x ∈ scene_collections c → x ∉ descendants tS → q ∉ preorder tS.
Proof.
  intros Hrep Hnd Hs Hc Hx Hout Hin. apply Hout.
  apply (is_parent_descendant _ q).
  apply (nested_is_parent h _ _ c); [|done..]. by apply (subtree_represents _ _ t).
Qed.

(** The store after a move holds the tree in which the subtree of the
    source has been cut out and put back under [Q], and that tree has
    the collections it had. *)
Lemma move_tree (h : gmap nat SceneCollection) (t tS : tree) (P Q : ptr)
    (cP cQ : SceneCollection) (ins : list tree → list tree) (lQ : list ptr) :
  represents h t → NoDup (preorder t) → subtree tS t → is_parent t P (root tS) →
  Q ∈ preorder t → Q ∉ preorder tS →
  h !! P = Some cP → h !! Q = Some cQ →
  (∀ l, map root l = BLI_remlink (scene_collections cQ) (root tS) →
        map root (ins l) = lQ ∧ (∀ x, x ∈ ins l → x = tS ∨ x ∈ l) ∧
        flat_map preorder (ins l) ≡ₚ flat_map preorder l ++ preorder tS) →
  represents
    (<[Q := set_scene_collections lQ cQ]>
       (<[P := set_scene_collections (BLI_remlink (scene_collections cP) (root tS)) cP]> h))
    (graft Q ins (prune (root tS) t)) ∧
  preorder (graft Q ins (prune (root tS) t)) ≡ₚ preorder t.
Proof.
  intros Hrep Hnd HsS HP HQ HQout HcP HcQ Hins.
  set (src := root tS) in *.
  set (h1 := <[P := set_scene_collections (BLI_remlink (scene_collections cP) src) cP]> h).
  set (h2 := <[Q := set_scene_collections lQ cQ]> h1).
  assert (Hroot : root t ≠ src).
  { intros Heq. apply (root_not_descendant t Hnd). rewrite Heq.
    by apply (is_parent_descendant _ P). }
  assert (HndS : NoDup (preorder tS)) by (by apply (subtree_NoDup _ t)).
  assert (HPout : P ∉ preorder tS).
  { destruct (is_parent_allocated _ _ _ _ Hrep HP) as (cP' & HcP' & Hin).
    apply (parent_outside h t tS P cP' src); [done..|]. by apply root_not_descendant. }
  (* the pruned tree *)
  pose proof (prune_preorder tS t Hnd HsS Hroot) as Hperm1. fold src in Hperm1.
  assert (Hrep1 : represents h1 (prune src t)).
  { apply (prune_represents h); [done..|]. intros q c Hq Hc.
    assert (Hqt : q ∈ preorder t) by (rewrite <- Hperm1; apply elem_of_app; by left).
    destruct (decide (q = P)) as [->|Hne].
    - assert (c = cP) as -> by congruence. eexists. split; [apply lookup_insert_eq|done].
    - exists c. unfold h1. rewrite lookup_insert_ne by done. split; [done|].
      symmetry. apply remlink_absent. intros Hin. apply Hne.
      apply (is_parent_unique t q P src); [done| |done].
      by apply (nested_is_parent h _ _ c). }
  assert (Hnd1 : NoDup (preorder (prune src t))).
  { rewrite <- Hperm1 in Hnd. by apply NoDup_app in Hnd as (? & _ & _). }
  assert (HQ1 : Q ∈ preorder (prune src t)).
  { rewrite <- Hperm1 in HQ. apply elem_of_app in HQ as [?|?]; done. }
  assert (HcQ1 : ∃ cQ1, h1 !! Q = Some cQ1 ∧
                        scene_collections cQ1 = BLI_remlink (scene_collections cQ) src).
  { destruct (decide (P = Q)) as [->|Hne].
    - assert (cP = cQ) as -> by congruence. eexists. split; [apply lookup_insert_eq|done].
    - exists cQ. unfold h1. rewrite lookup_insert_ne by done. split; [done|].
      symmetry. apply remlink_absent. intros Hin. apply Hne.
      apply (is_parent_unique t P Q src); [done..|].
      by apply (nested_is_parent h _ _ cQ). }
  destruct HcQ1 as (cQ1 & HcQ1 & HlQ1).
  (* the subtree of the source is as it was *)
  assert (HrepS : represents h2 tS).
  { apply (represents_frame h); [|by apply (subtree_represents _ _ t)].
    intros p Hp. unfold h2, h1. rewrite !lookup_insert_ne; [done|..]; intros <-; done. }
  split.
  - apply (graft_represents h1 h2 Q ins _ cQ1); [done | | done |].
    + intros q Hq. unfold h2. by rewrite lookup_insert_ne.
    + intros l Hl Hall. rewrite HlQ1 in Hl. destruct (Hins l Hl) as (Hroots & Helem & _). split.
      * rewrite Forall_forall in *. intros x Hx.
        destruct (Helem x Hx) as [->|Hxl]; [done | by apply Hall].
      * eexists. split; [apply lookup_insert_eq|]. by rewrite Hroots.
  - rewrite <- Hperm1. apply (graft_preorder h1 Q ins tS _ cQ1); [done..|].
    intros l Hl. rewrite HlQ1 in Hl. by destruct (Hins l Hl) as (_ & _ & ?).
Qed.

Lemma tree_insert_before_spec (dst : ptr) (tS : tree) (l : list tree) (l' : list ptr) :
  insert_before (map root l) dst (root tS) = Some l' →
  map root (tree_insert_before dst tS l) = l' ∧
  (∀ x, x ∈ tree_insert_before dst tS l → x = tS ∨ x ∈ l) ∧
  flat_map preorder (tree_insert_before dst tS l) ≡ₚ flat_map preorder l ++ preorder tS.
Proof.
  revert l'. induction l as [|x l IH]; intros l' Hl'; [done|]. simpl in *.
  destruct (decide (root x = dst)) as [Heq|Hne].
  - injection Hl' as <-. split_and!; [done| |].
    + intros y [->|Hy]%elem_of_cons; [by left | by right].
    + simpl. rewrite (Permutation_app_comm (preorder tS)). by rewrite <- !app_assoc.
  - destruct (insert_before (map root l) dst (root tS)) as [r|] eqn:Hr; [|done].
    injection Hl' as <-. destruct (IH r eq_refl) as (Hroots & Helem & Hperm). split_and!.
    + simpl. by rewrite Hroots.
    + intros y [->|Hy]%elem_of_cons; [right; apply elem_of_cons; by left|].
      destruct (Helem y Hy) as [->|?]; [by left | right; apply elem_of_cons; by right].
    + simpl. rewrite Hperm. by rewrite <- !app_assoc.
Qed.

Lemma tree_insert_after_spec (dst : ptr) (tS : tree) (l : list tree) (l' : list ptr) :
  insert_after (map root l) dst (root tS) = Some l' →
  map root (tree_insert_after dst tS l) = l' ∧
  (∀ x, x ∈ tree_insert_after dst tS l → x = tS ∨ x ∈ l) ∧
  flat_map preorder (tree_insert_after dst tS l) ≡ₚ flat_map preorder l ++ preorder tS.
Proof.
  revert l'. induction l as [|x l IH]; intros l' Hl'; [done|]. simpl in *.
  destruct (decide (root x = dst)) as [Heq|Hne].
  - injection Hl' as <-. split_and!; [done| |].
    + intros y [->|[->|Hy]%elem_of_cons]%elem_of_cons;
        [right; apply elem_of_cons; by left | by left | right; apply elem_of_cons; by right].
    + simpl. rewrite <- !app_assoc. apply Permutation_app_head, Permutation_app_comm.
  - destruct (insert_after (map root l) dst (root tS)) as [r|] eqn:Hr; [|done].
    injection Hl' as <-. destruct (IH r eq_refl) as (Hroots & Helem & Hperm). split_and!.
    + simpl. by rewrite Hroots.
    + intros y [->|Hy]%elem_of_cons; [right; apply elem_of_cons; by left|].
      destruct (Helem y Hy) as [->|?]; [by left | right; apply elem_of_cons; by right].
    + simpl. rewrite Hperm. by rewrite <- !app_assoc.
Qed.

(** ** Adding a collection *)

(** The master of an owner is read off the scenes and groups only. *)
Lemma master_from_id_frame id w w' m :
  collection_master_from_id id w = Some (m, w) →
  scenes w' = scenes w → groups w' = groups w →
  collection_master_from_id id w' = Some (m, w').
Proof.
  intros Hm Hs Hg. destruct id as [scene|g|ob]; simpl in *.
  - unfold bind, load_scene in *. rewrite Hs.
    destruct (scenes w !! scene); simpl in *; [|done]. unfold ret in *. congruence.
  - unfold bind, load_group in *. rewrite Hg.
    destruct (groups w !! g); simpl in *; [|done]. unfold ret in *. congruence.
  - done.
Qed.

(** X15.  Adding a collection under a parent of the owner's tree, or
    under the master when no parent is given, with a name that is not
    empty, fits the buffer and is held by no collection below the
    master: the call returns a newly allocated collection of the type
    asked for, with that name, no objects and no nested collections;
    it is appended last to the list of the parent, the layers are told
    of it, and nothing else changes.  Without a name the collection is
    called New Collection.  When the parent is a collection of the
    tree of the owner, the collections of the owner form a tree again,
    the old one with the new collection as last leaf under the parent. *)
Theorem collection_add_appends `{Externals} (fuel : nat) (id : ID) (sc_parent : option ptr)
    (ty : collection_type) (nm : option string) (w : World) (tm : tree) (cp : SceneCollection) :
  collection_master_from_id id w = Some (root tm, w) →
  represents (colls w) tm →
  height tm ≤ fuel →
  colls w !! brk w = None →
  colls w !! default (root tm) sc_parent = Some cp →
  default "New Collection"%string nm ≠ EmptyString →
  String.length (default "New Collection"%string nm) < sizeof_name →
  ¬ name_in_use (colls w) tm (brk w) (default "New Collection"%string nm) →
  BKE_collection_add fuel id sc_parent ty nm w
  = Some (brk w,
          with_events (events w ++ [layer_sync_new_scene_collection id
                                      (default (root tm) sc_parent) (brk w)])
            (with_brk (S (brk w))
               (with_colls
                  (<[default (root tm) sc_parent :=
                       set_scene_collections (scene_collections cp ++ [brk w]) cp]>
                     (<[brk w := set_name (default "New Collection"%string nm)
                                   (set_type ty zeroed)]> (colls w)))
                  w))) ∧
  ∀ sc w', BKE_collection_add fuel id sc_parent ty nm w = Some (sc, w') →
           default (root tm) sc_parent ∈ preorder tm →
           NoDup (preorder tm) →
           represents (colls w') (added (default (root tm) sc_parent) sc tm) ∧
           preorder (added (default (root tm) sc_parent) sc tm) ≡ₚ preorder tm ++ [sc].
Proof.
  intros Hm Hrep Hfuel Hfresh Hcp Hne Hlen Hfree.
  assert (Hgo : BKE_collection_add fuel id sc_parent ty nm w
  = Some (brk w,
          with_events (events w ++ [layer_sync_new_scene_collection id
                                      (default (root tm) sc_parent) (brk w)])
            (with_brk (S (brk w))
               (with_colls
                  (<[default (root tm) sc_parent :=
                       set_scene_collections (scene_collections cp ++ [brk w]) cp]>
                     (<[brk w := set_name (default "New Collection"%string nm)
                                   (set_type ty zeroed)]> (colls w)))
                  w)))); [|split; [exact Hgo|]].
  2:{ intros sc w' Hrun Hin Hnd. rewrite Hgo in Hrun. injection Hrun as <- <-.
      set (b := brk w) in *. set (parent := default (root tm) sc_parent) in *.
      set (newc := set_name (default "New Collection"%string nm) (set_type ty zeroed)).
      assert (Hpb : parent ≠ b) by (intros Heq; rewrite Heq in Hcp; congruence).
      assert (Hrep1 : represents (<[b := newc]> (colls w)) tm).
      { apply (represents_frame (colls w)); [|done]. intros p Hp.
        apply lookup_insert_ne. intros <-.
        destruct (represents_allocated _ _ _ Hrep Hp) as [? Hsome]. congruence. }
      assert (Hcp1 : <[b := newc]> (colls w) !! parent = Some cp)
        by (by rewrite lookup_insert_ne).
      simpl colls. unfold added. split.
      - apply (graft_represents (<[b := newc]> (colls w)) _ parent _ tm cp); [done| |done|].
        + intros q Hq. by rewrite lookup_insert_ne.
        + intros l Hl Hall. split.
          * apply Forall_app. split; [done|]. constructor; [|constructor].
            apply represents_node. split; [|done]. exists newc. split; [|done].
            rewrite lookup_insert_ne by done. apply lookup_insert_eq.
          * eexists. split; [apply lookup_insert_eq|]. simpl. by rewrite map_app, Hl.
      - apply (graft_preorder (<[b := newc]> (colls w)) parent _ (Node b []) tm cp); [done..|].
        intros l _. rewrite flat_map_app. simpl. done. }
  set (b := brk w) in *. set (n := default "New Collection"%string nm) in *.
  set (parent := default (root tm) sc_parent) in *.
  assert (Hpb : parent ≠ b) by (intros Heq; rewrite Heq in Hcp; congruence).
  destruct tm as [m ts]. pose proof Hrep as Hrep'.
  apply represents_node in Hrep' as [(cm & Hcm & Hch) _]. simpl root in *.
  assert (Hmb : m ≠ b) by (intros Heq; rewrite Heq in Hcm; congruence).
  unfold BKE_collection_add. rewrite (bind_some _ _ _ _ _ Hm).
  unfold MEM_callocN, alloc. unfold bind at 1. fold b.
  set (w1 := with_brk (S b) (with_colls (<[b := zeroed]> (colls w)) w)).
  assert (Hb1 : colls w1 !! b = Some zeroed) by apply lookup_insert_eq.
  rewrite (bind_some _ _ _ _ _ (store_some _ _ _ _ Hb1)).
  set (w2 := with_colls (<[b := set_type ty zeroed]> (colls w1)) w1).
  assert (Hcolls2 : colls w2 = <[b := set_type ty zeroed]> (colls w)).
  { unfold w2, w1. simpl. by rewrite insert_insert_eq. }
  assert (Hb2 : colls w2 !! b = Some (set_type ty zeroed)) by apply lookup_insert_eq.
  assert (Hcm2 : colls w2 !! m = Some cm) by (rewrite Hcolls2; by rewrite lookup_insert_ne).
  assert (Hrep2 : represents (colls w2) (Node m ts)).
  { apply (represents_frame (colls w)); [|done]. intros p Hp. rewrite Hcolls2.
    apply lookup_insert_ne. intros <-.
    destruct (represents_allocated _ _ _ Hrep Hp) as [? Hsome]. congruence. }
  assert (Hm2 : collection_master_from_id id w2 = Some (m, w2))
    by (by apply (master_from_id_frame id w)).
  fold parent n.
  rewrite (bind_some _ _ _ tt
             (with_colls (<[b := set_name n (set_type ty zeroed)]> (colls w2)) w2)).
  2:{ rewrite (collection_rename_unfold fuel id b n w2 m _ cm Hm2 Hb2 Hcm2), Hch.
      unfold BLI_strncpy at 1 2. rewrite substring_all by lia.
      unfold BLI_uniquename_cb. rewrite decide_False by done.
      pose proof (name_scan_renamed (colls w2) (Node m ts) b (set_type ty zeroed) n n fuel
                    Hrep2 Hfuel Hb2) as Hscan. simpl subtrees in Hscan.
      rewrite Hscan, bool_decide_eq_false_2; [done|].
      intros Huse. apply Hfree. unfold name_in_use in *. rewrite Exists_exists in *.
      destruct Huse as (x & Hx & Hxb & Hn). exists x. split; [done|]. split; [done|].
      rewrite Hcolls2 in Hn. by rewrite lookup_insert_ne in Hn. }
  set (w3 := with_colls (<[b := set_name n (set_type ty zeroed)]> (colls w2)) w2).
  assert (Hcolls3 : colls w3 = <[b := set_name n (set_type ty zeroed)]> (colls w)).
  { transitivity (<[b := set_name n (set_type ty zeroed)]> (colls w2)); [reflexivity|].
    rewrite Hcolls2. by rewrite insert_insert_eq. }
  assert (Hcp3 : colls w3 !! parent = Some cp)
    by (rewrite Hcolls3; by rewrite lookup_insert_ne).
  rewrite (bind_some _ _ _ _ _ (store_some _ _ _ _ Hcp3)).
  unfold bind, emit, modify, ret, BLI_addtail. do 2 f_equal.
  rewrite <- Hcolls3. reflexivity.
Qed.

Lemma collection_add_appends_example :
  @BKE_collection_add blender_externals 3 (ID_SCE 0) (Some 2) COLLECTION_TYPE_NONE (Some "D"%string)
    world_abc
  = Some (4,
          with_events [layer_sync_new_scene_collection (ID_SCE 0) 2 4]
            (with_brk 5
               (with_colls
                  (<[2 := plain "B" [] [3; 4]]> (<[4 := plain "D" [] []]> (colls world_abc)))
                  world_abc))) ∧
  ∀ sc w', @BKE_collection_add blender_externals 3 (ID_SCE 0) (Some 2) COLLECTION_TYPE_NONE
             (Some "D"%string) world_abc = Some (sc, w') →
           2 ∈ preorder tree_abc →
           NoDup (preorder tree_abc) →
           represents (colls w') (added 2 sc tree_abc) ∧
           preorder (added 2 sc tree_abc) ≡ₚ preorder tree_abc ++ [sc].
Proof.
  apply (@collection_add_appends blender_externals 3 (ID_SCE 0) (Some 2) COLLECTION_TYPE_NONE
           (Some "D"%string) world_abc tree_abc (plain "B" [] [3])).
  - reflexivity.
  - simpl. repeat split; eexists; split; reflexivity.
  - simpl. lia.
  - reflexivity.
  - reflexivity.
  - discriminate.
  - simpl. lia.
  - apply (bool_decide_unpack _). vm_compute. exact I.
Defined.

(** ** Removing a collection *)

(** X12.  Removing a collection that lies below the master of a scene
    whose collections form a tree returns true.  Afterwards the
    collection and everything below it are deallocated, the collection
    that nested it has it in its list no more, no other struct has
    changed, every object has lost one user per link the removed
    collections held to it, every render layer has its active
    collection reset to 0 and no top-level LayerCollection that refers
    to the removed collection.  The collections that remain again form
    a tree, the one in which the subtree of the removed collection has
    been cut out; with the removed ones they are the collections the
    scene had. *)
Theorem collection_remove_subtree (fuel : nat) (scene sc : ptr) (w : World) (s : Scene)
    (t : tree) :
  scenes w !! scene = Some s →
  root t = collection s →
  represents (colls w) t →
  NoDup (preorder t) →
  height t ≤ fuel →
  sc ∈ descendants t →
  ∃ w' q cq t_sc sls,
    BKE_collection_remove fuel scene sc w = Some (true, w') ∧
    is_parent t q sc ∧ colls w !! q = Some cq ∧
    subtree t_sc t ∧ root t_sc = sc ∧
    colls w' !! q = Some (set_scene_collections (BLI_remlink (scene_collections cq) sc) cq) ∧
    (∀ p, p ∈ preorder t_sc → colls w' !! p = None) ∧
    (∀ p, p ∉ preorder t_sc → p ≠ q → colls w' !! p = colls w !! p) ∧
    (∀ ob, us_of w' ob
           = (us_of w ob - count_links ob (flat_map (links_of (colls w)) (preorder t_sc)))%Z) ∧
    scenes w' !! scene = Some (mkScene (collection s) sls) ∧
    length sls = length (render_layers s) ∧
    Forall (λ sl, active_collection sl = 0%Z ∧
                  Forall (λ lc, scene_collection lc ≠ sc) (sl_layer_collections sl)) sls ∧
    represents (colls w') (prune sc t) ∧
    preorder (prune sc t) ++ preorder t_sc ≡ₚ preorder t.
Proof.
  intros Hscene Hroot Hrep Hnd Hh Hsc.
  destruct (collection_remlink_spec sc t fuel w Hrep Hh) as [_ Hin].
  destruct (Hin Hsc) as (q & cq & Hp & Hq & Hrun1).
  destruct (is_parent_subtree _ _ _ Hp) as (tsq & t_sc & Hsq & Htsc & Hrsc).
  assert (Hsub : subtree t_sc t).
  { apply (subtree_trans _ (Node q tsq)); [|done]. apply subtree_node. right.
    apply Exists_exists. exists t_sc. split; [done | apply subtree_refl]. }
  assert (Hqout : q ∉ preorder t_sc).
  { pose proof (subtree_NoDup _ _ Hsq Hnd) as Hndq. simpl in Hndq.
    apply NoDup_cons in Hndq as [Hq' _]. intros Hin'. apply Hq'.
    apply elem_of_flat_map_preorder, Exists_exists. by exists t_sc. }
  assert (Hne : sc ≠ collection s).
  { intros ->. rewrite <- Hroot in Hsc. by apply (root_not_descendant t Hnd). }
  set (w1 := unnested q sc cq w) in *.
  assert (Hframe1 : ∀ p, p ∈ preorder t_sc → colls w1 !! p = colls w !! p).
  { intros p Hpin. simpl. rewrite lookup_insert_ne; [done|]. by intros <-. }
  destruct (collection_free_total true t_sc fuel w1) as (w2 & Hrun2 & Hfreed).
  { by apply (represents_frame (colls w)), (subtree_represents _ _ t). }
  { by apply (subtree_NoDup _ t). }
  { pose proof (subtree_height _ _ Hsub). lia. }
  destruct Hfreed as (Hroot2 & Hdesc2 & Hout2 & (Hs2 & Hg2 & He2 & Hb2) & Hu2).
  rewrite Hrsc in Hrun2, Hroot2.
  pose proof (remove_from_layers_spec sc (render_layers s)) as Hlayers.
  destruct (remove_from_layers sc (render_layers s)) as [sls e] eqn:Hrem.
  simpl in Hlayers. destruct Hlayers as [Hlen Hall].
  (* the store at the end *)
  set (h' := delete sc (colls w2)).
  assert (Hq' : h' !! q
                = Some (set_scene_collections (BLI_remlink (scene_collections cq) sc) cq)).
  { unfold h'.
    rewrite lookup_delete_ne by (intros <-; apply Hqout; rewrite preorder_root, Hrsc; set_solver).
    rewrite Hout2 by done. apply lookup_insert_eq. }
  assert (Hgone : ∀ p, p ∈ preorder t_sc → h' !! p = None).
  { intros p Hpin. unfold h'. destruct (decide (sc = p)) as [<-|Hnp]; [apply lookup_delete_eq|].
    rewrite lookup_delete_ne by done. apply Hdesc2.
    rewrite preorder_root, Hrsc in Hpin. apply elem_of_cons in Hpin as [?|?]; [congruence|done]. }
  assert (Hkeep : ∀ p, p ∉ preorder t_sc → p ≠ q → h' !! p = colls w !! p).
  { intros p Hpout Hpq. unfold h'.
    rewrite lookup_delete_ne by (intros <-; apply Hpout; rewrite preorder_root, Hrsc; set_solver).
    rewrite Hout2 by done. simpl. by rewrite lookup_insert_ne. }
  (* the tree that remains *)
  assert (Hperm : preorder (prune sc t) ++ preorder t_sc ≡ₚ preorder t).
  { rewrite <- Hrsc. apply prune_preorder; [done..|]. rewrite Hrsc, Hroot. congruence. }
  assert (Hrep' : represents h' (prune sc t)).
  { apply (prune_represents (colls w)); [done | done | rewrite Hroot; congruence |].
    intros p c Hpin Hc.
    assert (Hpt : p ∈ preorder t) by (rewrite <- Hperm; apply elem_of_app; by left).
    assert (Hpout : p ∉ preorder t_sc).
    { rewrite <- Hperm in Hnd. apply NoDup_app in Hnd as (_ & Hdis & _). by apply Hdis. }
    destruct (decide (p = q)) as [->|Hpq].
    - assert (c = cq) as -> by congruence. eexists. split; [exact Hq'|done].
    - exists c. rewrite (Hkeep p Hpout Hpq). split; [done|].
      symmetry. apply remlink_absent. intros Hnests. apply Hpq.
      apply (is_parent_unique t p q sc); [done| |done].
      by apply (nested_is_parent (colls w) _ _ c). }
  eexists _, q, cq, t_sc, sls. split_and!.
  - unfold BKE_collection_remove.
    rewrite (bind_some _ _ _ _ _ (master_some _ _ _ Hscene)).
    rewrite decide_False by done. rewrite <- Hroot.
    rewrite (bind_some _ _ _ _ _ Hrun1). simpl negb. cbv iota.
    unfold bind at 1. unfold ret at 1.
    rewrite (bind_some _ _ _ _ _ Hrun2).
    assert (Hscene2 : scenes w2 !! scene = Some s) by (by rewrite Hs2).
    rewrite (bind_some _ _ _ _ _ (load_scene_some _ _ _ Hscene2)), Hrem.
    reflexivity.
  - done.
  - done.
  - done.
  - done.
  - exact Hq'.
  - exact Hgone.
  - exact Hkeep.
  - intros ob. change (us_of _ ob) with (us_of w2 ob) at 1. rewrite Hu2.
    rewrite (links_frame (colls w) (colls w1)) by done. done.
  - simpl. apply lookup_insert_eq.
  - done.
  - done.
  - exact Hrep'.
  - exact Hperm.
Qed.

Lemma collection_remove_subtree_example :
  ∃ w' q cq t_sc sls,
    BKE_collection_remove 3 0 2 world_b_linked = Some (true, w') ∧
    is_parent tree_abc q 2 ∧ colls world_b_linked !! q = Some cq ∧
    subtree t_sc tree_abc ∧ root t_sc = 2 ∧
    colls w' !! q = Some (set_scene_collections (BLI_remlink (scene_collections cq) 2) cq) ∧
    (∀ p, p ∈ preorder t_sc → colls w' !! p = None) ∧
    (∀ p, p ∉ preorder t_sc → p ≠ q → colls w' !! p = colls world_b_linked !! p) ∧
    (∀ ob, us_of w' ob
           = (us_of world_b_linked ob
              - count_links ob (flat_map (links_of (colls world_b_linked)) (preorder t_sc)))%Z) ∧
    scenes w' !! 0 = Some (mkScene 1 sls) ∧
    length sls = 1 ∧
    Forall (λ sl, active_collection sl = 0%Z ∧
                  Forall (λ lc, scene_collection lc ≠ 2) (sl_layer_collections sl)) sls ∧
    represents (colls w') (prune 2 tree_abc) ∧
    preorder (prune 2 tree_abc) ++ preorder t_sc ≡ₚ preorder tree_abc.
Proof.
  apply (collection_remove_subtree 3 0 2 world_b_linked
           (mkScene 1 [mkSceneLayer [layer_collection_b] 0%Z]) tree_abc).
  - reflexivity.
  - reflexivity.
  - simpl. repeat split; eexists; split; reflexivity.
  - simpl. repeat constructor; set_solver.
  - simpl. lia.
  - simpl. set_solver.
Defined.

(** ** The three moves *)

(** X16.  Moving a collection above another.  In a scene whose
    collections form a tree, with the source heading the subtree [tS]
    under the parent [P], the destination outside that subtree under
    the parent [Q], and the source not already the one before the
    destination: the call returns true; afterwards the source is the
    collection just before the destination in the list of [Q], the
    other collections of that list keep their order, the list of [P]
    has lost the source, no other collection has changed, and the
    layers are resynchronised for [P], then for [Q].  The collections
    of the scene again form a tree, the one in which the subtree of the
    source has been cut out and put back just before the destination;
    it has the collections it had, each of them once. *)
Theorem move_above_places_before (fuel : nat) (scene : ptr) (w : World) (s : Scene)
    (t tS : tree) (P Q dst : ptr) (cP cQ : SceneCollection) :
  scenes w !! scene = Some s →
  root t = collection s →
  represents (colls w) t →
  NoDup (preorder t) →
  height t ≤ fuel →
  subtree tS t →
  is_parent t P (root tS) →
  is_parent t Q dst →
  dst ∉ preorder tS →
  colls w !! P = Some cP →
  colls w !! Q = Some cQ →
  link_prev (scene_collections cQ) dst ≠ Some (root tS) →
  ∃ w' l,
    BKE_collection_move_above fuel scene dst (root tS) w = Some (true, w') ∧
    colls w' !! Q = Some (set_scene_collections l cQ) ∧
    link_prev l dst = Some (root tS) ∧
    BLI_remlink l (root tS) = BLI_remlink (scene_collections cQ) (root tS) ∧
    (P ≠ Q → colls w' !! P
             = Some (set_scene_collections (BLI_remlink (scene_collections cP) (root tS)) cP)) ∧
    (∀ p, p ≠ P → p ≠ Q → colls w' !! p = colls w !! p) ∧
    events w' = events w ++ [layer_collection_resync scene P; layer_collection_resync scene Q] ∧
    represents (colls w') (moved_above Q dst tS t) ∧
    preorder (moved_above Q dst tS t) ≡ₚ preorder t ∧
    NoDup (preorder (moved_above Q dst tS t)).
Proof.
  intros Hscene Hroot Hrep Hnd Hfuel HsS HP HQ Hout HcP HcQ Hprev.
  destruct (move_ready fuel w t tS P Q dst cQ Hrep Hnd Hfuel HsS HP HQ Hout HcQ)
    as ((Hms & Hmd & Hsd) & Hnest & HfP & HfQ & _ & Hdin & Hsout & Hsame).
  destruct (insert_before_spec _ dst (root tS) Hdin Hsout) as (l & Hins & Hlp & Hrem).
  destruct (move_stored w P Q (root tS) cP cQ l HcP HcQ Hsame) as (cQ1 & HcQ1 & Hl1 & Hset).
  assert (Htree : represents
                    (<[Q := set_scene_collections l cQ]>
                       (<[P := set_scene_collections
                                 (BLI_remlink (scene_collections cP) (root tS)) cP]> (colls w)))
                    (moved_above Q dst tS t) ∧
                  preorder (moved_above Q dst tS t) ≡ₚ preorder t).
  { apply move_tree; [done..| by apply (is_parent_in_tree _ _ dst) | | done | done |].
    - apply (parent_outside (colls w) t tS Q cQ dst); [done..| |].
      + by destruct (is_parent_allocated _ _ _ _ Hrep HQ) as (c & Hc & Hin); simplify_eq.
      + intros Hin. apply Hout. rewrite preorder_root. apply elem_of_cons. by right.
    - intros l0 Hl0. apply tree_insert_before_spec. rewrite Hl0.
      unfold BLI_insertlinkbefore in Hins.
      by destruct (BLI_remlink (scene_collections cQ) (root tS));
        [apply elem_of_nil in Hdin|]. }
  destruct Htree as [Hrep' Hperm'].
  set (cP' := set_scene_collections (BLI_remlink (scene_collections cP) (root tS)) cP) in *.
  set (w1 := with_colls (<[P := cP']> (colls w)) w) in *.
  exists (with_events (events w ++ [layer_collection_resync scene P;
                                    layer_collection_resync scene Q])
            (with_colls (<[Q := set_scene_collections l cQ]> (colls w1)) w1)), l.
  split_and!.
  - unfold BKE_collection_move_above.
    rewrite (bind_some _ _ _ _ _ (master_some _ _ _ Hscene)), <- Hroot.
    rewrite bool_decide_eq_false_2 by (intros [?|?]; congruence).
    unfold bind, gets, lift, assert_ptr, ret, sc_prev. rewrite HfQ, HcQ. simpl.
    rewrite decide_False by done. rewrite Hnest, HfP, HfQ. simpl.
    rewrite (store_some _ _ _ _ HcP). fold cP' w1.
    rewrite (load_some _ _ _ HcQ1), Hl1, Hins.
    rewrite (store_some _ _ _ _ HcQ1), Hset.
    unfold BKE_layer_collection_resync, emit, modify. simpl.
    by rewrite <- app_assoc.
  - simpl. apply lookup_insert_eq.
  - done.
  - done.
  - intros Hne. simpl. rewrite lookup_insert_ne by done. apply lookup_insert_eq.
  - intros p HpP HpQ. simpl. by rewrite !lookup_insert_ne.
  - done.
  - exact Hrep'.
  - exact Hperm'.
  - by rewrite Hperm'.
Qed.

(** X17.  Moving a collection below another.  Under the same
    conditions, with the source not already the one after the
    destination: the call returns true; afterwards the source is the
    collection just after the destination in the list of [Q], the
    other collections of that list keep their order, the list of [P]
    has lost the source, no other collection has changed, and the
    layers are resynchronised for [P], then for [Q].  The collections
    of the scene again form a tree, the one in which the subtree of the
    source has been cut out and put back just after the destination;
    it has the collections it had, each of them once. *)
Theorem move_below_places_after (fuel : nat) (scene : ptr) (w : World) (s : Scene)
    (t tS : tree) (P Q dst : ptr) (cP cQ : SceneCollection) :
  scenes w !! scene = Some s →
  root t = collection s →
  represents (colls w) t →
  NoDup (preorder t) →
  height t ≤ fuel →
  subtree tS t →
  is_parent t P (root tS) →
  is_parent t Q dst →
  dst ∉ preorder tS →
  colls w !! P = Some cP →
  colls w !! Q = Some cQ →
  link_next (scene_collections cQ) dst ≠ Some (root tS) →
  ∃ w' l,
    BKE_collection_move_below fuel scene dst (root tS) w = Some (true, w') ∧
    colls w' !! Q = Some (set_scene_collections l cQ) ∧
    link_next l dst = Some (root tS) ∧
    BLI_remlink l (root tS) = BLI_remlink (scene_collections cQ) (root tS) ∧
    (P ≠ Q → colls w' !! P
             = Some (set_scene_collections (BLI_remlink (scene_collections cP) (root tS)) cP)) ∧
    (∀ p, p ≠ P → p ≠ Q → colls w' !! p = colls w !! p) ∧
    events w' = events w ++ [layer_collection_resync scene P; layer_collection_resync scene Q] ∧
    represents (colls w') (moved_below Q dst tS t) ∧
    preorder (moved_below Q dst tS t) ≡ₚ preorder t ∧
    NoDup (preorder (moved_below Q dst tS t)).
Proof.
  intros Hscene Hroot Hrep Hnd Hfuel HsS HP HQ Hout HcP HcQ Hnext.
  destruct (move_ready fuel w t tS P Q dst cQ Hrep Hnd Hfuel HsS HP HQ Hout HcQ)
    as ((Hms & Hmd & Hsd) & Hnest & HfP & HfQ & _ & Hdin & Hsout & Hsame).
  destruct (insert_after_spec _ dst (root tS) Hdin Hsout) as (l & Hins & Hlp & Hrem).
  destruct (move_stored w P Q (root tS) cP cQ l HcP HcQ Hsame) as (cQ1 & HcQ1 & Hl1 & Hset).
  assert (Htree : represents
                    (<[Q := set_scene_collections l cQ]>
                       (<[P := set_scene_collections
                                 (BLI_remlink (scene_collections cP) (root tS)) cP]> (colls w)))
                    (moved_below Q dst tS t) ∧
                  preorder (moved_below Q dst tS t) ≡ₚ preorder t).
  { apply move_tree; [done..| by apply (is_parent_in_tree _ _ dst) | | done | done |].
    - apply (parent_outside (colls w) t tS Q cQ dst); [done..| |].
      + by destruct (is_parent_allocated _ _ _ _ Hrep HQ) as (c & Hc & Hin); simplify_eq.
      + intros Hin. apply Hout. rewrite preorder_root. apply elem_of_cons. by right.
    - intros l0 Hl0. apply tree_insert_after_spec. rewrite Hl0.
      unfold BLI_insertlinkafter in Hins.
      by destruct (BLI_remlink (scene_collections cQ) (root tS));
        [apply elem_of_nil in Hdin|]. }
  destruct Htree as [Hrep' Hperm'].
  set (cP' := set_scene_collections (BLI_remlink (scene_collections cP) (root tS)) cP) in *.
  set (w1 := with_colls (<[P := cP']> (colls w)) w) in *.
  exists (with_events (events w ++ [layer_collection_resync scene P;
                                    layer_collection_resync scene Q])
            (with_colls (<[Q := set_scene_collections l cQ]> (colls w1)) w1)), l.
  split_and!.
  - unfold BKE_collection_move_below.
    rewrite (bind_some _ _ _ _ _ (master_some _ _ _ Hscene)), <- Hroot.
    rewrite bool_decide_eq_false_2 by (intros [?|?]; congruence).
    unfold bind, gets, lift, assert_ptr, ret, sc_next. rewrite HfQ, HcQ. simpl.
    rewrite decide_False by done. rewrite Hnest, HfP, HfQ. simpl.
    rewrite (store_some _ _ _ _ HcP). fold cP' w1.
    rewrite (load_some _ _ _ HcQ1), Hl1, Hins.
    rewrite (store_some _ _ _ _ HcQ1), Hset.
    unfold BKE_layer_collection_resync, emit, modify. simpl.
    by rewrite <- app_assoc.
  - simpl. apply lookup_insert_eq.
  - done.
  - done.
  - intros Hne. simpl. rewrite lookup_insert_ne by done. apply lookup_insert_eq.
  - intros p HpP HpQ. simpl. by rewrite !lookup_insert_ne.
  - done.
  - exact Hrep'.
  - exact Hperm'.
  - by rewrite Hperm'.
Qed.

Lemma move_above_places_before_example :
  ∃ w' l,
    BKE_collection_move_above 3 0 2 (root (Node 3 [])) world_abc = Some (true, w') ∧
    colls w' !! 1 = Some (set_scene_collections l (plain "A" [] [2])) ∧
    link_prev l 2 = Some (root (Node 3 [])) ∧
    BLI_remlink l (root (Node 3 []))
    = BLI_remlink (scene_collections (plain "A" [] [2])) (root (Node 3 [])) ∧
    (2 ≠ 1 → colls w' !! 2
             = Some (set_scene_collections
                       (BLI_remlink (scene_collections (plain "B" [] [3])) (root (Node 3 [])))
                       (plain "B" [] [3]))) ∧
    (∀ p, p ≠ 2 → p ≠ 1 → colls w' !! p = colls world_abc !! p) ∧
    events w' = events world_abc ++ [layer_collection_resync 0 2; layer_collection_resync 0 1] ∧
    represents (colls w') (moved_above 1 2 (Node 3 []) tree_abc) ∧
    preorder (moved_above 1 2 (Node 3 []) tree_abc) ≡ₚ preorder tree_abc ∧
    NoDup (preorder (moved_above 1 2 (Node 3 []) tree_abc)).
Proof.
  apply (move_above_places_before 3 0 world_abc (mkScene 1 []) tree_abc (Node 3 []) 2 1 2
           (plain "B" [] [3]) (plain "A" [] [2])).
  - reflexivity.
  - reflexivity.
  - simpl. repeat split; eexists; split; reflexivity.
  - simpl. repeat constructor; set_solver.
  - simpl. lia.
  - simpl. tauto.
  - simpl. set_solver.
  - simpl. set_solver.
  - simpl. set_solver.
  - reflexivity.
  - reflexivity.
  - simpl. discriminate.
Defined.

Lemma move_below_places_after_example :
  ∃ w' l,
    BKE_collection_move_below 3 0 2 (root (Node 3 [])) world_abc = Some (true, w') ∧
    colls w' !! 1 = Some (set_scene_collections l (plain "A" [] [2])) ∧
    link_next l 2 = Some (root (Node 3 [])) ∧
    BLI_remlink l (root (Node 3 []))
    = BLI_remlink (scene_collections (plain "A" [] [2])) (root (Node 3 [])) ∧
    (2 ≠ 1 → colls w' !! 2
             = Some (set_scene_collections
                       (BLI_remlink (scene_collections (plain "B" [] [3])) (root (Node 3 [])))
                       (plain "B" [] [3]))) ∧
    (∀ p, p ≠ 2 → p ≠ 1 → colls w' !! p = colls world_abc !! p) ∧
    events w' = events world_abc ++ [layer_collection_resync 0 2; layer_collection_resync 0 1] ∧
    represents (colls w') (moved_below 1 2 (Node 3 []) tree_abc) ∧
    preorder (moved_below 1 2 (Node 3 []) tree_abc) ≡ₚ preorder tree_abc ∧
    NoDup (preorder (moved_below 1 2 (Node 3 []) tree_abc)).
Proof.
  apply (move_below_places_after 3 0 world_abc (mkScene 1 []) tree_abc (Node 3 []) 2 1 2
           (plain "B" [] [3]) (plain "A" [] [2])).
  - reflexivity.
  - reflexivity.
  - simpl. repeat split; eexists; split; reflexivity.
  - simpl. repeat constructor; set_solver.
  - simpl. lia.
  - simpl. tauto.
  - simpl. set_solver.
  - simpl. set_solver.
  - simpl. set_solver.
  - reflexivity.
  - reflexivity.
  - simpl. discriminate.
Defined.

(** ** Moves that have nothing to do *)

Lemma link_prev_adjacent (l1 l2 : list ptr) (a b : ptr) :
  NoDup (l1 ++ a :: b :: l2) → link_prev (l1 ++ a :: b :: l2) b = Some a.
Proof.
  induction l1 as [|x l1 IH]; intros Hnd; simpl.
  - by rewrite decide_True.
  - apply NoDup_cons in Hnd as [Hx Hnd].
    assert (Hb : (b ∉ l1) ∧ a ≠ b).
    { apply NoDup_app in Hnd as (_ & Hdis & Hab). apply NoDup_cons in Hab as [Ha _].
      split; [|intros ->; apply Ha; apply elem_of_cons; by left].
      intros Hin. apply (Hdis b Hin). apply elem_of_cons. right. apply elem_of_cons. by left. }
    destruct Hb as [Hb Hab].
    destruct l1 as [|y l1]; simpl in *.
    + rewrite decide_False by done. by rewrite decide_True.
    + rewrite decide_False by (intros ->; apply Hb; apply elem_of_cons; by left).
      by apply IH.
Qed.

Lemma link_next_adjacent (l1 l2 : list ptr) (a b : ptr) :
  a ∉ l1 → link_next (l1 ++ a :: b :: l2) a = Some b.
Proof.
  induction l1 as [|x l1 IH]; intros Ha; simpl.
  - by rewrite decide_True.
  - apply not_elem_of_cons in Ha as [Hne Ha]. rewrite decide_False by done. by apply IH.
Qed.

(** X18.  A collection that already stands just before another in the
    list that nests them both is not moved: moving it above that other
    one, and moving the other one below it, both return false and leave
    the state as it was. *)
Theorem move_beside_in_place (fuel : nat) (scene : ptr) (w : World) (s : Scene) (t : tree)
    (Q : ptr) (cQ : SceneCollection) (l1 l2 : list ptr) (a b : ptr) :
  scenes w !! scene = Some s →
  root t = collection s →
  represents (colls w) t →
  NoDup (preorder t) →
  height t ≤ fuel →
  Q ∈ preorder t →
  colls w !! Q = Some cQ →
  scene_collections cQ = l1 ++ a :: b :: l2 →
  BKE_collection_move_above fuel scene b a w = Some (false, w) ∧
  BKE_collection_move_below fuel scene a b w = Some (false, w).
Proof.
  intros Hscene Hroot Hrep Hnd Hfuel HQ HcQ Hl.
  pose proof (nested_NoDup _ _ _ _ Hrep Hnd HQ HcQ) as HndQ. rewrite Hl in HndQ.
  assert (Hpa : is_parent t Q a).
  { apply (nested_is_parent (colls w) _ _ cQ); [done..|]. rewrite Hl. set_solver. }
  assert (Hpb : is_parent t Q b).
  { apply (nested_is_parent (colls w) _ _ cQ); [done..|]. rewrite Hl. set_solver. }
  pose proof (find_collection_parent_of _ _ _ _ fuel Hrep Hnd Hfuel Hpa) as Hfa.
  pose proof (find_collection_parent_of _ _ _ _ fuel Hrep Hnd Hfuel Hpb) as Hfb.
  rewrite Hroot in Hfa, Hfb. split.
  - unfold BKE_collection_move_above.
    rewrite (bind_some _ _ _ _ _ (master_some _ _ _ Hscene)).
    destruct (bool_decide _); [done|].
    unfold bind, gets, lift, ret, sc_prev. rewrite Hfb, HcQ. simpl.
    rewrite Hl, (link_prev_adjacent _ _ _ _ HndQ). by rewrite decide_True.
  - unfold BKE_collection_move_below.
    rewrite (bind_some _ _ _ _ _ (master_some _ _ _ Hscene)).
    destruct (bool_decide _); [done|].
    unfold bind, gets, lift, ret, sc_next. rewrite Hfa, HcQ. simpl.
    rewrite Hl, link_next_adjacent; [by rewrite decide_True|].
    apply NoDup_app in HndQ as (_ & Hdis & _). intros Hin. apply (Hdis a Hin).
    apply elem_of_cons. by left.
Qed.

Lemma move_beside_in_place_example :
  BKE_collection_move_above 2 0 3 2 world_shared_object = Some (false, world_shared_object) ∧
  BKE_collection_move_below 2 0 2 3 world_shared_object = Some (false, world_shared_object).
Proof.
  apply (move_beside_in_place 2 0 world_shared_object (mkScene 1 []) tree_shared_object 1
           (plain "Master Collection" [] [2; 3]) [] [] 2 3).
  - reflexivity.
  - reflexivity.
  - simpl. repeat split; eexists; split; reflexivity.
  - simpl. repeat constructor; set_solver.
  - simpl. lia.
  - simpl. set_solver.
  - reflexivity.
  - reflexivity.
Defined.

(** X19.  A collection that is already the last one nested in the
    destination is not moved into it: the call returns false and leaves
    the state as it was. *)
Theorem move_into_already_last (fuel : nat) (scene : ptr) (w : World) (s : Scene) (t : tree)
    (dst src : ptr) (cd : SceneCollection) :
  scenes w !! scene = Some s →
  root t = collection s →
  represents (colls w) t →
  NoDup (preorder t) →
  height t ≤ fuel →
  dst ∈ preorder t →
  colls w !! dst = Some cd →
  last (scene_collections cd) = Some src →
  BKE_collection_move_into fuel scene dst src w = Some (false, w).
Proof.
  intros Hscene Hroot Hrep Hnd Hfuel Hd Hcd Hlast.
  assert (Hp : is_parent t dst src).
  { apply (nested_is_parent (colls w) _ _ cd); [done..|]. by apply last_Some_elem_of. }
  pose proof (find_collection_parent_of _ _ _ _ fuel Hrep Hnd Hfuel Hp) as Hf.
  rewrite Hroot in Hf.
  destruct (is_parent_subtree _ _ _ Hp) as (ts & tS & Hs & HtS & Hr).
  assert (HsS : subtree tS t).
  { apply (subtree_trans _ (Node dst ts)); [|done]. apply subtree_node. right.
    apply Exists_exists. exists tS. split; [done | apply subtree_refl]. }
  pose proof (is_collection_in_tree_spec (colls w) tS dst fuel
                (subtree_represents _ _ _ HsS Hrep)) as Hnest.
  rewrite Hr in Hnest. pose proof (subtree_height _ _ HsS).
  unfold BKE_collection_move_into.
  rewrite (bind_some _ _ _ _ _ (master_some _ _ _ Hscene)).
  destruct (decide _); [done|].
  unfold bind, gets, lift, assert_ptr, ret. rewrite Hnest by lia.
  destruct (bool_decide _); [done|]. rewrite Hf.
  rewrite (load_some _ _ _ Hcd). by rewrite decide_True.
Qed.

Lemma move_into_already_last_example :
  BKE_collection_move_into 2 0 1 3 world_shared_object = Some (false, world_shared_object).
Proof.
  apply (move_into_already_last 2 0 world_shared_object (mkScene 1 []) tree_shared_object 1 3
           (plain "Master Collection" [] [2; 3])).
  - reflexivity.
  - reflexivity.
  - simpl. repeat split; eexists; split; reflexivity.
  - simpl. repeat constructor; set_solver.
  - simpl. lia.
  - simpl. set_solver.
  - reflexivity.
  - reflexivity.
Defined.

(** ** Moving a collection into another *)

(** X20.  Moving a collection into another.  In a scene whose
    collections form a tree, with the source heading the subtree [tS]
    under the parent [P], the destination a collection of the tree
    outside that subtree, and the source not already the last one
    nested in the destination: the call returns true; afterwards the
    source is the last collection nested in the destination, after the
    ones that were there, the list of [P] has lost the source, no other
    collection has changed, and the layers are resynchronised for
    [P], then for the destination.  The collections of the scene again
    form a tree, the one in which the subtree of the source has been
    cut out and put back last under the destination; it has the
    collections it had, each of them once. *)
Theorem move_into_appends (fuel : nat) (scene : ptr) (w : World) (s : Scene)
    (t tS : tree) (P dst : ptr) (cP cd : SceneCollection) :
  scenes w !! scene = Some s →
  root t = collection s →
  represents (colls w) t →
  NoDup (preorder t) →
  height t ≤ fuel →
  subtree tS t →
  is_parent t P (root tS) →
  dst ∈ preorder t →
  dst ∉ preorder tS →
  colls w !! P = Some cP →
  colls w !! dst = Some cd →
  last (scene_collections cd) ≠ Some (root tS) →
  ∃ w',
    BKE_collection_move_into fuel scene dst (root tS) w = Some (true, w') ∧
    colls w' !! dst
    = Some (set_scene_collections
              (BLI_remlink (scene_collections cd) (root tS) ++ [root tS]) cd) ∧
    (P ≠ dst → colls w' !! P
               = Some (set_scene_collections (BLI_remlink (scene_collections cP) (root tS)) cP)) ∧
    (∀ p, p ≠ P → p ≠ dst → colls w' !! p = colls w !! p) ∧
    events w' = events w ++ [layer_collection_resync scene P; layer_collection_resync scene dst] ∧
    represents (colls w') (moved_into dst tS t) ∧
    preorder (moved_into dst tS t) ≡ₚ preorder t ∧
    NoDup (preorder (moved_into dst tS t)).
Proof.
  intros Hscene Hroot Hrep Hnd Hfuel HsS HP Hd Hout HcP Hcd Hlast.
  assert (Hms : root tS ≠ root t).
  { intros Heq. apply (root_not_descendant t Hnd). rewrite <- Heq.
    by apply (is_parent_descendant _ P). }
  assert (Hnest : is_collection_in_tree fuel (colls w) dst (root tS) = Some false).
  { rewrite (is_collection_in_tree_spec (colls w) tS).
    - f_equal. apply bool_decide_eq_false_2. intros Hin. apply Hout.
      rewrite preorder_root. apply elem_of_cons. by right.
    - by apply (subtree_represents _ _ t).
    - pose proof (subtree_height _ _ HsS). lia. }
  pose proof (find_collection_parent_of _ _ _ _ fuel Hrep Hnd Hfuel HP) as HfP.
  assert (Hsame : P ≠ dst → BLI_remlink (scene_collections cd) (root tS) = scene_collections cd).
  { intros Hne. apply remlink_absent. intros Hin. apply Hne.
    apply (is_parent_unique t P dst (root tS)); [done..|].
    by apply (nested_is_parent (colls w) _ _ cd). }
  destruct (move_stored w P dst (root tS) cP cd
              (BLI_remlink (scene_collections cd) (root tS) ++ [root tS]) HcP Hcd Hsame)
    as (cd1 & Hcd1 & Hl1 & Hset).
  assert (Htree : represents
                    (<[dst := set_scene_collections
                                (BLI_remlink (scene_collections cd) (root tS) ++ [root tS]) cd]>
                       (<[P := set_scene_collections
                                 (BLI_remlink (scene_collections cP) (root tS)) cP]> (colls w)))
                    (moved_into dst tS t) ∧
                  preorder (moved_into dst tS t) ≡ₚ preorder t).
  { apply move_tree; [done..|]. intros l0 Hl0. split_and!.
    - by rewrite map_app, Hl0.
    - intros x [Hx|Hx]%elem_of_app; [by right | left].
      apply elem_of_cons in Hx as [->|Hx]; [done | by apply elem_of_nil in Hx].
    - rewrite flat_map_app. simpl. by rewrite app_nil_r. }
  destruct Htree as [Hrep' Hperm'].
  set (cP' := set_scene_collections (BLI_remlink (scene_collections cP) (root tS)) cP) in *.
  set (w1 := with_colls (<[P := cP']> (colls w)) w) in *.
  exists (with_events (events w ++ [layer_collection_resync scene P;
                                    layer_collection_resync scene dst])
            (with_colls (<[dst := set_scene_collections
                                    (BLI_remlink (scene_collections cd) (root tS) ++ [root tS]) cd]>
                           (colls w1)) w1)).
  split_and!.
  - unfold BKE_collection_move_into.
    rewrite (bind_some _ _ _ _ _ (master_some _ _ _ Hscene)), <- Hroot.
    rewrite decide_False by done.
    unfold bind, gets, lift, assert_ptr, ret. rewrite Hnest, HfP.
    rewrite (load_some _ _ _ Hcd). rewrite decide_False by done.
    rewrite (store_some _ _ _ _ HcP). fold cP' w1.
    rewrite (store_some _ _ _ _ Hcd1). unfold BLI_addtail. rewrite Hl1, Hset.
    unfold BKE_layer_collection_resync, emit, modify. simpl.
    by rewrite <- app_assoc.
  - simpl. apply lookup_insert_eq.
  - intros Hne. simpl. rewrite lookup_insert_ne by done. apply lookup_insert_eq.
  - intros p HpP Hpd. simpl. by rewrite !lookup_insert_ne.
  - done.
  - exact Hrep'.
  - exact Hperm'.
  - by rewrite Hperm'.
Qed.

Lemma move_into_appends_example :
  ∃ w',
    BKE_collection_move_into 2 0 1 (root (Node 2 [])) world_shared_object = Some (true, w') ∧
    colls w' !! 1
    = Some (set_scene_collections
              (BLI_remlink (scene_collections (plain "Master Collection" [] [2; 3]))
                 (root (Node 2 [])) ++ [root (Node 2 [])])
              (plain "Master Collection" [] [2; 3])) ∧
    (1 ≠ 1 → colls w' !! 1
             = Some (set_scene_collections
                       (BLI_remlink (scene_collections (plain "Master Collection" [] [2; 3]))
                          (root (Node 2 [])))
                       (plain "Master Collection" [] [2; 3]))) ∧
    (∀ p, p ≠ 1 → p ≠ 1 → colls w' !! p = colls world_shared_object !! p) ∧
    events w' = events world_shared_object
                ++ [layer_collection_resync 0 1; layer_collection_resync 0 1] ∧
    represents (colls w') (moved_into 1 (Node 2 []) tree_shared_object) ∧
    preorder (moved_into 1 (Node 2 []) tree_shared_object) ≡ₚ preorder tree_shared_object ∧
    NoDup (preorder (moved_into 1 (Node 2 []) tree_shared_object)).
Proof.
  apply (move_into_appends 2 0 world_shared_object (mkScene 1 []) tree_shared_object (Node 2 [])
           1 1 (plain "Master Collection" [] [2; 3]) (plain "Master Collection" [] [2; 3])).
  - reflexivity.
  - reflexivity.
  - simpl. repeat split; eexists; split; reflexivity.
  - simpl. repeat constructor; set_solver.
  - simpl. lia.
  - simpl. tauto.
  - simpl. set_solver.
  - simpl. set_solver.
  - simpl. set_solver.
  - reflexivity.
  - reflexivity.
  - simpl. discriminate.
Defined.

(** ** Unlinking with release *)

(** X23.  Unlinking an object with [free_us] set, from a collection
    that links it: the call returns true and takes away the first link;
    the object loses one user whatever the owner is, a group included;
    the layers are told of the unlink; and the object is handed to the
    library for freeing exactly when that was its last user.  No other
    collection and no other user count changes. *)
Theorem object_remove_free_us (id : ID) (sc ob : ptr) (w : World) (c : SceneCollection) :
  colls w !! sc = Some c →
  ob ∈ objects c →
  ∃ w',
    BKE_collection_object_remove id sc ob true w = Some (true, w') ∧
    colls w' = <[sc := set_objects (BLI_remlink (objects c) ob) c]> (colls w) ∧
    us_of w' ob = (us_of w ob - 1)%Z ∧
    (∀ o, o ≠ ob → us_of w' o = us_of w o) ∧
    events w' = events w ++ layer_sync_object_unlink id sc ob
                            :: (if decide (us_of w ob = 1%Z) then [libblock_free ob] else []) ∧
    scenes w' = scenes w ∧ groups w' = groups w ∧ brk w' = brk w.
Proof.
  intros Hc Hin. unfold BKE_collection_object_remove.
  rewrite (bind_some _ _ _ _ _ (load_some _ _ _ Hc)). unfold BLI_findptr.
  rewrite (bool_decide_eq_true_2 _ Hin). cbn [negb].
  unfold bind at 1. rewrite (store_some _ _ _ _ Hc).
  unfold BKE_libblock_free_us, bind, id_us_min, emit, modify, gets, ret. simpl.
  destruct (decide (us_of w ob = 1%Z)) as [Hone|Hmore].
  - rewrite decide_True by (unfold us_of in *; simpl; rewrite lookup_insert_eq; simpl; lia).
    eexists. split; [reflexivity|]. simpl. split_and!; [done | | | | done..].
    + unfold us_of at 1. simpl. by rewrite lookup_insert_eq.
    + intros o Ho. unfold us_of. simpl. by rewrite lookup_insert_ne.
    + by rewrite <- app_assoc.
  - rewrite decide_False by (unfold us_of in *; simpl; rewrite lookup_insert_eq; simpl; lia).
    eexists. split; [reflexivity|]. simpl. split_and!; [done | | | done..].
    + unfold us_of at 1. simpl. by rewrite lookup_insert_eq.
    + intros o Ho. unfold us_of. simpl. by rewrite lookup_insert_ne.
Qed.

Lemma object_remove_free_us_example :
  ∃ w',
    BKE_collection_object_remove (ID_GR 7) 3 11 true world_shared_object = Some (true, w') ∧
    colls w' = <[3 := set_objects (BLI_remlink (objects (plain "Collection 2" [10; 11] [])) 11)
                        (plain "Collection 2" [10; 11] [])]> (colls world_shared_object) ∧
    us_of w' 11 = (us_of world_shared_object 11 - 1)%Z ∧
    (∀ o, o ≠ 11 → us_of w' o = us_of world_shared_object o) ∧
    events w' = events world_shared_object ++ layer_sync_object_unlink (ID_GR 7) 3 11
                  :: (if decide (us_of world_shared_object 11 = 1%Z)
                      then [libblock_free 11] else []) ∧
    scenes w' = scenes world_shared_object ∧ groups w' = groups world_shared_object ∧
    brk w' = brk world_shared_object.
Proof.
  apply (object_remove_free_us (ID_GR 7) 3 11 world_shared_object
           (plain "Collection 2" [10; 11] [])).
  - reflexivity.
  - simpl. set_solver.
Defined.

(** ** The steps of the conversion into a group *)

(** A new group and its cleanup: the master of the group at the next
    free address, the group itself at the one after, an empty layer. *)
Lemma group_add_cleanup_run (fuel : nat) (nm : string) (w : World) :
  ∃ w1 w2,
    BKE_group_add nm w = Some (S (brk w), w1) ∧
    collection_group_cleanup (S fuel) (S (brk w)) w1 = Some (tt, w2) ∧
    colls w2 = <[brk w := set_name "Master Collection" zeroed]> (colls w) ∧
    groups w2 = <[S (brk w) := mkGroup nm (brk w) (mkSceneLayer [] 0%Z)]> (groups w) ∧
    brk w2 = S (S (brk w)) ∧
    scenes w2 = scenes w ∧ users w2 = users w ∧ events w2 = events w.
Proof.
  eexists _, _. split_and!.
  - unfold BKE_group_add, MEM_callocN, alloc, bind, store. simpl.
    rewrite lookup_insert_eq. simpl. reflexivity.
  - unfold collection_group_cleanup.
    repeat first [ rewrite lookup_insert_eq
                 | progress unfold bind, load_group, load, store, ret
                 | progress simpl ].
    reflexivity.
  - simpl. by rewrite !insert_insert_eq.
  - done.
  - done.
  - done.
  - done.
  - done.
Qed.

Lemma uniquename_free_list `{Externals} (fuel : nat) (h : gmap nat SceneCollection)
    (sc : ptr) (s : string) :
  BLI_uniquename_cb (S fuel) (collection_unique_name_check (S fuel) h [] sc)
    "Collection" s sizeof_name
  = Some (if decide (s = EmptyString) then BLI_strncpy "Collection" sizeof_name else s).
Proof. unfold BLI_uniquename_cb. by destruct (decide (s = EmptyString)). Qed.

(** Adding the first collection to an owner whose master nests none:
    no name is in use, so the call goes through whatever the name. *)
Lemma collection_add_first `{Externals} (fuel : nat) (id : ID) (ty : collection_type)
    (nm : option string) (w : World) (m : ptr) (cm : SceneCollection) :
  collection_master_from_id id w = Some (m, w) →
  colls w !! m = Some cm → scene_collections cm = [] →
  colls w !! brk w = None →
  ∃ cd w3,
    BKE_collection_add (S fuel) id None ty nm w = Some (brk w, w3) ∧
    colls w3 = <[m := set_scene_collections [brk w] cm]> (<[brk w := cd]> (colls w)) ∧
    brk w3 = S (brk w) ∧
    scenes w3 = scenes w ∧ groups w3 = groups w ∧ users w3 = users w.
Proof.
  intros Hm Hcm Hempty Hfresh.
  set (b := brk w) in *. set (n := default "New Collection"%string nm) in *.
  assert (Hmb : m ≠ b) by (intros Heq; rewrite Heq in Hcm; congruence).
  unfold BKE_collection_add. rewrite (bind_some _ _ _ _ _ Hm).
  unfold MEM_callocN, alloc. unfold bind at 1. fold b.
  set (w1 := with_brk (S b) (with_colls (<[b := zeroed]> (colls w)) w)).
  assert (Hb1 : colls w1 !! b = Some zeroed) by apply lookup_insert_eq.
  rewrite (bind_some _ _ _ _ _ (store_some _ _ _ _ Hb1)).
  set (w2 := with_colls (<[b := set_type ty zeroed]> (colls w1)) w1).
  assert (Hcolls2 : colls w2 = <[b := set_type ty zeroed]> (colls w)).
  { unfold w2, w1. simpl. by rewrite insert_insert_eq. }
  assert (Hb2 : colls w2 !! b = Some (set_type ty zeroed)) by apply lookup_insert_eq.
  assert (Hcm2 : colls w2 !! m = Some cm) by (rewrite Hcolls2; by rewrite lookup_insert_ne).
  assert (Hm2 : collection_master_from_id id w2 = Some (m, w2))
    by (by apply (master_from_id_frame id w)).
  fold n. cbn [default].
  set (nm' := if decide (BLI_strncpy n sizeof_name = EmptyString)
              then BLI_strncpy "Collection" sizeof_name else BLI_strncpy n sizeof_name).
  rewrite (bind_some _ _ _ tt
             (with_colls (<[b := set_name nm' (set_type ty zeroed)]> (colls w2)) w2)).
  2:{ rewrite (collection_rename_unfold (S fuel) id b n w2 m _ cm Hm2 Hb2 Hcm2), Hempty.
      by rewrite uniquename_free_list. }
  set (w3 := with_colls (<[b := set_name nm' (set_type ty zeroed)]> (colls w2)) w2).
  assert (Hcolls3 : colls w3 = <[b := set_name nm' (set_type ty zeroed)]> (colls w)).
  { transitivity (<[b := set_name nm' (set_type ty zeroed)]> (colls w2)); [reflexivity|].
    rewrite Hcolls2. by rewrite insert_insert_eq. }
  assert (Hcm3 : colls w3 !! m = Some cm) by (rewrite Hcolls3; by rewrite lookup_insert_ne).
  rewrite (bind_some _ _ _ _ _ (store_some _ _ _ _ Hcm3)).
  unfold bind, emit, modify, ret, BLI_addtail. rewrite Hempty.
  eexists (set_name nm' (set_type ty zeroed)), _. split; [reflexivity|].
  simpl. by rewrite <- Hcolls3.
Qed.

Lemma copy_data_total (no_user_refcount : bool) (tS : tree) : ∀ fuel,
  height tS ≤ fuel →
  ∀ w dst cd cs,
    represents (colls w) tS → colls w !! root tS = Some cs →
    colls w !! dst = Some cd → dst ∉ preorder tS → fresh w →
    ∃ w' ds, BKE_collection_copy_data fuel dst (root tS) no_user_refcount w = Some (tt, w') ∧
             copied (Node dst ds) tS no_user_refcount cd cs w w'.
Proof.
  induction tS as [r ss IH] using tree_ind_all. intros fuel Hh.
  destruct fuel as [|fuel]; [simpl in Hh; lia|].
  apply height_node in Hh. apply copy_data_node.
  rewrite Forall_forall in *. intros t Ht. apply IH; auto.
Qed.

(** A copy is as high as the original. *)
Lemma copy_of_height h tD : ∀ tS, copy_of h tD tS → height tD = height tS.
Proof.
  induction tD as [d ds IH] using tree_ind_all. intros [s ss]. rewrite copy_of_node.
  intros Hall. simpl. f_equal. revert IH.
  induction Hall as [|x y ds ss [_ Hc] _ IHall]; intros IH; [done|].
  apply Forall_cons in IH as [IHx IH]. simpl. by rewrite (IHx y Hc), IHall.
Qed.

(** The loop over the array runs the body on the collections from the
    cursor on. *)
Lemma scene_collections_rounds_each id (arr : list ptr) (body : ptr → M unit) : ∀ n k w,
  k < length arr → length arr ≤ k + n →
  scene_collections_rounds n (at_index id arr k) body w = for_each (drop k arr) body w.
Proof.
  induction n as [|n IH]; intros k w Hk Hn; [lia|].
  destruct (arr !! k) as [sc|] eqn:Hsc; [|apply lookup_ge_None in Hsc; lia].
  rewrite (drop_S _ _ _ Hsc).
  cbn [scene_collections_rounds for_each at_index valid current].
  rewrite Hsc. unfold bind, lift.
  destruct (body sc w) as [[[] w1]|]; [|done].
  destruct (decide (S k < length arr)) as [Hlt|Hge].
  - fold (at_index id arr k). rewrite next_at_index by done. by apply IH; lia.
  - rewrite drop_ge by lia. simpl.
    unfold BKE_scene_collections_iterator_next. simpl. rewrite decide_False by done.
    by destruct n.
Qed.

(** Writing a field other than the nested list into every collection
    of a list. *)
Lemma for_each_store (f : SceneCollection → SceneCollection) (l : list ptr) : ∀ w,
  (∀ c, scene_collections (f c) = scene_collections c) →
  (∀ p, p ∈ l → is_Some (colls w !! p)) →
  ∃ w', for_each l (λ sc, store sc f) w = Some (tt, w') ∧
        (∀ p, scene_collections <$> colls w' !! p = scene_collections <$> colls w !! p) ∧
        scenes w' = scenes w ∧ groups w' = groups w.
Proof.
  intros w Hf. revert w. induction l as [|x l IH]; intros w Hall.
  - by exists w.
  - destruct (Hall x ltac:(apply elem_of_cons; by left)) as [c Hc].
    set (w1 := with_colls (<[x := f c]> (colls w)) w).
    assert (Hshape1 : ∀ p, scene_collections <$> colls w1 !! p
                           = scene_collections <$> colls w !! p).
    { intros p. simpl. destruct (decide (x = p)) as [<-|Hne].
      - rewrite lookup_insert_eq, Hc. simpl. by rewrite Hf.
      - by rewrite lookup_insert_ne. }
    destruct (IH w1) as (w' & Hrun & Hshape & Hs & Hg).
    { intros p Hp. specialize (Hshape1 p).
      destruct (Hall p ltac:(apply elem_of_cons; by right)) as [cp Hcp].
      rewrite Hcp in Hshape1. destruct (colls w1 !! p); [done | discriminate]. }
    exists w'. cbn [for_each]. rewrite (bind_some _ _ _ _ _ (store_some _ _ _ _ Hc)).
    split_and!; [done | | done | done]. intros p. by rewrite Hshape, Hshape1.
Qed.

(** The loop over the collections of an owner, writing such a field. *)
Lemma foreach_store_run (fuel : nat) (id : ID) (f : SceneCollection → SceneCollection)
    (w : World) (t : tree) :
  (∀ c, scene_collections (f c) = scene_collections c) →
  master_collection_from_id id w = Some (root t, w) →
  represents (colls w) t → height t ≤ fuel →
  ∃ w', FOREACH_SCENE_COLLECTION fuel id (λ sc, store sc f) w = Some (tt, w') ∧
        (∀ p, scene_collections <$> colls w' !! p = scene_collections <$> colls w !! p) ∧
        scenes w' = scenes w ∧ groups w' = groups w.
Proof.
  intros Hf Hm Hrep Hh.
  destruct (for_each_store f (preorder t) w Hf) as (w' & Hrun & Hrest).
  { intros p Hp. by apply (represents_allocated _ t). }
  exists w'. split; [|done]. unfold FOREACH_SCENE_COLLECTION.
  rewrite (bind_some _ _ _ _ _ (begin_at_index fuel id w t Hm Hrep Hh)).
  change (tot (data (at_index id (preorder t) 0))) with (length (preorder t)).
  rewrite scene_collections_rounds_each; [exact Hrun | | lia].
  rewrite preorder_root. simpl. lia.
Qed.

(** The layer subsystem can mirror a tree the store holds. *)
Lemma layer_collection_mirror_total h t : ∀ fuel,
  represents h t → height t ≤ fuel → is_Some (layer_collection_mirror fuel h (root t)).
Proof.
  induction t as [r ts IH] using tree_ind_all. intros fuel Hrep Hh.
  destruct fuel as [|fuel]; [simpl in Hh; lia|].
  apply height_node in Hh. apply represents_node in Hrep as [(c & Hc & Hch) Hts].
  simpl. rewrite Hc, Hch.
  destruct (mapM_is_Some_2 (layer_collection_mirror fuel h) (map root ts)) as [l Hl].
  - rewrite Forall_forall in IH, Hts, Hh. apply Forall_forall.
    intros x (tx & -> & Htx)%list_elem_of_fmap. apply (IH tx Htx); auto.
  - rewrite Hl. by eexists.
Qed.

(** Steps that only write the layer of a group or the log. *)
Lemma store_group_layer_run (g : ptr) (f : list LayerCollection → list LayerCollection)
    (w : World) :
  is_Some (groups w !! g) →
  ∃ w', store_group_layer g f w = Some (tt, w') ∧
        colls w' = colls w ∧ scenes w' = scenes w ∧ is_Some (groups w' !! g).
Proof.
  intros [gr Hgr]. unfold store_group_layer, bind, load_group, modify. rewrite Hgr. simpl.
  eexists. split; [reflexivity|]. simpl. split_and!; [done | done |].
  rewrite lookup_insert_eq. by eexists.
Qed.

Lemma for_each_quiet {A} (body : A → M unit) (l : list A) :
  (∀ x w, ∃ w', body x w = Some (tt, w') ∧
                colls w' = colls w ∧ scenes w' = scenes w ∧ groups w' = groups w) →
  ∀ w, ∃ w', for_each l body w = Some (tt, w') ∧
             colls w' = colls w ∧ scenes w' = scenes w ∧ groups w' = groups w.
Proof.
  intros Hbody. induction l as [|x l IH]; intros w; [by exists w|].
  cbn [for_each]. destruct (Hbody x w) as (w1 & Hrun1 & Hc1 & Hs1 & Hg1).
  destruct (IH w1) as (w' & Hrun & Hc & Hs & Hg).
  exists w'. rewrite (bind_some _ _ _ _ _ Hrun1). split_and!; [done | congruence..].
Qed.

Lemma collection_link_run (fuel : nat) (g sc : ptr) (w : World) (lc : LayerCollection) :
  is_Some (groups w !! g) →
  layer_collection_mirror fuel (colls w) sc = Some lc →
  ∃ w', BKE_collection_link fuel g sc w = Some (lc, w') ∧
        colls w' = colls w ∧ scenes w' = scenes w ∧ is_Some (groups w' !! g).
Proof.
  intros Hg Hlc. unfold BKE_collection_link.
  rewrite (bind_some _ _ w (Some lc) w) by (unfold gets; by rewrite Hlc).
  rewrite (bind_some _ _ w lc w) by done.
  destruct (store_group_layer_run g (λ lb, lb ++ [lc]) w Hg) as (w1 & Hrun1 & Hc1 & Hs1 & Hg1).
  rewrite (bind_some _ _ _ _ _ Hrun1). unfold bind, emit, modify, ret.
  eexists. split; [reflexivity|]. done.
Qed.

(** ** Conversion into a group, carried out *)

(** C4, as the code has it.  Conversion into a group is turned down,
    with nothing changed, when a collection strictly below the source is
    what a top-level LayerCollection of some render layer refers to; a
    top-level reference to the source itself does not stop it.  A
    source that is not of type group and not the master, with no
    collection below it referred to at top level, is converted: with
    recursion depth for the tree of the new group, one more than the
    height of the tree of the source, the call returns the new group,
    and the source has become a collection of type group whose group is
    the one returned.  And whenever the conversion is carried out, the
    source has become such a collection. *)
Theorem group_create_guard_and_result `{Externals} (fuel : nat) (scene : ptr)
    (lc_src : LayerCollection) (w : World) (s : Scene) (t : tree) :
  scenes w !! scene = Some s →
  root t = scene_collection lc_src →
  represents (colls w) t →
  height t ≤ fuel →
  ((∃ sl lc_child, sl ∈ render_layers s ∧ lc_child ∈ sl_layer_collections sl ∧
                   scene_collection lc_child ∈ descendants t) →
   BKE_collection_group_create fuel scene lc_src w = Some (None, w)) ∧
  (NoDup (preorder t) →
   (∀ p, is_Some (colls w !! p) → p < brk w) →
   (∀ c, colls w !! scene_collection lc_src = Some c → type c ≠ COLLECTION_TYPE_GROUP) →
   scene_collection lc_src ≠ collection s →
   (∀ sl lc_child, sl ∈ render_layers s → lc_child ∈ sl_layer_collections sl →
                   scene_collection lc_child ∉ descendants t) →
   height t < fuel →
   ∃ g w', BKE_collection_group_create fuel scene lc_src w = Some (Some g, w') ∧
           ∃ c, colls w' !! scene_collection lc_src = Some c ∧
                type c = COLLECTION_TYPE_GROUP ∧ group c = Some g) ∧
  (NoDup (preorder t) →
   (∀ p, is_Some (colls w !! p) → p < brk w) →
   ∀ g w', BKE_collection_group_create fuel scene lc_src w = Some (Some g, w') →
     ∃ c, colls w' !! scene_collection lc_src = Some c ∧
          type c = COLLECTION_TYPE_GROUP ∧ group c = Some g).
Proof.
  intros Hscene Hroot Hrep Hfuel.
  assert (Hsrc : is_Some (colls w !! scene_collection lc_src)).
  { rewrite <- Hroot. apply (represents_allocated _ t); [done|].
    rewrite preorder_root. apply elem_of_cons. by left. }
  destruct Hsrc as [src Hsrc].
  pose proof (linked_in_layers_spec _ _ _ (render_layers s) Hrep Hfuel) as Hlinked.
  rewrite Hroot in Hlinked.
  split_and!.
  { intros (sl & lc & Hsl & Hlc & Hin).
    unfold BKE_collection_group_create.
    rewrite (bind_some _ _ _ _ _ (load_some _ _ _ Hsrc)).
    destruct (decide (type src = COLLECTION_TYPE_GROUP)) as [|Hty]; [done|].
    rewrite (bind_some _ _ _ _ _ (master_some _ _ _ Hscene)).
    destruct (decide (scene_collection lc_src = collection s)) as [|Hmaster]; [done|].
    rewrite (bind_some _ _ _ _ _ (load_scene_some _ _ _ Hscene)).
    unfold bind, gets, lift. rewrite Hlinked.
    rewrite bool_decide_eq_true_2; [done|].
    apply Exists_exists. exists sl. split; [done|]. apply Exists_exists. by exists lc. }
  { intros Hnd Hbrk Hty Hmaster Hnolink Hdeep.
    destruct fuel as [|f]; [lia|].
    set (sc_src := scene_collection lc_src) in *.
    set (n0 := brk w). set (g := S n0). set (d := S (S n0)).
    assert (Hfresh : fresh w).
    { intros p Hp. destruct (colls w !! p) as [c|] eqn:Hc; [|done].
      specialize (Hbrk p (mk_is_Some _ _ Hc)). lia. }
    assert (Hlow : ∀ p, p ∈ preorder t → p < n0).
    { intros p Hp. apply Hbrk. by apply (represents_allocated _ t). }
    assert (Hsrc_in : sc_src ∈ preorder t).
    { rewrite <- Hroot, preorder_root. apply elem_of_cons. by left. }
    (* the new group and its first collection *)
    destruct (group_add_cleanup_run f (name src) w)
      as (w1 & w2 & Hadd & Hclean & Hc2 & Hg2 & Hb2 & Hs2 & _ & _).
    fold n0 g in Hadd, Hclean, Hc2, Hg2, Hb2.
    assert (Hgr2 : groups w2 !! g
                   = Some (mkGroup (name src) n0 (mkSceneLayer [] 0%Z)))
      by (rewrite Hg2; apply lookup_insert_eq).
    assert (Hm2 : collection_master_from_id (ID_GR g) w2 = Some (n0, w2)).
    { simpl. unfold bind, load_group. by rewrite Hgr2. }
    assert (Hmc2 : colls w2 !! n0 = Some (set_name "Master Collection" zeroed))
      by (rewrite Hc2; apply lookup_insert_eq).
    destruct (collection_add_first f (ID_GR g) COLLECTION_TYPE_GROUP_INTERNAL
                (Some (name src)) w2 n0 _ Hm2 Hmc2 eq_refl)
      as (cd & w3 & Hnew & Hc3 & Hb3 & Hs3 & Hg3 & _).
    { rewrite Hb2, Hc2. rewrite lookup_insert_ne by lia. apply Hfresh. lia. }
    rewrite Hb2 in Hnew, Hc3, Hb3. fold d in Hnew, Hc3, Hb3.
    assert (Hold3 : ∀ p, p < n0 → colls w3 !! p = colls w !! p).
    { intros p Hp. rewrite Hc3, !lookup_insert_ne, Hc2 by (unfold d; lia).
      by rewrite lookup_insert_ne by lia. }
    (* the copy of the source *)
    destruct (copy_data_total true t (S f) Hfuel w3 d cd src)
      as (w4 & ds & Hcopy & Hcopied).
    { apply (represents_frame (colls w)); [|done]. intros p Hp. apply Hold3. by apply Hlow. }
    { rewrite Hroot. rewrite Hold3 by (by apply Hlow). done. }
    { rewrite Hc3. rewrite lookup_insert_ne by (unfold d; lia). apply lookup_insert_eq. }
    { intros Hin. specialize (Hlow d Hin). unfold d in Hlow. lia. }
    { intros p Hp. rewrite Hb3 in Hp. rewrite Hc3, !lookup_insert_ne, Hc2 by (unfold d in *; lia).
      rewrite lookup_insert_ne by (unfold d in *; lia). apply Hfresh. unfold d in *. lia. }
    rewrite Hroot in Hcopy.
    destruct Hcopied as (_ & Hrep4 & Hcopy4 & _ & _ & Hframe4 & _ & _ & (Hs4 & Hg4 & _) & _).
    simpl root in Hframe4. rewrite Hb3 in Hframe4.
    assert (Hold4 : ∀ p, p < n0 → colls w4 !! p = colls w !! p).
    { intros p Hp. rewrite Hframe4 by (unfold d; lia). by apply Hold3. }
    (* the type of the collections of the group *)
    assert (Hgr4 : groups w4 !! g = Some (mkGroup (name src) n0 (mkSceneLayer [] 0%Z)))
      by (by rewrite Hg4, Hg3).
    destruct (foreach_store_run (S f) (ID_GR g) (set_type COLLECTION_TYPE_GROUP_INTERNAL) w4
                (Node n0 [Node d ds]))
      as (w5 & Heach & Hshape5 & Hs5 & Hg5).
    { done. }
    { simpl. unfold BKE_collection_group_master, bind, load_group. by rewrite Hgr4. }
    { apply represents_node. split; [|constructor; [done | constructor]].
      eexists. rewrite Hframe4 by (unfold d; lia).
      rewrite Hc3, lookup_insert_eq. done. }
    { pose proof (copy_of_height _ _ _ Hcopy4) as Hh. simpl in Hh |- *. lia. }
    (* the layer of the group *)
    assert (Hrep5 : represents (colls w5) (Node d ds)).
    { apply (represents_ext (colls w4)); [|done]. intros p _. apply Hshape5. }
    destruct (layer_collection_mirror_total (colls w5) (Node d ds) (S f) Hrep5) as [lc_dst Hlc].
    { pose proof (copy_of_height _ _ _ Hcopy4) as Hh. lia. }
    simpl root in Hlc.
    destruct (collection_link_run (S f) g d w5 lc_dst) as (w6 & Hlink & Hc6 & Hs6 & Hg6).
    { rewrite Hg5, Hgr4. by eexists. }
    { done. }
    destruct (store_group_layer_run g
                (λ lb, removelast lb ++ [layer_collection_sync lc_dst lc_src]) w6 Hg6)
      as (w7 & Hsync & Hc7 & Hs7 & _).
    (* the layers of the scene *)
    destruct (for_each_quiet
                (λ sl, for_each (sl_layer_collections sl) (λ lc,
                   modify (λ w0, with_events
                     (events w0 ++ collection_group_convert_layer_collections sc_src lc) w0)))
                (render_layers s)) with (w := w7) as (w8 & Hconv & Hc8 & _ & _).
    { intros sl w0. apply for_each_quiet. intros lc w00. by eexists. }
    (* the source *)
    assert (Hshape8 : ∀ p, p < n0 →
              scene_collections <$> colls w8 !! p = scene_collections <$> colls w !! p).
    { intros p Hp. rewrite Hc8, Hc7, Hc6, Hshape5. by rewrite Hold4. }
    assert (Hsrc8 : is_Some (colls w8 !! sc_src)).
    { specialize (Hshape8 sc_src (Hlow _ Hsrc_in)). rewrite Hsrc in Hshape8.
      destruct (colls w8 !! sc_src); [by eexists | discriminate]. }
    destruct Hsrc8 as [c8 Hsrc8].
    set (c9 := set_type COLLECTION_TYPE_GROUP c8).
    set (w9 := with_colls (<[sc_src := c9]> (colls w8)) w8).
    set (c10 := set_group (Some g) c9).
    set (w10 := with_colls (<[sc_src := c10]> (colls w9)) w9).
    assert (Hset : BKE_collection_group_set sc_src (Some g) w9 = Some (tt, w10)).
    { unfold BKE_collection_group_set.
      assert (Hc9 : colls w9 !! sc_src = Some c9) by apply lookup_insert_eq.
      rewrite (bind_some _ _ _ _ _ (load_some _ _ _ Hc9)).
      rewrite bool_decide_eq_true_2 by done. unfold bind at 1. simpl.
      by rewrite (store_some _ _ _ _ Hc9). }
    destruct (collection_free_total true t (S f) w10) as (w' & Hfree & Hfreed); [|done|done|].
    { apply (represents_ext (colls w)); [|done]. intros p Hp.
      rewrite <- (Hshape8 p (Hlow p Hp)). simpl.
      destruct (decide (sc_src = p)) as [<-|Hne].
      - rewrite !lookup_insert_eq, Hsrc8. done.
      - by rewrite !lookup_insert_ne. }
    rewrite Hroot in Hfree. destruct Hfreed as (Hroot' & _).
    exists g, w'. split.
    - unfold BKE_collection_group_create. fold sc_src.
      rewrite (bind_some _ _ _ _ _ (load_some _ _ _ Hsrc)).
      rewrite decide_False by (by apply Hty).
      rewrite (bind_some _ _ _ _ _ (master_some _ _ _ Hscene)).
      rewrite decide_False by done.
      rewrite (bind_some _ _ _ _ _ (load_scene_some _ _ _ Hscene)).
      rewrite (bind_some _ _ w (linked_in_layers (S f) (colls w) sc_src (render_layers s)) w)
        by done.
      rewrite Hlinked. rewrite (bind_some _ _ w _ w eq_refl).
      rewrite bool_decide_eq_false_2.
      2:{ intros (sl & Hsl & (lc & Hlc' & Hin)%Exists_exists)%Exists_exists.
          by apply (Hnolink sl lc). }
      rewrite (bind_some _ _ _ _ _ Hadd), (bind_some _ _ _ _ _ Hclean).
      rewrite (bind_some _ _ _ _ _ Hnew), (bind_some _ _ _ _ _ Hcopy).
      rewrite (bind_some _ _ _ _ _ Heach), (bind_some _ _ _ _ _ Hlink).
      rewrite (bind_some _ _ _ _ _ Hsync), (bind_some _ _ _ _ _ Hconv).
      rewrite (bind_some _ _ _ _ _ (store_some _ _ _ _ Hsrc8)). fold c9 w9.
      rewrite (bind_some _ _ _ _ _ Hset), (bind_some _ _ _ _ _ Hfree). done.
    - exists (cleared c10). rewrite Hroot in Hroot'. rewrite Hroot'. simpl.
      rewrite lookup_insert_eq. done. }
  intros Hnd Hbrk g w' Hrun.
  unfold BKE_collection_group_create in Hrun.
  rewrite (bind_some _ _ _ _ _ (load_some _ _ _ Hsrc)) in Hrun.
  destruct (decide (type src = COLLECTION_TYPE_GROUP)) as [|Hty]; [done|].
  rewrite (bind_some _ _ _ _ _ (master_some _ _ _ Hscene)) in Hrun.
  destruct (decide (scene_collection lc_src = collection s)) as [|Hmaster]; [done|].
  rewrite (bind_some _ _ _ _ _ (load_scene_some _ _ _ Hscene)) in Hrun.
  apply bind_inv in Hrun as (l0 & w0 & Hl0 & Hrun). injection Hl0 as <- <-.
  rewrite Hlinked in Hrun.
  apply bind_inv in Hrun as (l1 & w0 & Hl1 & Hrun). injection Hl1 as <- <-.
  destruct (bool_decide _); [done|].
  set (n0 := brk w). set (sc_src := scene_collection lc_src) in *.
  apply bind_inv in Hrun as (g0 & w1 & Hadd & Hrun).
  apply bind_inv in Hrun as (u2 & w2 & Hclean & Hrun).
  destruct (group_add_cleanup _ _ _ _ _ _ _ Hadd Hclean) as (-> & Hinv2 & Hk2). fold n0 in Hinv2, Hk2.
  apply bind_inv in Hrun as (sc_dst & w3 & Hnew & Hrun).
  destruct (safe_add n0 _ _ _ _ _ _ Hinv2 Hnew) as (Hinv3 & Hk3 & Hdst).
  apply bind_inv in Hrun as (u4 & w4 & Hcopy & Hrun).
  destruct (safe_copy_data n0 _ _ _ _ Hdst _ _ _ Hinv3 Hcopy) as (Hinv4 & Hk4 & _).
  apply bind_inv in Hrun as (u5 & w5 & Heach & Hrun).
  assert (Hs5 : safe n0 (FOREACH_SCENE_COLLECTION fuel (ID_GR (S n0))
                   (λ sc_group, store sc_group (set_type COLLECTION_TYPE_GROUP_INTERNAL)))
                 (λ _, True)).
  { apply safe_foreach. intros sc. apply safe_store. by right. }
  destruct (Hs5 _ _ _ Hinv4 Heach) as (Hinv5 & Hk5 & _).
  apply bind_inv in Hrun as (lc_dst & w6 & Hlink & Hrun).
  destruct (safe_link n0 _ _ _ _ _ Hinv5 Hlink) as (Hinv6 & Hk6 & _).
  apply bind_inv in Hrun as (u7 & w7 & Hsync & Hrun).
  destruct (safe_store_group_layer n0 _ _ _ _ Hinv6 Hsync) as (Hinv7 & Hk7 & _).
  apply bind_inv in Hrun as (u8 & w8 & Hconv & Hrun).
  assert (Hk8 : keeps n0 w7 w8).
  { refine (proj1 (proj2 (safe_for_each n0 _ _ _ _ _ _ Hinv7 Hconv))).
    intros sl. apply safe_for_each. intros lc. by apply safe_modify. }
  assert (Hk : keeps n0 w w8).
  { repeat (eapply keeps_trans; [eassumption|]). apply keeps_refl. }
  apply bind_inv in Hrun as (u9 & w9 & Hst & Hrun).
  apply store_inv in Hst as (c8 & Hc8 & ->).
  apply bind_inv in Hrun as (u10 & w10 & Hset & Hrun).
  unfold BKE_collection_group_set in Hset.
  apply bind_inv in Hset as (c9 & w9 & Hl9 & Hset). apply load_inv in Hl9 as [Hc9 ->].
  simpl in Hc9. rewrite lookup_insert_eq in Hc9. injection Hc9 as <-.
  apply bind_inv in Hset as (u11 & w9 & Has & Hset).
  simpl in Has. injection Has as _ <-.
  apply store_inv in Hset as (c9 & Hc9 & ->).
  simpl in Hc9. rewrite lookup_insert_eq in Hc9. injection Hc9 as <-.
  apply bind_inv in Hrun as (u12 & w12 & Hfree & Hrun). injection Hrun as <- <-.
  simpl in Hfree. rewrite insert_insert_eq in Hfree.
  destruct (collection_free_frame true fuel _ _ _ _ Hfree) as (_ & _ & Hself).
  simpl in Hself. rewrite lookup_insert_eq in Hself.
  destruct Hself as (c & Hc & ->); [|injection Hc as <-; by eexists].
  (* the source does not reach itself *)
  intros Hreach. apply (root_not_descendant t Hnd). rewrite Hroot at 1.
  apply (reaches_descendant _ _ _ Hreach); [|done].
  apply (represents_ext (colls w)); [|done]. intros p Hp.
  destruct (represents_allocated _ _ _ Hrep Hp) as [cp Hcp].
  destruct (Hk p cp (Hbrk p (mk_is_Some _ _ Hcp)) Hcp) as (cp' & Hcp' & Hsame).
  rewrite Hcp. destruct (decide (sc_src = p)) as [<-|Hne].
  - rewrite lookup_insert_eq. simpl. rewrite Hcp' in Hc8. injection Hc8 as <-. congruence.
  - rewrite lookup_insert_ne by done. rewrite Hcp'. simpl. congruence.
Qed.

Lemma group_create_guard_and_result_witness :
  @BKE_collection_group_create blender_externals 3 0 layer_collection_b world_c_linked
    = Some (None, world_c_linked) ∧
  (∃ g w',
    @BKE_collection_group_create blender_externals 3 0 layer_collection_b world_b_linked
      = Some (Some g, w') ∧
    ∃ c, colls w' !! 2 = Some c ∧ type c = COLLECTION_TYPE_GROUP ∧ group c = Some g) ∧
  ∀ g w',
    @BKE_collection_group_create blender_externals 3 0 layer_collection_b world_b_linked
      = Some (Some g, w') →
    ∃ c, colls w' !! 2 = Some c ∧ type c = COLLECTION_TYPE_GROUP ∧ group c = Some g.
Proof.
  assert (Hrep : represents (colls world_abc) tree_bc).
  { simpl. repeat split; eexists; split; reflexivity. }
  assert (Hnd : NoDup (preorder tree_bc)) by (simpl; repeat constructor; set_solver).
  assert (Hbrk : ∀ p, is_Some (colls world_abc !! p) → p < 4).
  { intros p [c Hc]. destruct (decide (p < 4)) as [|Hge]; [done|]. exfalso.
    simpl in Hc. rewrite !lookup_insert_ne in Hc by lia. done. }
  split_and!.
  - apply (proj1 (@group_create_guard_and_result blender_externals 3 0 layer_collection_b
                    world_c_linked
                    (mkScene 1 [mkSceneLayer [layer_collection_b; mkLayerCollection 3 1%Z 1%Z [] []] 0%Z])
                    tree_bc eq_refl eq_refl Hrep ltac:(simpl; lia))).
    eexists _, (mkLayerCollection 3 1%Z 1%Z [] []). split_and!.
    + apply elem_of_cons. by left.
    + simpl. apply elem_of_cons. right. apply elem_of_cons. by left.
    + simpl. apply elem_of_cons. by left.
  - apply (proj1 (proj2 (@group_create_guard_and_result blender_externals 3 0 layer_collection_b
                    world_b_linked (mkScene 1 [mkSceneLayer [layer_collection_b] 0%Z])
                    tree_bc eq_refl eq_refl Hrep ltac:(simpl; lia)))).
    + exact Hnd.
    + exact Hbrk.
    + intros c Hc. vm_compute in Hc. injection Hc as <-. discriminate.
    + simpl. lia.
    + intros sl lc Hsl Hlc. simpl in Hsl.
      apply elem_of_cons in Hsl as [->|Hsl]; [|by apply elem_of_nil in Hsl].
      simpl in Hlc. apply elem_of_cons in Hlc as [->|Hlc]; [|by apply elem_of_nil in Hlc].
      simpl. set_solver.
    + simpl. lia.
  - apply (proj2 (proj2 (@group_create_guard_and_result blender_externals 3 0 layer_collection_b
                    world_b_linked (mkScene 1 [mkSceneLayer [layer_collection_b] 0%Z])
                    tree_bc eq_refl eq_refl Hrep ltac:(simpl; lia)))).
    + exact Hnd.
    + exact Hbrk.
Defined.
